(** * attachment-processor: the correlation engine of [main.go]

    A shallow embedding of the Go program that correlates the attachments of
    a GitHub repository export with GitHub issues and JIRA tickets, and of the
    properties its specification states about it.

    Go strings are byte strings: they are modelled by [string] (a list of
    [ascii]).  Go's [int] is taken to be 64 bits wide, as on every 64-bit
    target of the Go tool chain.  A map [map[string]*T] is a [gmap string T];
    the order in which [range] visits its keys is not fixed by the language
    and is an explicit argument of the loops that iterate over a map. *)

From Stdlib Require Import ZArith Lia Ascii String List Bool.
From stdpp Require Import base option list gmap strings.

Local Open Scope Z_scope.
Set Warnings "-register-all".

(* ===================================================================== *)
(** * Part 1: the pieces of Go's standard library the program calls       *)
(* ===================================================================== *)

Module GoStrings.

(** [strings.HasPrefix(s, prefix)]. *)
Fixpoint HasPrefix (s prefix : string) {struct prefix} : bool :=
  match prefix with
  | EmptyString => true
  | String p prefix' =>
      match s with
      | EmptyString => false
      | String c s' => if Ascii.eqb c p then HasPrefix s' prefix' else false
      end
  end.

(** [strings.HasSuffix(s, suffix)]:
    [len(s) >= len(suffix) && s[len(s)-len(suffix):] == suffix]. *)
Definition HasSuffix (s suffix : string) : bool :=
  (String.length suffix <=? String.length s)%nat &&
  String.eqb
    (String.substring (String.length s - String.length suffix)
                      (String.length suffix) s)
    suffix.

(** The loop of [strings.genSplit] for a non-empty separator: find the first
    occurrence of [sep], cut the text before it off as an element, go on
    after the separator; what is left at the end is the last element.
    [cur] is the element being read, [skip] the number of bytes of a matched
    separator still to pass over. *)
Fixpoint genSplit (sep : string) (skip : nat) (cur s : string) : list string :=
  match s with
  | EmptyString => [cur]
  | String c s' =>
      match skip with
      | S k => genSplit sep k cur s'
      | O =>
          if HasPrefix s sep
          then cur :: genSplit sep (String.length sep - 1) EmptyString s'
          else genSplit sep 0 (cur +:+ String c EmptyString) s'
      end
  end.

(** [strings.Split(s, sep)], for the non-empty separators the program
    passes ("/", "#" and "issuecomment-"). *)
Definition Split (s sep : string) : list string :=
  genSplit sep 0 EmptyString s.

(** [strings.Join(elems, sep)]. *)
Fixpoint Join (elems : list string) (sep : string) : string :=
  match elems with
  | [] => EmptyString
  | [a] => a
  | a :: rest => a +:+ sep +:+ Join rest sep
  end.

End GoStrings.

Module GoStrconv.

(** [strconv.ErrSyntax] and [strconv.ErrRange]. *)
Inductive numErrKind : Type := ErrSyntax | ErrRange.

Definition maxUint64 : Z := 2 ^ 64 - 1.

(** [cutoff = maxUint64/10 + 1], the smallest [n] with [n*10] past 64 bits. *)
Definition cutoff10 : Z := maxUint64 / 10 + 1.

Definition isDigit (c : ascii) : bool :=
  (48 <=? nat_of_ascii c)%nat && (nat_of_ascii c <=? 57)%nat.

Definition digitVal (c : ascii) : Z := Z.of_nat (nat_of_ascii c) - 48.

(** The digit loop of [strconv.ParseUint(s, 10, 64)].  With base 10 every
    byte that is no decimal digit is a syntax error (letters are digits of
    value at least 10, an underscore counts in base 0 only).  The unsigned
    sum [n1 := n*10 + d] wraps in Go, and the test [n1 < n || n1 > maxVal]
    finds that: on unbounded integers it is [n1 > maxUint64]. *)
Fixpoint parseUintLoop (s : string) (n : Z) : Z + numErrKind :=
  match s with
  | EmptyString => inl n
  | String c s' =>
      if isDigit c then
        if cutoff10 <=? n then inr ErrRange
        else
          let n1 := n * 10 + digitVal c in
          if maxUint64 <? n1 then inr ErrRange else parseUintLoop s' n1
      else inr ErrSyntax
  end.

(** [strconv.ParseUint(s, 10, 64)]. *)
Definition ParseUint (s : string) : Z + numErrKind :=
  match s with
  | EmptyString => inr ErrSyntax
  | _ => parseUintLoop s 0
  end.

(** [strconv.ParseInt(s, 10, 64)]: the value, or the kind of the
    [*NumError] it returns (whose [Func] is "ParseInt" and whose [Num] is
    [s]).  After a range error of [ParseUint] Go goes on with [maxUint64],
    which is past both cut-offs. *)
Definition ParseInt (s : string) : Z + numErrKind :=
  match s with
  | EmptyString => inr ErrSyntax
  | String c s' =>
      let neg := Ascii.eqb c "-" in
      let digits := if Ascii.eqb c "+" || neg then s' else s in
      match ParseUint digits with
      | inr ErrSyntax => inr ErrSyntax
      | inr ErrRange => inr ErrRange
      | inl un =>
          if negb neg && (2 ^ 63 <=? un) then inr ErrRange
          else if neg && (2 ^ 63 <? un) then inr ErrRange
          else inl (if neg then - un else un)
      end
  end.

End GoStrconv.

Import GoStrings GoStrconv.

(** Go's conversion [int(x)] of an [int64], [int] being 64 bits wide. *)
Definition int_of_int64 (x : Z) : Z := (x + 2 ^ 63) mod 2 ^ 64 - 2 ^ 63.

(* ===================================================================== *)
(** * Part 2: errors, results and the data model                          *)
(* ===================================================================== *)

(** Go [error] values.  [Errorf format args] is the value of
    [fmt.Errorf(format, args...)], kept with its arguments (each a string or
    an error, all formatted with [%s]) instead of the rendered text;
    [NumError] is [*strconv.NumError]; [EOF] is the sentinel [io.EOF];
    [External] stands for an error of the operating system, of the JSON
    decoder or of an HTTP client, known by its text only. *)
Inductive error : Type :=
| NumError (Func Num : string) (Err : numErrKind)
| EOF
| External (text : string)
| Errorf (format : string) (args : list (string + error)).

(** Run-time panics of the Go runtime the program can run into. *)
Inductive panic : Type :=
| IndexOutOfRange
| SliceBoundsOutOfRange
| NilPointerDereference
| LogPanicf.

(** How a call ends: it returns a value (with a nil error), it returns a
    non-nil error, or the goroutine panics and the process dies.
    [OutOfFuel] is no behaviour of the program: it marks that the bound the
    model puts on the number of listing pages was reached. *)
Inductive run (A : Type) : Type :=
| Ok (a : A)
| Fail (e : error)
| Panic (p : panic)
| OutOfFuel.
Arguments Ok {A} a.
Arguments Fail {A} e.
Arguments Panic {A} p.
Arguments OutOfFuel {A}.

Definition run_bind {A B : Type} (m : run A) (f : A -> run B) : run B :=
  match m with
  | Ok a => f a
  | Fail e => Fail e
  | Panic p => Panic p
  | OutOfFuel => OutOfFuel
  end.

Declare Scope go_scope.
Delimit Scope go_scope with go.
Notation "x <- c1 ;; c2" := (run_bind c1 (fun x => c2))
  (at level 100, c1 at next level, right associativity) : go_scope.
Local Open Scope go_scope.

(** [l[i]] on a slice: a panic when [i] is out of range. *)
Definition index {A : Type} (l : list A) (i : nat) : run A :=
  match l !! i with
  | Some x => Ok x
  | None => Panic IndexOutOfRange
  end.

(** [l[len(l)-1]]: index [-1] on an empty slice panics as well. *)
Definition indexLast {A : Type} (l : list A) : run A :=
  match l with
  | [] => Panic IndexOutOfRange
  | _ => index l (length l - 1)
  end.

(** [l[n:]] on a slice: a panic when [n > len(l)]. *)
Definition sliceFrom {A : Type} (l : list A) (n : nat) : run (list A) :=
  if (n <=? length l)%nat then Ok (drop n l) else Panic SliceBoundsOutOfRange.

(** [type attachment struct]. *)
Record attachment : Type := {
  attachment_Type : string;
  attachment_URL : string;
  attachment_IssueNumber : Z;
  attachment_CommentNumber : Z;
  attachment_Path : string
}.

(** [type issue struct]. *)
Record issue : Type := {
  issue_URL : string;
  issue_Number : Z
}.

(** [type ticket struct]. *)
Record ticket : Type := {
  ticket_Key : string;
  ticket_Uploaded : bool
}.

(** [type database struct].  The maps hold pointers in Go; every entry the
    program stores is non-nil, and a missing key reads as nil. *)
Record database : Type := {
  Attachments : list attachment;
  Issues : gmap string issue;
  Tickets : gmap string ticket
}.

(** One element of an export-record file ([attachments_*.json]). *)
Record rawAttachment : Type := {
  Issue : string;
  IssueComment : string;
  AssetURL : string
}.

(* ===================================================================== *)
(** * Part 3: the export parser ([processAttachments])                    *)
(* ===================================================================== *)

(** [pathTokens := strings.Split(AssetURL, "/")] and
    [path := strings.Join(pathTokens[3:], "/")], the same two lines in both
    branches of the parser. *)
Definition assetPath (url : string) : run string :=
  let pathTokens := Split url "/" in
  rest <- sliceFrom pathTokens 3 ;;
  Ok (Join rest "/").

Definition parseIssueNumber (value token : string) : run Z :=
  match ParseInt token with
  | inl n => Ok n
  | inr k =>
      Fail (Errorf "error parsing issue number from %s: %s"
                   [inl value; inr (NumError "ParseInt" token k)])
  end.

Definition parseCommentNumber (value token : string) : run Z :=
  match ParseInt token with
  | inl n => Ok n
  | inr k =>
      Fail (Errorf "error parsing comment number from %s: %s"
                   [inl value; inr (NumError "ParseInt" token k)])
  end.

(** The body of the loop over the records of one file: the attachment to
    append, if any. *)
Definition processRecord (a : rawAttachment) : run (option attachment) :=
  if negb (String.eqb (Issue a) EmptyString) then
    let issueTokens := Split (Issue a) "/" in
    token <- indexLast issueTokens ;;
    issueNumber <- parseIssueNumber (Issue a) token ;;
    path <- assetPath (AssetURL a) ;;
    Ok (Some {| attachment_IssueNumber := int_of_int64 issueNumber;
                attachment_Type := "issue";
                attachment_Path := path;
                attachment_URL := Issue a;
                attachment_CommentNumber := 0 |})
  else if negb (String.eqb (IssueComment a) EmptyString) then
    let issueTokens := Split (IssueComment a) "/" in
    lastToken <- indexLast issueTokens ;;
    token <- index (Split lastToken "#") 0 ;;
    issueNumber <- parseIssueNumber (IssueComment a) token ;;
    let commentTokens := Split (IssueComment a) "#" in
    fragment <- indexLast commentTokens ;;
    ctoken <- index (Split fragment "issuecomment-") 1 ;;
    commentNumber <- parseCommentNumber (IssueComment a) ctoken ;;
    path <- assetPath (AssetURL a) ;;
    Ok (Some {| attachment_CommentNumber := commentNumber;
                attachment_IssueNumber := int_of_int64 issueNumber;
                attachment_Type := "issue_comment";
                attachment_Path := path;
                attachment_URL := IssueComment a |})
  else Ok None.

(** [db.Attachments = append(db.Attachments, entry)]. *)
Definition appendAttachment (db : database) (entry : attachment) : database :=
  {| Attachments := Attachments db ++ [entry];
     Issues := Issues db;
     Tickets := Tickets db |}.

(** [for _, _attachment := range attachments]: the database is updated in
    place, so what was appended before a failure stays appended. *)
Fixpoint processRecords (records : list rawAttachment) (db : database)
  : database * run unit :=
  match records with
  | [] => (db, Ok tt)
  | a :: rest =>
      match processRecord a with
      | Ok (Some entry) => processRecords rest (appendAttachment db entry)
      | Ok None => processRecords rest db
      | Fail e => (db, Fail e)
      | Panic p => (db, Panic p)
      | OutOfFuel => (db, OutOfFuel)
      end
  end.

(** What reading and decoding one file of the staging directory gives:
    [os.ReadFile] fails, [json.Unmarshal] fails, or the decoded records. *)
Inductive fileRead : Type :=
| ReadFails (e : error)
| UnmarshalFails (e : error)
| Decoded (records : list rawAttachment).

Record dirEntry : Type := {
  entry_Name : string;
  entry_read : fileRead
}.

(** [filepath.Join("stage", name)] for the name of a directory entry. *)
Definition stagePath (name : string) : string := "stage/" +:+ name.

(** Only files named [attachments*.json] are considered. *)
Definition considered (entry : dirEntry) : bool :=
  HasPrefix (entry_Name entry) "attachments" && HasSuffix (entry_Name entry) ".json".

Fixpoint processEntries (entries : list dirEntry) (db : database)
  : database * run unit :=
  match entries with
  | [] => (db, Ok tt)
  | entry :: rest =>
      if considered entry then
        let path := stagePath (entry_Name entry) in
        match entry_read entry with
        | ReadFails e =>
            (db, Fail (Errorf "error reading file %s: %s" [inl path; inr e]))
        | UnmarshalFails e =>
            (db, Fail (Errorf "error unmarshalling JSON from %s: %s" [inl path; inr e]))
        | Decoded records =>
            match processRecords records db with
            | (db', Ok _) => processEntries rest db'
            | failed => failed
            end
        end
      else processEntries rest db
  end.

(** [processAttachments(db)]; [stage] is what [os.ReadDir("stage")] gives. *)
Definition processAttachments (stage : error + list dirEntry) (db : database)
  : database * run unit :=
  match stage with
  | inl e => (db, Fail (Errorf "error reading directory: %s" [inr e]))
  | inr entries => processEntries entries db
  end.

Definition emptyDatabase : database :=
  {| Attachments := []; Issues := ∅; Tickets := ∅ |}.


(* ===================================================================== *)
(** * Part 4: the machine the commands run on                             *)
(* ===================================================================== *)

(** What the program does to the outside that the specification speaks of:
    the expansion of the archive, the calls to the two remote services and
    the writes of [database.json].  [title] in [PostAttachment] is no
    argument of the call: it records which entry of [db.Tickets] the loop
    was visiting.  [ok] tells whether the call returned no error and the
    status 200. *)
Inductive event : Type :=
| ExpandArchive (archive : string)
| ListByRepo (org repo : string) (page : Z)
| Search (jql : string) (startAt : Z)
| PostAttachment (title key name : string) (ok : bool)
| WriteFile (contents : database) (ok : bool).

(** What [database.json] holds: nothing (there is no such file), the JSON of
    an index, or bytes [json.Unmarshal] rejects, as a write that broke off
    leaves them (the start of the JSON of an index, which may be empty, is
    not the JSON of an index). *)
Inductive contents : Type :=
| Absent
| Holds (db : database)
| Torn.

(** The state a command works on: the database in memory ([db]), the
    contents of [database.json] ([disk]), the events so far, and the number
    of transfers attempted so far (the index of the next answer of the
    outside). *)
Record machine : Type := {
  mem : database;
  disk : contents;
  trace : list event;
  clock : nat
}.

(** State and error monad of the commands. *)
Definition M (A : Type) : Type := machine -> machine * run A.

Definition ret {A : Type} (a : A) : M A := fun s => (s, Ok a).

Definition bind {A B : Type} (m : M A) (f : A -> M B) : M B :=
  fun s =>
    match m s with
    | (s', Ok a) => f a s'
    | (s', Fail e) => (s', Fail e)
    | (s', Panic p) => (s', Panic p)
    | (s', OutOfFuel) => (s', OutOfFuel)
    end.

Notation "x <~ c1 ;; c2" := (bind c1 (fun x => c2))
  (at level 100, c1 at next level, right associativity) : go_scope.
Notation "c1 ;;; c2" := (bind c1 (fun _ => c2))
  (at level 100, right associativity) : go_scope.

Definition fail {A : Type} (e : error) : M A := fun s => (s, Fail e).

Definition crash {A : Type} (p : panic) : M A := fun s => (s, Panic p).

Definition emit (ev : event) : M unit :=
  fun s => ({| mem := mem s; disk := disk s; trace := trace s ++ [ev]; clock := clock s |}, Ok tt).

Definition setMem (db : database) : M unit :=
  fun s => ({| mem := db; disk := disk s; trace := trace s; clock := clock s |}, Ok tt).

Definition getMem : M database := fun s => (s, Ok (mem s)).

Definition setDisk (file : contents) : M unit :=
  fun s => ({| mem := mem s; disk := file; trace := trace s; clock := clock s |}, Ok tt).

Definition tick : M nat :=
  fun s => ({| mem := mem s; disk := disk s; trace := trace s; clock := S (clock s) |}, Ok (clock s)).

(** A call that returns an error the caller wraps with [fmt.Errorf]. *)
Definition wrap (format : string) (m : M unit) : M unit :=
  fun s =>
    match m s with
    | (s', Fail e) => (s', Fail (Errorf format [inr e]))
    | other => other
    end.

(** [os.WriteFile(name, data, perm)] opens the file with
    [O_WRONLY|O_CREATE|O_TRUNC], writes the bytes and closes the file, and
    returns the first error of the three.  When the open failed the file is
    untouched; afterwards the file has been made or emptied, and holds a part
    of the bytes (none of them, maybe) when the write broke off, or all of
    them when the close alone failed. *)
Inductive leftover : Type :=
| Untouched
| Partial
| Complete.

(** A failed [os.WriteFile]: the error it returns and what it leaves. *)
Record writeFailure : Type := {
  write_err : error;
  write_leaves : leftover
}.

(** What the file holds after [os.WriteFile] was called with the JSON of
    [db], on a file that held [old]. *)
Definition afterWrite (db : database) (failure : option writeFailure) (old : contents)
  : contents :=
  match failure with
  | None => Holds db
  | Some f =>
      match write_leaves f with
      | Untouched => old
      | Partial => Torn
      | Complete => Holds db
      end
  end.

(** [err == nil] of a call to [os.WriteFile]. *)
Definition succeeded (failure : option writeFailure) : bool :=
  match failure with
  | None => true
  | Some _ => false
  end.

(** Go's [int] addition, 64 bits wide. *)
Definition int_add (a b : Z) : Z := int_of_int64 (a + b).

(* ===================================================================== *)
(** * Part 5: the two listers and [collect]                               *)
(* ===================================================================== *)

(** The fields the program reads of [*github.Issue] and [*github.Response]. *)
Record ghIssue : Type := {
  gh_Title : string;
  gh_HTMLURL : string;
  gh_Number : Z
}.

Record ghResponse : Type := {
  gh_StatusCode : Z;
  gh_NextPage : Z;
  gh_LastPage : Z
}.

(** What [client.Issues.ListByRepo] returns for one page: the response is
    nil when the request itself failed. *)
Record ghPage : Type := {
  gh_issues : list ghIssue;
  gh_resp : option ghResponse;
  gh_err : option error
}.

(** The fields the program reads of [jira.Issue] and [*jira.Response]. *)
Record jiraIssue : Type := {
  jira_Key : string;
  jira_Summary : string
}.

Record jiraResponse : Type := {
  jira_StatusCode : Z;
  jira_StartAt : Z;
  jira_MaxResults : Z;
  jira_Total : Z
}.

Record jiraPage : Type := {
  jira_issues : list jiraIssue;
  jira_resp : option jiraResponse;
  jira_err : option error
}.

(** [db.Issues[_issue.GetTitle()] = entry] for the issues of a page. *)
Definition storeIssues (issues : list ghIssue) (db : database) : database :=
  {| Attachments := Attachments db;
     Issues := foldl (fun m i =>
                        <[gh_Title i := {| issue_URL := gh_HTMLURL i;
                                           issue_Number := gh_Number i |}]> m)
                     (Issues db) issues;
     Tickets := Tickets db |}.

(** [db.Tickets[_issue.Fields.Summary] = entry] for the tickets of a page. *)
Definition storeTickets (issues : list jiraIssue) (db : database) : database :=
  {| Attachments := Attachments db;
     Issues := Issues db;
     Tickets := foldl (fun m i =>
                         <[jira_Summary i := {| ticket_Key := jira_Key i;
                                                ticket_Uploaded := false |}]> m)
                      (Tickets db) issues |}.

Definition StatusNotFound : Z := 404.

(** [processIssues], from page [page] on; [fuel] bounds the number of pages
    (the loop ends when the service answers [NextPage == 0]). *)
Fixpoint processIssues (fuel : nat) (client : Z -> ghPage) (org repo : string)
    (page : Z) : M unit :=
  match fuel with
  | O => fun s => (s, OutOfFuel)
  | S fuel' =>
      emit (ListByRepo org repo page) ;;;
      let p := client page in
      match gh_err p with
      | Some err =>
          match gh_resp p with
          | None => crash NilPointerDereference
          | Some resp =>
              if gh_StatusCode resp =? StatusNotFound
              then fail (Errorf "repository %s/%s not found" [inl org; inl repo])
              else fail (Errorf "failed listing issues for %s/%s: %s"
                                [inl org; inl repo; inr err])
          end
      | None =>
          match gh_resp p with
          | None => crash NilPointerDereference
          | Some resp =>
              db <~ getMem ;;
              setMem (storeIssues (gh_issues p) db) ;;;
              if gh_NextPage resp =? 0 then ret tt
              else processIssues fuel' client org repo (gh_NextPage resp)
          end
      end
  end.

(** [processTickets], from offset [startAt] on.  [client] is [None] when
    [newJIRAClient] failed: [collect] only prints that error and goes on
    with a nil client. *)
Fixpoint processTickets (fuel : nat) (client : option (Z -> jiraPage))
    (key : string) (startAt : Z) : M unit :=
  match fuel with
  | O => fun s => (s, OutOfFuel)
  | S fuel' =>
      match client with
      | None => crash NilPointerDereference
      | Some search =>
          emit (Search ("project=" +:+ key) startAt) ;;;
          let p := search startAt in
          match jira_err p with
          | Some err =>
              fail (Errorf "failed searching for tickets in %s: %s" [inl key; inr err])
          | None =>
              match jira_resp p with
              | None => crash NilPointerDereference
              | Some resp =>
                  db <~ getMem ;;
                  setMem (storeTickets (jira_issues p) db) ;;;
                  let next := int_add (jira_StartAt resp) (jira_MaxResults resp) in
                  if jira_Total resp <=? next then ret tt
                  else processTickets fuel' client key next
              end
          end
      end
  end.

(** The flags of [collect] the model reads. *)
Record collectFlags : Type := {
  archive : string;
  skipArchive : bool;
  org : string;
  repo : string;
  jiraKey : string
}.

(** The answers of the outside to [collect]. *)
Record collectWorld : Type := {
  newJIRAClientErr : option error;     (* newJIRAClient *)
  stageNotExist : bool;                (* os.IsNotExist of os.Stat("stage") *)
  mkdirAllErr : option error;          (* os.MkdirAll("stage", 0755) *)
  openStageErr : option error;         (* os.Open("stage") in IsEmpty *)
  readdirnamesErr : option error;      (* f.Readdirnames(1) in IsEmpty *)
  expandErr : option error;            (* expand(archive) *)
  stageDir : error + list dirEntry;    (* os.ReadDir("stage") and the files *)
  listByRepo : Z -> ghPage;
  search : Z -> jiraPage;
  marshalErr : option error;           (* json.Marshal(db) *)
  writeFileErr : option writeFailure   (* os.WriteFile("database.json", ...) *)
}.

(** [IsEmpty("stage")]. *)
Definition IsEmpty (w : collectWorld) : bool * option error :=
  match openStageErr w with
  | Some err => (false, Some err)
  | None =>
      match readdirnamesErr w with
      | Some EOF => (true, None)
      | err => (false, err)
      end
  end.

(** [os.WriteFile("database.json", bytes, 0644)] with the JSON of [db]: the
    event tells whether the call returned no error, and the file holds
    afterwards what [afterWrite] says. *)
Definition writeDatabase (db : database) (failure : option writeFailure) : M unit :=
  emit (WriteFile db (succeeded failure)) ;;;
  (fun s => setDisk (afterWrite db failure (disk s)) s).

Definition collect (fuel : nat) (flags : collectFlags) (w : collectWorld) : M unit :=
  let jira := match newJIRAClientErr w with
              | Some _ => None
              | None => Some (search w)
              end in
  (if stageNotExist w then
     match mkdirAllErr w with
     | Some err => fail (Errorf "failed creating staging directory: %s" [inr err])
     | None => ret tt
     end
   else ret tt) ;;;
  match IsEmpty w with
  | (_, Some err) =>
      fail (Errorf "failed checking if staging directory empty: %s" [inr err])
  | (empty, None) =>
      (if negb (skipArchive flags) then
         if empty then
           emit (ExpandArchive (archive flags)) ;;;
           match expandErr w with
           | Some err => fail (Errorf "failed expanding tarball: %s" [inr err])
           | None => ret tt
           end
         else ret tt
       else
         if empty
         then fail (Errorf "staging directory is empty, but --skip-archive was specified" [])
         else ret tt) ;;;
      setMem emptyDatabase ;;;
      wrap "failed processing attachments: %s"
           (fun s =>
              let '(db', r) := processAttachments (stageDir w) (mem s) in
              ({| mem := db'; disk := disk s; trace := trace s; clock := clock s |}, r)) ;;;
      wrap "failed processing issues: %s"
           (processIssues fuel (listByRepo w) (org flags) (repo flags) 1) ;;;
      wrap "failed processing tickets: %s"
           (processTickets fuel jira (jiraKey flags) 0) ;;;
      db <~ getMem ;;
      match marshalErr w with
      | Some err => fail (Errorf "failed marshalling database: %s" [inr err])
      | None =>
          (* err = os.WriteFile(...) is assigned and never read *)
          writeDatabase db (writeFileErr w) ;;;
          ret tt
      end
  end.

(** The machine a command starts on. *)
Definition boot (file : contents) : machine :=
  {| mem := emptyDatabase; disk := file; trace := []; clock := 0 |}.

(* ===================================================================== *)
(** * Part 6: [upload], in [main.go] and in the second copy of the file   *)
(* ===================================================================== *)

(** The answers of the outside to one transfer. *)
Record attempt : Type := {
  openErr : option error;          (* os.Open(path) *)
  postErr : option error;          (* the error of jira.Issue.PostAttachment *)
  postStatusCode : Z;              (* resp.StatusCode *)
  postStatus : string;             (* resp.Status *)
  uploadMarshalErr : option error; (* json.Marshal(db) *)
  uploadWriteErr : option writeFailure  (* os.WriteFile("database.json", ...) *)
}.

(** The answers of the outside to one run of [upload]; [attempts n] answers
    the [n]-th transfer of the run. *)
Record uploadWorld : Type := {
  uploadClientErr : option error;  (* newJIRAClient *)
  readFileErr : option error;      (* os.ReadFile("database.json") *)
  unmarshalErr : option error;     (* json.Unmarshal(bytes, db) *)
  attempts : nat -> attempt
}.

(** [db.Tickets[key].Uploaded = true]: a key the map does not hold reads as
    a nil pointer, and the assignment through it panics. *)
Definition markUploaded (key : string) : M unit :=
  fun s =>
    match Tickets (mem s) !! key with
    | None => (s, Panic NilPointerDereference)
    | Some t =>
        setMem {| Attachments := Attachments (mem s);
                  Issues := Issues (mem s);
                  Tickets := <[key := {| ticket_Key := ticket_Key t;
                                         ticket_Uploaded := true |}]> (Tickets (mem s)) |} s
    end.

Section Upload.

(** The key of the mark-as-uploaded step, the one place where the two copies
    of [upload] differ. *)
Variable markKey : string -> ticket -> string.

Variable w : uploadWorld.

(** The body of [if attachment.IssueNumber == issue.Number]. *)
Definition transfer (title : string) (t : ticket) (a : attachment) : M unit :=
  n <~ tick ;;
  let answer := attempts w n in
  name <~ (fun s => (s, indexLast (Split (attachment_Path a) "/"))) ;;
  match openErr answer with
  | Some err => fail (Errorf "failed opening attachment: %s" [inr err])
  | None =>
      match postErr answer with
      | Some err =>
          emit (PostAttachment title (ticket_Key t) name false) ;;;
          fail (Errorf "failed uploading attachment: %s" [inr err])
      | None =>
          if negb (postStatusCode answer =? 200) then
            emit (PostAttachment title (ticket_Key t) name false) ;;;
            fail (Errorf "failed uploading attachment: %s" [inl (postStatus answer)])
          else
            emit (PostAttachment title (ticket_Key t) name true) ;;;
            markUploaded (markKey title t) ;;;
            db <~ getMem ;;
            match uploadMarshalErr answer with
            | Some err => fail (Errorf "failed marshalling database: %s" [inr err])
            | None =>
                writeDatabase db (uploadWriteErr answer) ;;;
                match uploadWriteErr answer with
                | Some failure =>
                    fail (Errorf "failed writing database: %s" [inr (write_err failure)])
                | None => ret tt
                end
            end
      end
  end.

(** [for _, attachment := range db.Attachments]. *)
Fixpoint uploadAttachments (title : string) (t : ticket) (i : issue)
    (attachments : list attachment) : M unit :=
  match attachments with
  | [] => ret tt
  | a :: rest =>
      (if attachment_IssueNumber a =? issue_Number i
       then transfer title t a else ret tt) ;;;
      uploadAttachments title t i rest
  end.

(** The body of [for title, ticket := range db.Tickets]: [ticket] is the
    pointer the map holds under [title], so its fields are read in memory as
    they are at the visit. *)
Definition uploadTicket (title : string) : M unit :=
  fun s =>
    match Tickets (mem s) !! title with
    | None => (s, Ok tt)
    | Some t =>
        if ticket_Uploaded t then (s, Ok tt)
        else
          match Issues (mem s) !! title with
          | None => (s, Ok tt)
          | Some i => uploadAttachments title t i (Attachments (mem s)) s
          end
    end.

(** [for title, ticket := range db.Tickets], the keys in the order [order]
    in which the runtime yields them. *)
Fixpoint uploadTickets (order : list string) : M unit :=
  match order with
  | [] => ret tt
  | title :: rest => uploadTicket title ;;; uploadTickets rest
  end.

(** [upload(flags)]. *)
Definition uploadWith (order : list string) : M unit :=
  fun s =>
    match uploadClientErr w with
    | Some _ => (s, Panic LogPanicf)
    | None =>
        match readFileErr w, disk s with
        | Some err, _ => (s, Fail (Errorf "failed reading database: %s" [inr err]))
        | None, Absent =>
            (s, Fail (Errorf "failed reading database: %s"
                             [inr (External "open database.json: no such file or directory")]))
        | None, Torn =>
            (s, Fail (Errorf "failed unmarshalling database: %s"
                             [inr (External "unexpected end of JSON input")]))
        | None, Holds file =>
            match unmarshalErr w with
            | Some err => (s, Fail (Errorf "failed unmarshalling database: %s" [inr err]))
            | None => (setMem file ;;; uploadTickets order) s
            end
        end
    end.

End Upload.

(** The key of the mark in [main.go]: [db.Tickets[title]]. *)
Definition byTitle (title : string) (t : ticket) : string := title.

(** The key of the mark in the second copy of the file:
    [db.Tickets[ticket.Key]]. *)
Definition byKey (title : string) (t : ticket) : string := ticket_Key t.

(** [upload] as [main.go] has it: [db.Tickets[title].Uploaded = true]. *)
Definition upload : uploadWorld -> list string -> M unit :=
  uploadWith byTitle.

(** [upload] as the second copy of the file has it:
    [db.Tickets[ticket.Key].Uploaded = true]. *)
Definition upload_part_001 : uploadWorld -> list string -> M unit :=
  uploadWith byKey.

(** Runs of [upload] one after the other on the same [database.json], each
    with its own answers of the outside and its own iteration order; the
    events of all runs, in order. *)
Fixpoint reruns (runs : list (uploadWorld * list string)) (file : contents)
  : contents * list event :=
  match runs with
  | [] => (file, [])
  | (w, order) :: rest =>
      let s := fst (upload w order (boot file)) in
      let '(file', events) := reruns rest (disk s) in
      (file', trace s ++ events)
  end.

(* ===================================================================== *)
(** * Part 7: notions the properties are stated with                      *)
(* ===================================================================== *)

(** The byte [c] occurs in [s]. *)
Fixpoint contains (c : ascii) (s : string) : bool :=
  match s with
  | EmptyString => false
  | String x s' => Ascii.eqb x c || contains c s'
  end.


(** No "/" in [s]: [s] is one segment of a path. *)
Definition segment (s : string) : Prop := contains "/" s = false.

(** The events that expand the archive. *)
Definition isExpand (ev : event) : bool :=
  match ev with
  | ExpandArchive _ => true
  | _ => false
  end.

(** [m] adds events to the trace, all of them in [P], and takes none away. *)
Definition emitsOnly {A : Type} (P : event -> Prop) (m : M A) : Prop :=
  forall s, exists evs, trace (m s).1 = trace s ++ evs /\ Forall P evs.

(** ** The scenario of the specification: one record, one issue, one ticket *)

Definition sampleRecord : rawAttachment :=
  {| Issue := "https://github.com/o/r/issues/42";
     IssueComment := EmptyString;
     AssetURL := "https://host/a/b/file.png" |}.

Definition sampleStage : error + list dirEntry :=
  inr [ {| entry_Name := "attachments_000001.json";
           entry_read := Decoded [sampleRecord] |} ].

Definition sampleGitHub (page : Z) : ghPage :=
  {| gh_issues := [ {| gh_Title := "Bug X";
                       gh_HTMLURL := "https://github.com/o/r/issues/42";
                       gh_Number := 42 |} ];
     gh_resp := Some {| gh_StatusCode := 200; gh_NextPage := 0; gh_LastPage := 1 |};
     gh_err := None |}.

Definition sampleJIRA (startAt : Z) : jiraPage :=
  {| jira_issues := [ {| jira_Key := "PROJ-7"; jira_Summary := "Bug X" |} ];
     jira_resp := Some {| jira_StatusCode := 200; jira_StartAt := 0;
                          jira_MaxResults := 1000; jira_Total := 1 |};
     jira_err := None |}.

(** A world in which every call succeeds; the staging directory holds the
    expanded archive already. *)
Definition sampleWorld : collectWorld :=
  {| newJIRAClientErr := None;
     stageNotExist := false;
     mkdirAllErr := None;
     openStageErr := None;
     readdirnamesErr := None;
     expandErr := None;
     stageDir := sampleStage;
     listByRepo := sampleGitHub;
     search := sampleJIRA;
     marshalErr := None;
     writeFileErr := None |}.

Definition sampleFlags (skip : bool) : collectFlags :=
  {| archive := "export.tar.gz"; skipArchive := skip;
     org := "o"; repo := "r"; jiraKey := "PROJ" |}.

(** The index [collect] builds in that world. *)
Definition sampleIndex : database :=
  {| Attachments := [ {| attachment_Type := "issue";
                         attachment_URL := "https://github.com/o/r/issues/42";
                         attachment_IssueNumber := 42;
                         attachment_CommentNumber := 0;
                         attachment_Path := "a/b/file.png" |} ];
     Issues := {[ "Bug X" := {| issue_URL := "https://github.com/o/r/issues/42";
                                issue_Number := 42 |} ]};
     Tickets := {[ "Bug X" := {| ticket_Key := "PROJ-7"; ticket_Uploaded := false |} ]} |}.

(** The same world with the given result of the last [os.WriteFile]. *)
Definition withWriteFileErr (w : collectWorld) (err : option writeFailure) : collectWorld :=
  {| newJIRAClientErr := newJIRAClientErr w;
     stageNotExist := stageNotExist w;
     mkdirAllErr := mkdirAllErr w;
     openStageErr := openStageErr w;
     readdirnamesErr := readdirnamesErr w;
     expandErr := expandErr w;
     stageDir := stageDir w;
     listByRepo := listByRepo w;
     search := search w;
     marshalErr := marshalErr w;
     writeFileErr := err |}.

(** The same world with an empty staging directory. *)
Definition withEmptyStage (w : collectWorld) : collectWorld :=
  {| newJIRAClientErr := newJIRAClientErr w;
     stageNotExist := stageNotExist w;
     mkdirAllErr := mkdirAllErr w;
     openStageErr := openStageErr w;
     readdirnamesErr := Some EOF;
     expandErr := expandErr w;
     stageDir := stageDir w;
     listByRepo := listByRepo w;
     search := search w;
     marshalErr := marshalErr w;
     writeFileErr := writeFileErr w |}.

Definition notExpand (ev : event) : Prop := isExpand ev = false.

(** ** Notions about the index during an upload *)

(** The ticket under [title] is in the index and not marked uploaded. *)
Definition pending (db : database) (title : string) : Prop :=
  exists t, Tickets db !! title = Some t /\ ticket_Uploaded t = false.

(** The ticket under [title] is in the index and marked uploaded. *)
Definition uploaded (db : database) (title : string) : Prop :=
  exists t, Tickets db !! title = Some t /\ ticket_Uploaded t = true.

(** An issue has the title, and an attachment has the number of that issue. *)
Definition matched (db : database) (title : string) : Prop :=
  exists i a,
    Issues db !! title = Some i /\ a ∈ Attachments db /\
    attachment_IssueNumber a = issue_Number i.

(** No issue has the title, or no attachment has the number of that issue. *)
Definition unmatched (db : database) (title : string) : Prop :=
  match Issues db !! title with
  | None => True
  | Some i => Forall (fun a => attachment_IssueNumber a <> issue_Number i) (Attachments db)
  end.

(** Among the events is a successful transfer to the ticket under [title]. *)
Definition transferred (title : string) (events : list event) : Prop :=
  exists key name, PostAttachment title key name true ∈ events.

(** [db'] is [db] with, possibly, more tickets marked uploaded: the same
    attachments and issues, the same tickets with the same keys. *)
Definition marksMore (db db' : database) : Prop :=
  Attachments db' = Attachments db /\
  Issues db' = Issues db /\
  forall title,
    match Tickets db !! title, Tickets db' !! title with
    | Some t, Some t' =>
        ticket_Key t' = ticket_Key t /\
        (ticket_Uploaded t = true -> ticket_Uploaded t' = true)
    | None, None => True
    | _, _ => False
    end.

(** Among the events is a successful transfer to the ticket under [title]
    with, right after it, a successful write of [database.json]. *)
Definition recorded (title : string) (events : list event) : Prop :=
  exists key name db before after,
    events = before ++ PostAttachment title key name true :: WriteFile db true :: after.


(** What holds of [database.json] all through a run of [upload] that started
    on the index [file]: the file is there; it is torn only after a failed
    write; and an index it holds is [file] with more marks, each of a ticket
    that had a successful transfer, and has the mark of every ticket whose
    transfer was followed by a successful write. *)
Definition diskInv (file : database) (d : contents) (tr : list event) : Prop :=
  match d with
  | Absent => False
  | Torn => exists db, WriteFile db false ∈ tr
  | Holds d' =>
      marksMore file d' /\
      (forall title t, Tickets d' !! title = Some t -> ticket_Uploaded t = true ->
                       uploaded file title \/ transferred title tr) /\
      (forall title, recorded title tr -> uploaded d' title)
  end.

(** What holds of the index in memory [m], of the file [d] and of the events
    [tr] all through a run of [upload] that started on the index [file]. *)
Definition runInv (file m : database) (d : contents) (tr : list event) : Prop :=
  marksMore file m /\
  diskInv file d tr /\
  (forall title key name ok,
     PostAttachment title key name ok ∈ tr -> pending file title /\ matched file title) /\
  (forall title t, Tickets m !! title = Some t ->
     (ticket_Uploaded t = true <-> uploaded file title \/ transferred title tr)).

Definition stateInv (file : database) (s : machine) : Prop :=
  runInv file (mem s) (disk s) (trace s).

(** [db] with the ticket under [title] marked uploaded. *)
Definition mark (title : string) (t : ticket) (db : database) : database :=
  {| Attachments := Attachments db;
     Issues := Issues db;
     Tickets := <[title := {| ticket_Key := ticket_Key t;
                              ticket_Uploaded := true |}]> (Tickets db) |}.

(** ** Worlds and indexes for [upload] *)

(** The write breaks off: the disk is full. *)
Definition diskFull : writeFailure :=
  {| write_err := External "write database.json: no space left on device";
     write_leaves := Partial |}.

Definition okAttempt : attempt :=
  {| openErr := None; postErr := None;
     postStatusCode := 200; postStatus := "200 OK";
     uploadMarshalErr := None; uploadWriteErr := None |}.

Definition openFails : attempt :=
  {| openErr := Some (External "open stage/a/c/other.png: no such file or directory");
     postErr := None; postStatusCode := 200; postStatus := "200 OK";
     uploadMarshalErr := None; uploadWriteErr := None |}.

(** Every transfer succeeds. *)
Definition calmWorld : uploadWorld :=
  {| uploadClientErr := None; readFileErr := None; unmarshalErr := None;
     attempts := fun _ => okAttempt |}.

(** The first transfer succeeds, the file of the second cannot be opened. *)
Definition secondOpenFails : uploadWorld :=
  {| uploadClientErr := None; readFileErr := None; unmarshalErr := None;
     attempts := fun n => match n with O => okAttempt | _ => openFails end |}.


(** [sampleIndex] after the upload. *)
Definition sampleUploaded : database :=
  mark "Bug X" {| ticket_Key := "PROJ-7"; ticket_Uploaded := false |} sampleIndex.

(** The index of the scenario with a second ticket, uploaded before, whose
    issue has an attachment too. *)
Definition twoTickets : database :=
  {| Attachments := Attachments sampleIndex ++
                    [ {| attachment_Type := "issue";
                         attachment_URL := "https://github.com/o/r/issues/43";
                         attachment_IssueNumber := 43;
                         attachment_CommentNumber := 0;
                         attachment_Path := "a/d/done.png" |} ];
     Issues := <["Bug Y" := {| issue_URL := "https://github.com/o/r/issues/43";
                               issue_Number := 43 |}]> (Issues sampleIndex);
     Tickets := <["Bug Y" := {| ticket_Key := "PROJ-8"; ticket_Uploaded := true |}]>
                  (Tickets sampleIndex) |}.

(* ===================================================================== *)
(** * Part 7b: notions for the properties of the rest of the code         *)
(* ===================================================================== *)

(** ** The export parser *)

(** The attachment a record gives: none for a record without a key, and
    none for a record the parser stops at. *)
Definition parsed (r : rawAttachment) : option attachment :=
  match processRecord r with
  | Ok entry => entry
  | _ => None
  end.

(** The records of the files of a directory the parser reads, in order:
    those of the considered files that could be read and decoded. *)
Definition recordsOf (entries : list dirEntry) : list rawAttachment :=
  flat_map (fun entry =>
              if considered entry then
                match entry_read entry with
                | Decoded records => records
                | _ => []
                end
              else []) entries.

Definition isInt64 (n : Z) : Prop := - 2 ^ 63 <= n < 2 ^ 63.

(** What every attachment the parser makes looks like: one of the two
    kinds, the URL of the field it was read from, numbers that fit their Go
    types, and no comment number on an attachment of an issue. *)
Definition wellFormed (a : attachment) : Prop :=
  attachment_URL a <> EmptyString /\
  isInt64 (attachment_IssueNumber a) /\
  isInt64 (attachment_CommentNumber a) /\
  (attachment_Type a = "issue" /\ attachment_CommentNumber a = 0 \/
   attachment_Type a = "issue_comment").

(** The database after the parse of the scenario. *)
Definition sampleIndexAttachmentsOnly : database :=
  {| Attachments := Attachments sampleIndex; Issues := ∅; Tickets := ∅ |}.

(** Records and files for the examples of the parser: a record of issue
    43, a record of comment 99 of issue 17 whose marker does not follow "#"
    at once, a record whose issue number is no integer, a file of the
    staging directory the parser passes over, and files that hold the record
    of the scenario, one of the records above and the record that cannot be
    parsed. *)
Definition otherRecord : rawAttachment :=
  {| Issue := "https://github.com/o/r/issues/43";
     IssueComment := EmptyString;
     AssetURL := "https://host/a/c/other.png" |}.


Definition badRecord : rawAttachment :=
  {| Issue := "https://github.com/o/r/issues/x1";
     IssueComment := EmptyString;
     AssetURL := "https://host/a/b/file.png" |}.

Definition schemaFile : dirEntry :=
  {| entry_Name := "schema.json";
     entry_read := ReadFails (External "read stage/schema.json: is a directory") |}.

Definition fileOf (records : list rawAttachment) : dirEntry :=
  {| entry_Name := "attachments_000001.json"; entry_read := Decoded records |}.

(** ** The listers and [collect] *)

(** [m] keeps the property [P] of the database in memory. *)
Definition keepsMem {A : Type} (P : database -> Prop) (m : M A) : Prop :=
  forall s, P (mem s) -> P (mem (m s).1).

(** [m] leaves [database.json] alone. *)
Definition keepsDisk {A : Type} (m : M A) : Prop :=
  forall s, disk (m s).1 = disk s.

(** The entry [db.Issues] gets for an issue of a page. *)
Definition issueEntry (i : ghIssue) : issue :=
  {| issue_URL := gh_HTMLURL i; issue_Number := gh_Number i |}.

(** The entry [db.Tickets] gets for a ticket of a page. *)
Definition ticketEntry (i : jiraIssue) : ticket :=
  {| ticket_Key := jira_Key i; ticket_Uploaded := false |}.

(** Every ticket of the index is pending. *)
Definition allPending (db : database) : Prop :=
  forall title t, Tickets db !! title = Some t -> ticket_Uploaded t = false.

(** The events that write [database.json]. *)
Definition isWrite (ev : event) : bool :=
  match ev with
  | WriteFile _ _ => true
  | _ => false
  end.

(** The events that are calls to GitHub or to JIRA. *)
Definition isRemote (ev : event) : bool :=
  match ev with
  | ListByRepo _ _ _ | Search _ _ | PostAttachment _ _ _ _ => true
  | ExpandArchive _ | WriteFile _ _ => false
  end.

(** The page numbers [first], [first + 1], ... of [n] pages. *)
Definition pageNumbers (first : Z) (n : nat) : list Z :=
  (fun k : nat => first + Z.of_nat k) <$> seq 0 n.

(** The offsets [first], [first + size], ... of [n] pages of [size] tickets. *)
Definition pageOffsets (first size : Z) (n : nat) : list Z :=
  (fun k : nat => first + Z.of_nat k * size) <$> seq 0 n.

(** A GitHub that serves the pages [pages], numbered from [first] on, each
    with the number of the next page and the last one with none. *)
Definition servesPages (client : Z -> ghPage) (first : Z) (pages : list (list ghIssue))
  : Prop :=
  forall (k : nat) issues,
    pages !! k = Some issues ->
    gh_issues (client (first + Z.of_nat k)) = issues /\
    gh_err (client (first + Z.of_nat k)) = None /\
    exists resp,
      gh_resp (client (first + Z.of_nat k)) = Some resp /\
      gh_NextPage resp = if decide (S k = length pages) then 0
                         else first + Z.of_nat k + 1.

(** A JIRA that serves the pages [pages] of [size] tickets each, from the
    offset [first] on, out of [total] tickets. *)
Definition servesTickets (search : Z -> jiraPage) (first size total : Z)
    (pages : list (list jiraIssue)) : Prop :=
  forall (k : nat) issues,
    pages !! k = Some issues ->
    jira_issues (search (first + Z.of_nat k * size)) = issues /\
    jira_err (search (first + Z.of_nat k * size)) = None /\
    exists resp,
      jira_resp (search (first + Z.of_nat k * size)) = Some resp /\
      jira_StartAt resp = first + Z.of_nat k * size /\
      jira_MaxResults resp = size /\
      jira_Total resp = total.

Definition notWrite (ev : event) : Prop := isWrite ev = false.

Definition notRemote (ev : event) : Prop := isRemote ev = false.

(** [m] writes [database.json] at most once, as the last thing it does and
    only when it returns nil; [failure] is how that write fails, if it does:
    the file holds afterwards what [afterWrite] says of the database in
    memory. *)
Definition writesAtEnd (failure : option writeFailure) (m : M unit) : Prop :=
  forall s,
    exists evs,
      Forall notWrite evs /\
      (((m s).2 <> Ok tt /\ trace (m s).1 = trace s ++ evs /\ disk (m s).1 = disk s) \/
       ((m s).2 = Ok tt /\
        trace (m s).1 = trace s ++ evs ++ [WriteFile (mem (m s).1) (succeeded failure)] /\
        disk (m s).1 = afterWrite (mem (m s).1) failure (disk s))).

(** When [m] starts on a database with [P] and returns nil, the database
    has [Q]. *)
Definition fromMem {A : Type} (P Q : database -> Prop) (m : M A) : Prop :=
  forall s s' a, P (mem s) -> m s = (s', Ok a) -> Q (mem s').

(** The same world with a JIRA client that could not be made. *)
Definition withoutJIRAClient (w : collectWorld) (err : error) : collectWorld :=
  {| newJIRAClientErr := Some err;
     stageNotExist := stageNotExist w;
     mkdirAllErr := mkdirAllErr w;
     openStageErr := openStageErr w;
     readdirnamesErr := readdirnamesErr w;
     expandErr := expandErr w;
     stageDir := stageDir w;
     listByRepo := listByRepo w;
     search := search w;
     marshalErr := marshalErr w;
     writeFileErr := writeFileErr w |}.

(** The same world with the given staging directory. *)
Definition withStageDir (w : collectWorld) (stage : error + list dirEntry) : collectWorld :=
  {| newJIRAClientErr := newJIRAClientErr w;
     stageNotExist := stageNotExist w;
     mkdirAllErr := mkdirAllErr w;
     openStageErr := openStageErr w;
     readdirnamesErr := readdirnamesErr w;
     expandErr := expandErr w;
     stageDir := stage;
     listByRepo := listByRepo w;
     search := search w;
     marshalErr := marshalErr w;
     writeFileErr := writeFileErr w |}.

(** ** [upload] *)

(** [name := nameTokens[len(nameTokens)-1]]: the file name a transfer gives
    the attachment. *)
Definition nameOf (a : attachment) : string :=
  match indexLast (Split (attachment_Path a) "/") with
  | Ok name => name
  | _ => EmptyString
  end.

(** The successful transfers among the events: the title visited, the key
    of the ticket and the file name. *)
Definition transfers (events : list event) : list (string * string * string) :=
  omap (fun ev => match ev with
                  | PostAttachment title key name true => Some (title, key, name)
                  | _ => None
                  end) events.

Definition isTransfer (ev : event) : bool :=
  match ev with
  | PostAttachment _ _ _ _ => true
  | _ => false
  end.

(** An outside in which nothing fails during a run of [upload]. *)
Definition calm (w : uploadWorld) : Prop :=
  uploadClientErr w = None /\ readFileErr w = None /\ unmarshalErr w = None /\
  forall n,
    openErr (attempts w n) = None /\ postErr (attempts w n) = None /\
    postStatusCode (attempts w n) = 200 /\
    uploadMarshalErr (attempts w n) = None /\ uploadWriteErr (attempts w n) = None.

(** The attachments of the issue [i]. *)
Definition attachmentsOf (i : issue) (attachments : list attachment) : list attachment :=
  List.filter (fun a => attachment_IssueNumber a =? issue_Number i) attachments.

(** The transfers the index asks for the ticket under [title]: the
    attachments of the issue of that title, if the ticket is pending. *)
Definition expectedTransfers (file : database) (title : string)
  : list (string * string * string) :=
  match Tickets file !! title, Issues file !! title with
  | Some t, Some i =>
      if ticket_Uploaded t then []
      else (fun a => (title, ticket_Key t, nameOf a)) <$> attachmentsOf i (Attachments file)
  | _, _ => []
  end.

(** An event [upload] may make on the index [file]: a transfer for a ticket
    of the index, to its key, of an attachment of the issue of its title,
    under the last segment of its path; or a write of [database.json]. *)
Definition soundEvent (file : database) (ev : event) : Prop :=
  match ev with
  | PostAttachment title key name _ =>
      exists t i a,
        Tickets file !! title = Some t /\ key = ticket_Key t /\
        Issues file !! title = Some i /\ a ∈ Attachments file /\
        attachment_IssueNumber a = issue_Number i /\ name = nameOf a
  | WriteFile _ _ => True
  | _ => False
  end.

(** The events of the transfer of the attachment [a] to the ticket [t]
    visited under [title]. *)
Definition transferEvent (title : string) (t : ticket) (a : attachment) (ev : event) : Prop :=
  match ev with
  | PostAttachment title' key name _ =>
      title' = title /\ key = ticket_Key t /\ name = nameOf a
  | WriteFile _ _ => True
  | _ => False
  end.

(** No key of a ticket of the index is a title of the index. *)
Definition keysAreNoTitles (file : database) : Prop :=
  forall title t, Tickets file !! title = Some t -> Tickets file !! ticket_Key t = None.

(** Events in which every successful transfer is followed at once by a
    successful write of [database.json], of an index that marks the ticket
    of the transfer, and in which there is nothing else. *)
Inductive paired : list event -> Prop :=
| paired_nil : paired []
| paired_cons (title key name : string) (db : database) (rest : list event) :
    uploaded db title -> paired rest ->
    paired (PostAttachment title key name true :: WriteFile db true :: rest).

(** The events a run of [upload] can break off with: none; a failed
    transfer; a successful transfer that no write follows; a successful
    transfer and the failed write of an index that marks its ticket. *)
Definition brokenOff (events : list event) : Prop :=
  events = [] \/
  (exists title key name, events = [PostAttachment title key name false]) \/
  (exists title key name, events = [PostAttachment title key name true]) \/
  (exists title key name db,
     events = [PostAttachment title key name true; WriteFile db false] /\
     uploaded db title).

(** [m] writes the index right after each successful transfer: the events
    it adds are [paired] ones and then, only when it does not return nil,
    the events it breaks off with. *)
Definition writesEach (m : M unit) : Prop :=
  forall s,
    exists done rest,
      trace (m s).1 = trace s ++ done ++ rest /\
      paired done /\ brokenOff rest /\
      ((m s).2 = Ok tt -> rest = []).

(** How a step of the second copy of [upload] ends on an index none of
    whose ticket keys is a title: nothing was done; or an error, with no
    successful transfer; or a panic.  The index in memory and the file are
    as before. *)
Definition variantStep (s s' : machine) (r : run unit) : Prop :=
  mem s' = mem s /\ disk s' = disk s /\
  ((r = Ok tt /\ trace s' = trace s) \/
   (exists e evs, r = Fail e /\ trace s' = trace s ++ evs /\ transfers evs = []) \/
   (r = Panic NilPointerDereference /\ exists evs, trace s' = trace s ++ evs)).

(** ** [archive] and [compress] *)

Module GoFmt.

(** The byte of the decimal digit [d]. *)
Definition digitChar (d : Z) : ascii := ascii_of_nat (48 + Z.to_nat d).

(** The digit loop of [fmt]'s [fmtInteger] in base 10: the digits of [u]
    are written from the last one back, in front of [acc].  [fuel] bounds
    the number of digits (20 are enough for 64 bits). *)
Fixpoint fmtDigits (fuel : nat) (u : Z) (acc : string) : string :=
  match fuel with
  | O => acc
  | S fuel' =>
      if u <? 10 then String (digitChar u) acc
      else fmtDigits fuel' (u / 10) (String (digitChar (u mod 10)) acc)
  end.

(** The verb [%d] of [fmt.Sprintf] on an [int] or an [int64]. *)
Definition formatInt (n : Z) : string :=
  if n <? 0 then String "-" (fmtDigits 20 (- n) EmptyString)
  else fmtDigits 20 n EmptyString.

End GoFmt.

Import GoFmt.

(** The loop of [strings.Replace(s, old, new, -1)] for a non-empty [old]:
    every occurrence of [old], found from the left and not overlapping the
    one before, is replaced by [new]. *)
Fixpoint replaceAll (old new : string) (skip : nat) (s : string) : string :=
  match s with
  | EmptyString => EmptyString
  | String c s' =>
      match skip with
      | S k => replaceAll old new k s'
      | O =>
          if HasPrefix s old
          then new +:+ replaceAll old new (String.length old - 1) s'
          else String c (replaceAll old new 0 s')
      end
  end.

(** [strings.Replace(s, old, new, -1)], for a non-empty [old]. *)
Definition Replace (s old new : string) : string :=
  if String.eqb old new then s else replaceAll old new 0 s.

(** [strings.TrimPrefix(s, prefix)]. *)
Definition TrimPrefix (s prefix : string) : string :=
  if HasPrefix s prefix
  then String.substring (String.length prefix) (String.length s - String.length prefix) s
  else s.

(** The name [compress] gives a walked file in the tarball:
    [strings.TrimPrefix(strings.Replace(file, src, "", -1), "/")]. *)
Definition tarName (src file : string) : string :=
  TrimPrefix (Replace file src EmptyString) "/".

(** [old] occurs in [s]. *)
Fixpoint occurs (old s : string) : bool :=
  match s with
  | EmptyString => false
  | String c s' => HasPrefix s old || occurs old s'
  end.

(** The name [archive] gives the copy of an attachment:
    [fmt.Sprintf("%d_%s", IssueNumber, name)] for an attachment of an issue,
    [fmt.Sprintf("%d_%d_%s", IssueNumber, CommentNumber, name)] otherwise. *)
Definition archiveName (a : attachment) : string :=
  if String.eqb (attachment_Type a) "issue"
  then formatInt (attachment_IssueNumber a) +:+ "_" +:+ nameOf a
  else formatInt (attachment_IssueNumber a) +:+ "_" +:+
       formatInt (attachment_CommentNumber a) +:+ "_" +:+ nameOf a.

(** The answers of the outside to one call of [copy]. *)
Record copyAnswer : Type := {
  copyStatErr : option error;     (* os.Stat(src) *)
  copyRegular : bool;             (* sourceFileStat.Mode().IsRegular() *)
  copyOpenErr : option error;     (* os.Open(src) *)
  copyCreateErr : option error;   (* os.Create(dst) *)
  copyIOErr : option error        (* io.Copy(destination, source) *)
}.

(** A file of the directory [archive]: the path, under [stage], of the
    attachment it was copied from, and whether the copy went to its end. *)
Record archived : Type := {
  archived_from : string;
  archived_whole : bool
}.

(** [copy(src, dst)], for a [dst] in the directory [archive]: [name] is the
    name of [dst] in that directory, [from] the path of the attachment and
    [src] the path [filepath.Join("stage", from)].  [os.Create] makes or
    empties the file before anything is copied. *)
Definition copy (answer : copyAnswer) (src from name : string)
    (dir : gmap string archived) : gmap string archived * run unit :=
  match copyStatErr answer with
  | Some err => (dir, Fail (Errorf "failed getting file stats: %s" [inr err]))
  | None =>
      if negb (copyRegular answer)
      then (dir, Fail (Errorf "%s is not a regular file" [inl src]))
      else
        match copyOpenErr answer with
        | Some err => (dir, Fail (Errorf "failed opening source file: %s" [inr err]))
        | None =>
            match copyCreateErr answer with
            | Some err =>
                (dir, Fail (Errorf "failed creating destination file: %s" [inr err]))
            | None =>
                match copyIOErr answer with
                | Some err =>
                    (<[name := {| archived_from := from; archived_whole := false |}]> dir,
                     Fail (Errorf "failed copying file: %s" [inr err]))
                | None =>
                    (<[name := {| archived_from := from; archived_whole := true |}]> dir,
                     Ok tt)
                end
            end
        end
  end.

(** The answers of the outside to [archive]. *)
Record archiveWorld : Type := {
  archiveMkdirErr : option error;      (* os.Mkdir("archive", 0755) *)
  archiveRemoveAllErr : option error;  (* os.RemoveAll("archive") *)
  archiveReadErr : option error;       (* os.ReadFile("database.json") *)
  archiveUnmarshalErr : option error;  (* json.Unmarshal(bytes, db) *)
  copies : nat -> copyAnswer;          (* the n-th call of copy *)
  archiveCreateErr : option error;     (* os.Create("processed_archive.tgz") *)
  compressErr : option error           (* compress("archive", file) *)
}.

(** [archive] is also the name of a flag of [collect]; the function lives
    in a module of its own. *)
Module Archiving.

Section Archive.

(** [filepath.Join] of the standard library, not modelled. *)
Variable Join : string -> string -> string.

Variable w : archiveWorld.

(** The loop [for _, attachment := range db.Attachments] of [archive]; [n]
    counts the calls of [copy]. *)
Fixpoint copyAttachments (attachments : list attachment) (n : nat)
    (dir : gmap string archived) : gmap string archived * run unit :=
  match attachments with
  | [] => (dir, Ok tt)
  | a :: rest =>
      let format := if String.eqb (attachment_Type a) "issue"
                    then "failed copying issue attachment: %s"
                    else "failed copying issue comment attachment: %s" in
      match copy (copies w n) (Join "stage" (attachment_Path a)) (attachment_Path a)
                 (archiveName a) dir with
      | (dir', Ok _) => copyAttachments rest (S n) dir'
      | (dir', Fail err) => (dir', Fail (Errorf format [inr err]))
      | failed => failed
      end
  end.

(** [archive()], up to the tarball: [dir] is the directory [archive]
    ([None] when there is none), [file] the index in [database.json].  A
    failed [os.RemoveAll] is taken to leave the directory as it was. *)
Definition archive (dir : option (gmap string archived)) (file : option database)
  : option (gmap string archived) * run unit :=
  let made :=
    match dir with
    | None =>
        match archiveMkdirErr w with
        | Some err => (dir, Fail (Errorf "failed creating archive directory: %s" [inr err]))
        | None => (Some ∅, Ok tt)
        end
    | Some _ =>
        match archiveRemoveAllErr w with
        | Some err => (dir, Fail (Errorf "failed deleting archive directory: %s" [inr err]))
        | None =>
            match archiveMkdirErr w with
            | Some err => (None, Fail (Errorf "failed creating archive directory: %s" [inr err]))
            | None => (Some ∅, Ok tt)
            end
        end
    end in
  match made with
  | (Some empty, Ok _) =>
      match archiveReadErr w, file with
      | Some err, _ => (Some empty, Fail (Errorf "failed reading database: %s" [inr err]))
      | None, None =>
          (Some empty,
           Fail (Errorf "failed reading database: %s"
                   [inr (External "open database.json: no such file or directory")]))
      | None, Some db =>
          match archiveUnmarshalErr w with
          | Some err =>
              (Some empty, Fail (Errorf "failed unmarshalling database: %s" [inr err]))
          | None =>
              match copyAttachments (Attachments db) 0 empty with
              | (dir', Ok _) =>
                  match archiveCreateErr w with
                  | Some err => (Some dir', Fail (Errorf "failed opening archive: %s" [inr err]))
                  | None =>
                      match compressErr w with
                      | Some err =>
                          (Some dir', Fail (Errorf "failed compressing archive: %s" [inr err]))
                      | None => (Some dir', Ok tt)
                      end
                  end
              | (dir', failed) => (Some dir', failed)
              end
          end
      end
  | (dir', failed) => (dir', failed)
  end.

End Archive.

End Archiving.

(** [filepath.Join] on paths that need no cleaning. *)
Definition joinPlain (dir name : string) : string := dir +:+ "/" +:+ name.

(** An outside in which nothing fails during [archive]. *)
Definition stillWorld : archiveWorld :=
  {| archiveMkdirErr := None; archiveRemoveAllErr := None;
     archiveReadErr := None; archiveUnmarshalErr := None;
     copies := fun _ => {| copyStatErr := None; copyRegular := true;
                           copyOpenErr := None; copyCreateErr := None;
                           copyIOErr := None |};
     archiveCreateErr := None; compressErr := None |}.

(** Attachments for the examples of [archive]: two of issue 42 with one file
    name, one of the same issue whose file name starts like the name of a
    copy of a comment's attachment, and one of comment 7 of that issue. *)
Definition issueShot : attachment :=
  {| attachment_Type := "issue";
     attachment_URL := "https://github.com/o/r/issues/42";
     attachment_IssueNumber := 42;
     attachment_CommentNumber := 0;
     attachment_Path := "a/b/shot.png" |}.

Definition issueShotAgain : attachment :=
  {| attachment_Type := "issue";
     attachment_URL := "https://github.com/o/r/issues/42";
     attachment_IssueNumber := 42;
     attachment_CommentNumber := 0;
     attachment_Path := "a/c/shot.png" |}.

Definition issueSevenShot : attachment :=
  {| attachment_Type := "issue";
     attachment_URL := "https://github.com/o/r/issues/42";
     attachment_IssueNumber := 42;
     attachment_CommentNumber := 0;
     attachment_Path := "a/d/7_shot.png" |}.

Definition commentShot : attachment :=
  {| attachment_Type := "issue_comment";
     attachment_URL := "https://github.com/o/r/issues/42#issuecomment-7";
     attachment_IssueNumber := 42;
     attachment_CommentNumber := 7;
     attachment_Path := "a/e/shot.png" |}.

(** The file a finished copy of [a] leaves in the directory [archive]. *)
Definition wholeCopy (a : attachment) : archived :=
  {| archived_from := attachment_Path a; archived_whole := true |}.

(** A directory [archive] of an earlier run. *)
Definition oldArchive : gmap string archived :=
  {[ "1_old.png" := {| archived_from := "x/y/old.png"; archived_whole := true |} ]}.

(** An index whose two attachments get one name in the directory. *)
Definition sameNameIndex : database :=
  {| Attachments := [issueShot; issueShotAgain]; Issues := ∅; Tickets := ∅ |}.

(** An outside in which [processed_archive.tgz] cannot be made. *)
Definition unwritableTarball : archiveWorld :=
  {| archiveMkdirErr := None; archiveRemoveAllErr := None;
     archiveReadErr := None; archiveUnmarshalErr := None;
     copies := copies stillWorld;
     archiveCreateErr := Some (External "open processed_archive.tgz: permission denied");
     compressErr := None |}.

(** The index in memory agrees with the file on what the visit of [title]
    reads. *)
Definition fresh (file : database) (title : string) (s : machine) : Prop :=
  Tickets (mem s) !! title = Tickets file !! title /\
  Attachments (mem s) = Attachments file /\
  Issues (mem s) = Issues file.

(** A ticket is settled: it is not in the index [file], or it is marked in
    [db], or it has nothing to transfer. *)
Definition settled (file db : database) (title : string) : Prop :=
  Tickets file !! title = None \/ uploaded db title \/ unmatched file title.

(* ===================================================================== *)
(** * Part 8: the library functions and the parser on concrete inputs     *)
(* ===================================================================== *)

Example Split_url :
  Split "https://host/a/b/file.png" "/" = ["https:"; EmptyString; "host"; "a"; "b"; "file.png"].
Proof. reflexivity. Qed.

Example Split_marker :
  Split "xissuecomment-99" "issuecomment-" = ["x"; "99"].
Proof. reflexivity. Qed.

Example ParseInt_42 : ParseInt "42" = inl 42.
Proof. reflexivity. Qed.

Example ParseInt_neg : ParseInt "-9223372036854775808" = inl (- 2 ^ 63).
Proof. reflexivity. Qed.

Example ParseInt_range : ParseInt "9223372036854775808" = inr ErrRange.
Proof. reflexivity. Qed.

Example ParseInt_syntax : ParseInt "4x2" = inr ErrSyntax.
Proof. reflexivity. Qed.

Example processRecord_issue :
  processRecord {| Issue := "https://github.com/o/r/issues/42";
                   IssueComment := EmptyString;
                   AssetURL := "https://host/a/b/file.png" |}
  = Ok (Some {| attachment_Type := "issue";
                attachment_URL := "https://github.com/o/r/issues/42";
                attachment_IssueNumber := 42;
                attachment_CommentNumber := 0;
                attachment_Path := "a/b/file.png" |}).
Proof. reflexivity. Qed.

Example processRecord_comment :
  processRecord {| Issue := EmptyString;
                   IssueComment := "https://github.com/o/r/issues/17#issuecomment-99";
                   AssetURL := "https://host/a/b/file.png" |}
  = Ok (Some {| attachment_Type := "issue_comment";
                attachment_URL := "https://github.com/o/r/issues/17#issuecomment-99";
                attachment_IssueNumber := 17;
                attachment_CommentNumber := 99;
                attachment_Path := "a/b/file.png" |}).
Proof. reflexivity. Qed.

Example processRecord_no_marker :
  processRecord {| Issue := EmptyString;
                   IssueComment := "https://github.com/o/r/issues/17#discussion_r5";
                   AssetURL := "https://host/a/b/file.png" |}
  = Panic IndexOutOfRange.
Proof. reflexivity. Qed.

(* ===================================================================== *)
(** * Part 9: facts about the library functions                           *)
(* ===================================================================== *)

Section StringFacts.

Lemma app_empty_l (s : string) : EmptyString +:+ s = s.
Proof. reflexivity. Qed.

Lemma app_String (c : ascii) (s t : string) : String c s +:+ t = String c (s +:+ t).
Proof. reflexivity. Qed.

Lemma app_empty_r (s : string) : s +:+ EmptyString = s.
Proof. induction s as [|c s IH]; [reflexivity|]. rewrite app_String. by rewrite IH. Qed.

Lemma app_assoc_s (a b c : string) : (a +:+ b) +:+ c = a +:+ (b +:+ c).
Proof.
  induction a as [|x a IH]; [reflexivity|].
  rewrite !app_String. by rewrite IH.
Qed.

Lemma length_app_s (a b : string) :
  String.length (a +:+ b) = (String.length a + String.length b)%nat.
Proof. induction a as [|x a IH]; [reflexivity|]. rewrite app_String. simpl. by rewrite IH. Qed.


Lemma HasPrefix_app (sep rest : string) : HasPrefix (sep +:+ rest) sep = true.
Proof.
  induction sep as [|c sep IH]; [reflexivity|].
  rewrite app_String. simpl. by rewrite Ascii.eqb_refl.
Qed.

(** A text whose first byte is not the first byte of the separator does not
    start with the separator. *)
Lemma HasPrefix_first (x c : ascii) (s sep : string) :
  Ascii.eqb x c = false -> HasPrefix (String x s) (String c sep) = false.
Proof. intros H. simpl. by rewrite H. Qed.

Lemma genSplit_nonempty (sep : string) (skip : nat) (cur s : string) :
  genSplit sep skip cur s <> [].
Proof.
  revert skip cur. induction s as [|x s IH]; intros skip cur; simpl; [done|].
  destruct skip as [|k]; [|apply IH].
  destruct (HasPrefix _ _); [done|apply IH].
Qed.

(** The element being read is a prefix of the first element returned. *)
Lemma genSplit_cur (sep : string) (skip : nat) (cur s : string) :
  genSplit sep skip cur s =
  match genSplit sep skip EmptyString s with
  | h :: t => (cur +:+ h) :: t
  | [] => []
  end.
Proof.
  revert skip cur. induction s as [|x s IH]; intros skip cur; simpl.
  - by rewrite app_empty_r.
  - destruct skip as [|k]; [|apply IH].
    destruct (HasPrefix _ _).
    + by rewrite app_empty_r.
    + rewrite (IH 0%nat (cur +:+ String x EmptyString)).
      rewrite (IH 0%nat (EmptyString +:+ String x EmptyString)).
      destruct (genSplit sep 0 EmptyString s) as [|h t]; [done|].
      by rewrite app_assoc_s.
Qed.

(** Passing over the rest of a matched separator. *)
Lemma genSplit_skip (sep u cur rest : string) :
  genSplit sep (String.length u) cur (u +:+ rest) = genSplit sep 0 cur rest.
Proof.
  induction u as [|x u IH]; [reflexivity|exact IH].
Qed.

(** A text without the first byte of the separator is one element. *)
Lemma genSplit_absent (c : ascii) (sep cur s : string) :
  contains c s = false ->
  genSplit (String c sep) 0 cur s = [cur +:+ s].
Proof.
  revert cur. induction s as [|x s IH]; intros cur H; simpl.
  - by rewrite app_empty_r.
  - simpl in H. apply orb_false_iff in H as [Hx Hs].
    rewrite Hx. rewrite (IH _ Hs). by rewrite app_assoc_s.
Qed.

(** The first element ends at the first occurrence of the separator. *)
Lemma genSplit_cut (c : ascii) (sep cur a rest : string) :
  contains c a = false ->
  genSplit (String c sep) 0 cur (a +:+ String c sep +:+ rest)
  = (cur +:+ a) :: genSplit (String c sep) 0 EmptyString rest.
Proof.
  revert cur. induction a as [|x a IH]; intros cur H.
  - rewrite app_empty_l, app_empty_r.
    change (String c sep +:+ rest) with (String c (sep +:+ rest)).
    cbn [genSplit].
    change (String c (sep +:+ rest)) with (String c sep +:+ rest).
    rewrite HasPrefix_app. f_equal.
    cbn [String.length]. rewrite Nat.sub_1_r. cbn [Nat.pred].
    apply genSplit_skip.
  - simpl in H. apply orb_false_iff in H as [Hx Ha].
    rewrite app_String. cbn [genSplit].
    rewrite (HasPrefix_first _ _ _ _ Hx).
    rewrite (IH _ Ha). by rewrite app_assoc_s.
Qed.

Lemma Split_absent (c : ascii) (sep s : string) :
  contains c s = false -> Split s (String c sep) = [s].
Proof. intros H. unfold Split. by rewrite genSplit_absent. Qed.

Lemma Split_cut (c : ascii) (sep a rest : string) :
  contains c a = false ->
  Split (a +:+ String c sep +:+ rest) (String c sep) = a :: Split rest (String c sep).
Proof. intros H. unfold Split. by rewrite genSplit_cut. Qed.



(** Every text is one segment, or a first segment, the separator and a
    rest that is split in turn. *)
Lemma Split_cases (c : ascii) (s : string) :
  (contains c s = false /\ Split s (String c EmptyString) = [s]) \/
  exists a rest,
    s = a +:+ String c EmptyString +:+ rest /\ contains c a = false /\
    Split s (String c EmptyString) = a :: Split rest (String c EmptyString).
Proof.
  induction s as [|x s IH].
  - left. split; reflexivity.
  - destruct (Ascii.eqb x c) eqn:Hx.
    + right. apply Ascii.eqb_eq in Hx as ->.
      exists EmptyString, s. split; [reflexivity|]. split; [reflexivity|].
      apply (Split_cut c EmptyString EmptyString s). reflexivity.
    + destruct IH as [[Hs _]|(a & rest & -> & Ha & _)].
      * left. assert (Hc : contains c (String x s) = false) by (simpl; by rewrite Hx, Hs).
        split; [done|]. by apply Split_absent.
      * right. exists (String x a), rest.
        assert (Hc : contains c (String x a) = false) by (simpl; by rewrite Hx, Ha).
        split; [reflexivity|]. split; [done|].
        exact (Split_cut c EmptyString (String x a) rest Hc).
Qed.

(** Splitting at a byte and joining with it gives the text back. *)
Lemma Join_Split (c : ascii) (s : string) :
  Join (Split s (String c EmptyString)) (String c EmptyString) = s.
Proof.
  remember (String.length s) as n eqn:Hn. revert s Hn.
  induction n as [n IH] using lt_wf_ind. intros s ->.
  destruct (Split_cases c s) as [[_ ->]|(a & rest & -> & _ & ->)]; [reflexivity|].
  cbn [Join].
  destruct (Split rest (String c EmptyString)) as [|h t] eqn:Hsplit.
  { by apply genSplit_nonempty in Hsplit. }
  rewrite <- Hsplit.
  rewrite (IH (String.length rest)); [done| |done].
  rewrite !length_app_s. simpl. lia.
Qed.

(** Joining segments and splitting gives the segments back. *)
Lemma Split_Join (c : ascii) (toks : list string) :
  toks <> [] ->
  Forall (fun t => contains c t = false) toks ->
  Split (Join toks (String c EmptyString)) (String c EmptyString) = toks.
Proof.
  intros Hne Hall. induction Hall as [|t toks Ht Hall IH]; [done|].
  destruct toks as [|t' toks'].
  - cbn [Join]. by apply Split_absent.
  - change (Join (t :: t' :: toks') (String c EmptyString))
      with (t +:+ String c EmptyString +:+ Join (t' :: toks') (String c EmptyString)).
    rewrite Split_cut by done. f_equal. by apply IH.
Qed.

Lemma Join_snoc (segs : list string) (seg sep : string) :
  Join (segs ++ [seg]) sep =
  match segs with
  | [] => seg
  | _ => Join segs sep +:+ sep +:+ seg
  end.
Proof.
  induction segs as [|a segs IH]; [reflexivity|].
  destruct segs as [|b segs]; [reflexivity|].
  change (Join ((a :: b :: segs) ++ [seg]) sep)
    with (a +:+ sep +:+ Join ((b :: segs) ++ [seg]) sep).
  rewrite IH.
  change (Join (a :: b :: segs) sep) with (a +:+ sep +:+ Join (b :: segs) sep).
  by rewrite !app_assoc_s.
Qed.

(** The last element is what follows the last occurrence of the byte. *)
Lemma genSplit_last (c : ascii) (cur pre t : string) :
  contains c t = false ->
  last (genSplit (String c EmptyString) 0 cur (pre +:+ String c EmptyString +:+ t)) = Some t.
Proof.
  intros Ht. revert cur. induction pre as [|x pre IH]; intros cur.
  - rewrite (genSplit_cut c EmptyString cur EmptyString t eq_refl).
    by rewrite genSplit_absent.
  - rewrite app_String. cbn [genSplit HasPrefix].
    destruct (Ascii.eqb x c).
    + cbn [String.length]. cbn [Nat.sub].
      pose proof (genSplit_nonempty (String c EmptyString) 0 EmptyString
                    (pre +:+ String c EmptyString +:+ t)) as Hne.
      specialize (IH EmptyString).
      destruct (genSplit _ _ _ _) as [|h l]; [done|]. exact IH.
    + apply IH.
Qed.

Lemma Split_last (c : ascii) (segs : list string) (seg : string) :
  contains c seg = false ->
  last (Split (Join (segs ++ [seg]) (String c EmptyString)) (String c EmptyString)) = Some seg.
Proof.
  intros Hseg. rewrite Join_snoc. destruct segs as [|a segs].
  - by rewrite Split_absent.
  - by apply genSplit_last.
Qed.

Lemma indexLast_last {A : Type} (l : list A) (x : A) :
  last l = Some x -> indexLast l = Ok x.
Proof.
  intros H. destruct l as [|a l]; [done|].
  unfold indexLast, index. rewrite last_lookup in H.
  replace (length (a :: l) - 1)%nat with (Nat.pred (length (a :: l))) by lia.
  by rewrite H.
Qed.

End StringFacts.

Section ParseIntFacts.

Lemma isDigit_digitVal (c : ascii) : isDigit c = true -> 0 <= digitVal c <= 9.
Proof.
  unfold isDigit, digitVal. intros H.
  apply andb_true_iff in H as [H1 H2].
  apply Nat.leb_le in H1. apply Nat.leb_le in H2. lia.
Qed.

Lemma parseUintLoop_nonneg (s : string) (n v : Z) :
  0 <= n -> parseUintLoop s n = inl v -> 0 <= v.
Proof.
  revert n. induction s as [|c s IH]; intros n Hn H; simpl in H.
  - by simplify_eq.
  - destruct (isDigit c) eqn:Hc; [|done].
    destruct (cutoff10 <=? n); [done|].
    destruct (maxUint64 <? n * 10 + digitVal c); [done|].
    apply (IH (n * 10 + digitVal c)); [|done].
    pose proof (isDigit_digitVal c Hc). lia.
Qed.

(** A text [ParseUint] accepts holds decimal digits only. *)
Lemma parseUintLoop_chars (s : string) (n v : Z) (c : ascii) :
  parseUintLoop s n = inl v -> isDigit c = false -> contains c s = false.
Proof.
  revert n. induction s as [|x s IH]; intros n H Hc; simpl in *; [done|].
  destruct (isDigit x) eqn:Hx; [|done].
  destruct (cutoff10 <=? n); [done|].
  destruct (maxUint64 <? n * 10 + digitVal x); [done|].
  rewrite (IH _ H Hc), orb_false_r.
  apply Ascii.eqb_neq. intros ->. congruence.
Qed.

Lemma ParseUint_chars (s : string) (v : Z) (c : ascii) :
  ParseUint s = inl v -> isDigit c = false -> contains c s = false.
Proof.
  destruct s as [|x s]; [done|]. unfold ParseUint. apply parseUintLoop_chars.
Qed.

Lemma ParseUint_nonneg (s : string) (v : Z) : ParseUint s = inl v -> 0 <= v.
Proof.
  destruct s as [|x s]; [done|]. unfold ParseUint. by apply parseUintLoop_nonneg.
Qed.

(** A text [ParseInt] accepts holds a sign and decimal digits only. *)
Lemma ParseInt_chars (s : string) (n : Z) (c : ascii) :
  ParseInt s = inl n ->
  isDigit c = false -> c <> "+"%char -> c <> "-"%char ->
  contains c s = false.
Proof.
  intros H Hc Hplus Hminus. destruct s as [|x s]; [done|].
  unfold ParseInt in H.
  destruct (ParseUint (if (x =? "+")%char || (x =? "-")%char then s else String x s))
    as [un|[|]] eqn:Hun; [|done..].
  destruct ((x =? "+")%char || (x =? "-")%char) eqn:Hsign.
  - simpl. rewrite (ParseUint_chars _ _ _ Hun Hc), orb_false_r.
    apply Ascii.eqb_neq. intros ->.
    apply orb_true_iff in Hsign as [?%Ascii.eqb_eq|?%Ascii.eqb_eq]; done.
  - exact (ParseUint_chars _ _ _ Hun Hc).
Qed.

(** What [ParseInt] returns fits in an [int64]. *)
Lemma ParseInt_int64 (s : string) (n : Z) :
  ParseInt s = inl n -> - 2 ^ 63 <= n < 2 ^ 63.
Proof.
  intros H. destruct s as [|x s]; [done|].
  unfold ParseInt in H.
  destruct (ParseUint (if (x =? "+")%char || (x =? "-")%char then s else String x s))
    as [un|[|]] eqn:Hun; [|done..].
  apply ParseUint_nonneg in Hun.
  destruct (x =? "-")%char; simpl in H.
  - destruct (2 ^ 63 <? un) eqn:Hcut; [done|].
    apply Z.ltb_ge in Hcut. inversion H. lia.
  - destruct (2 ^ 63 <=? un) eqn:Hcut; [done|].
    apply Z.leb_gt in Hcut. inversion H. lia.
Qed.

Lemma int_of_int64_id (n : Z) : - 2 ^ 63 <= n < 2 ^ 63 -> int_of_int64 n = n.
Proof.
  intros H. unfold int_of_int64.
  rewrite Z.mod_small; lia.
Qed.

Lemma ParseInt_int (s : string) (n : Z) : ParseInt s = inl n -> int_of_int64 n = n.
Proof. intros H. apply int_of_int64_id. by apply ParseInt_int64 in H. Qed.

End ParseIntFacts.

(* ===================================================================== *)
(** * Part 10: the export parser                                          *)
(* ===================================================================== *)

Section Parser.

Lemma sliceFrom_ok {A : Type} (l : list A) (n : nat) :
  (n <= length l)%nat -> sliceFrom l n = Ok (drop n l).
Proof. intros H. unfold sliceFrom. by apply Nat.leb_le in H as ->. Qed.

(** The path of an asset whose URL is made of the segments [toks]. *)
Lemma assetPath_Join (toks : list string) :
  Forall segment toks -> (3 <= length toks)%nat ->
  assetPath (Join toks "/") = Ok (Join (drop 3 toks) "/").
Proof.
  intros Hsegs Hlen. unfold assetPath.
  rewrite (Split_Join "/" toks); [|intros ->; simpl in Hlen; lia|exact Hsegs].
  by rewrite sliceFrom_ok.
Qed.

(** C3.  The relative path of an asset is what follows the first three
    "/"-separated segments of its URL, however many segments there are: the
    derivation succeeds on every URL of at least four segments, with the text
    after the third "/" as its result; whenever it succeeds its result is
    the join of the segments from the fourth on; and it does not succeed
    only on a URL of fewer than four segments. *)
Theorem assetPath_drops_three (url : string) :
  ((4 <= length (Split url "/"))%nat ->
   exists a b c rest,
     segment a /\ segment b /\ segment c /\
     url = a +:+ "/" +:+ b +:+ "/" +:+ c +:+ "/" +:+ rest /\
     assetPath url = Ok rest) /\
  (forall p, assetPath url = Ok p -> p = Join (drop 3 (Split url "/")) "/") /\
  ((forall p, assetPath url <> Ok p) -> (length (Split url "/") < 4)%nat).
Proof.
  split; [|split].
  - intros Hlen. unfold assetPath.
    destruct (Split_cases "/" url) as [[_ H1]|(a & r1 & -> & Ha & H1)];
      rewrite H1 in Hlen |- *; [simpl in Hlen; lia|].
    destruct (Split_cases "/" r1) as [[_ H2]|(b & r2 & -> & Hb & H2)];
      rewrite H2 in Hlen |- *; [simpl in Hlen; lia|].
    destruct (Split_cases "/" r2) as [[_ H3]|(c & r3 & -> & Hc & H3)];
      rewrite H3 in Hlen |- *; [simpl in Hlen; lia|].
    exists a, b, c, r3. repeat (split; [done|]).
    rewrite sliceFrom_ok by (cbn [length]; lia).
    cbn [run_bind skipn]. rewrite drop_0. by rewrite (Join_Split "/" r3).
  - intros p H. unfold assetPath, sliceFrom in H.
    destruct (3 <=? length (Split url "/"))%nat; simpl in H; congruence.
  - intros H. destruct (decide (length (Split url "/") < 4)%nat) as [|Hge]; [done|].
    exfalso. apply (H (Join (drop 3 (Split url "/")) "/")).
    unfold assetPath. rewrite sliceFrom_ok by lia. done.
Qed.

Lemma assetPath_drops_three_witness :
  exists a b c rest,
    segment a /\ segment b /\ segment c /\
    "https://host/a/b/file.png" = a +:+ "/" +:+ b +:+ "/" +:+ c +:+ "/" +:+ rest /\
    assetPath "https://host/a/b/file.png" = Ok rest.
Proof.
  apply (proj1 (assetPath_drops_three "https://host/a/b/file.png")).
  vm_compute. lia.
Defined.

(** A URL of exactly three segments has the empty path; one of fewer makes
    the slice expression panic. *)
Lemma assetPath_three_segments : assetPath "https://host" = Ok EmptyString.
Proof. reflexivity. Qed.

Lemma assetPath_two_segments : assetPath "host/file.png" = Panic SliceBoundsOutOfRange.
Proof. reflexivity. Qed.

(** The body of the loop on a record of an issue.  A record whose [issue]
    is not empty, whose last "/"-separated segment [seg] of [issue] is a
    decimal integer [n], and whose [asset_url] is made of at least three
    segments gives an attachment of kind "issue" with issue number [n] and
    with the segments of [asset_url] from the fourth on, joined with "/",
    as its path. *)
Lemma processRecord_issue_record (r : rawAttachment) (segs toks : list string)
    (seg : string) (n : Z) :
  Issue r <> EmptyString ->
  Issue r = Join (segs ++ [seg]) "/" ->
  ParseInt seg = inl n ->
  AssetURL r = Join toks "/" ->
  Forall segment toks ->
  (3 <= length toks)%nat ->
  processRecord r =
  Ok (Some {| attachment_Type := "issue";
              attachment_URL := Issue r;
              attachment_IssueNumber := n;
              attachment_CommentNumber := 0;
              attachment_Path := Join (drop 3 toks) "/" |}).
Proof.
  intros Hne Hissue Hint Hasset Hsegs Hlen. unfold processRecord.
  apply String.eqb_neq in Hne. rewrite Hne. cbn [negb].
  assert (Hseg : contains "/" seg = false) by (by eapply ParseInt_chars).
  rewrite (indexLast_last _ seg) by (rewrite Hissue; by apply Split_last).
  cbn [run_bind]. unfold parseIssueNumber. rewrite Hint. cbn [run_bind].
  rewrite Hasset, (assetPath_Join _ Hsegs Hlen). cbn [run_bind].
  by rewrite (ParseInt_int _ _ Hint).
Qed.



(** The attachment of a record is appended to the attachments read so far. *)
Lemma processRecords_appends (records : list rawAttachment) (a : rawAttachment)
    (entry : attachment) (db db' : database) :
  processRecords records db = (db', Ok tt) ->
  processRecord a = Ok (Some entry) ->
  processRecords (records ++ [a]) db = (appendAttachment db' entry, Ok tt).
Proof.
  revert db. induction records as [|b records IH]; intros db Hrecords Ha.
  - cbn in Hrecords. cbn [app processRecords]. rewrite Ha. by simplify_eq.
  - cbn [app processRecords] in *.
    destruct (processRecord b) as [[e|]| | |]; try done; by apply IH.
Qed.

End Parser.

Section ParserFailures.

(** A record the parser cannot read stops the loop: whatever stands before
    and after it, the records of the file are not processed to the end. *)
Lemma processRecords_stops (before after : list rawAttachment) (a : rawAttachment)
    (db : database) :
  (forall x, processRecord a <> Ok x) ->
  forall db', processRecords (before ++ a :: after) db <> (db', Ok tt).
Proof.
  intros Hbad. revert db. induction before as [|b before IH]; intros db db'.
  - cbn [app processRecords].
    destruct (processRecord a) as [x| | |] eqn:Ha; [by destruct (Hbad x)|done..].
  - cbn [app processRecords].
    destruct (processRecord b) as [[entry|]| | |]; try done; apply IH.
Qed.

(** An issue number that is no integer is reported with the value of the
    field it was read from. *)
Lemma issue_number_not_integer (r : rawAttachment) (segs : list string)
    (seg : string) (k : numErrKind) :
  Issue r <> EmptyString ->
  Issue r = Join (segs ++ [seg]) "/" ->
  segment seg ->
  ParseInt seg = inr k ->
  processRecord r =
  Fail (Errorf "error parsing issue number from %s: %s"
               [inl (Issue r); inr (NumError "ParseInt" seg k)]).
Proof.
  intros Hne Hissue Hseg Hint. unfold processRecord.
  apply String.eqb_neq in Hne. rewrite Hne. cbn [negb].
  rewrite (indexLast_last _ seg) by (rewrite Hissue; by apply Split_last).
  cbn [run_bind]. unfold parseIssueNumber. by rewrite Hint.
Qed.

(** C4, where the code departs from it.  A considered file with a record
    whose [issue_comment] has no "issuecomment-" marker: the parser panics
    on the index [1] of a one-element slice instead of returning an error
    that names the value. *)
Theorem missing_marker_panics :
  processAttachments
    (inr [ {| entry_Name := "attachments_000001.json";
              entry_read :=
                Decoded [ {| Issue := EmptyString;
                             IssueComment := "https://github.com/o/r/issues/17#comment-99";
                             AssetURL := "https://host/a/b/file.png" |} ] |} ])
    emptyDatabase
  = (emptyDatabase, Panic IndexOutOfRange).
Proof. reflexivity. Qed.

End ParserFailures.

(* ===================================================================== *)
(** * Part 11: the listers and [collect]                                  *)
(* ===================================================================== *)

Section Events.

Context {P : event -> Prop}.

Lemma emitsOnly_ret {A : Type} (a : A) : emitsOnly P (ret a).
Proof. intros s. exists []. by rewrite app_nil_r. Qed.

Lemma emitsOnly_fail {A : Type} (e : error) : emitsOnly P (@fail A e).
Proof. intros s. exists []. by rewrite app_nil_r. Qed.

Lemma emitsOnly_crash {A : Type} (p : panic) : emitsOnly P (@crash A p).
Proof. intros s. exists []. by rewrite app_nil_r. Qed.

Lemma emitsOnly_stuck {A : Type} : emitsOnly P (fun s => (s, @OutOfFuel A)).
Proof. intros s. exists []. by rewrite app_nil_r. Qed.

Lemma emitsOnly_emit (ev : event) : P ev -> emitsOnly P (emit ev).
Proof. intros H s. exists [ev]. split; [done|]. by constructor. Qed.

Lemma emitsOnly_setMem (db : database) : emitsOnly P (setMem db).
Proof. intros s. exists []. by rewrite app_nil_r. Qed.

Lemma emitsOnly_getMem : emitsOnly P getMem.
Proof. intros s. exists []. by rewrite app_nil_r. Qed.

Lemma emitsOnly_setDisk (file : contents) : emitsOnly P (setDisk file).
Proof. intros s. exists []. by rewrite app_nil_r. Qed.

Lemma emitsOnly_writeDatabase (db : database) (failure : option writeFailure) :
  P (WriteFile db (succeeded failure)) -> emitsOnly P (writeDatabase db failure).
Proof. intros H s. exists [WriteFile db (succeeded failure)]. split; [done|]. by constructor. Qed.

Lemma emitsOnly_bind {A B : Type} (m : M A) (f : A -> M B) :
  emitsOnly P m -> (forall a, emitsOnly P (f a)) -> emitsOnly P (bind m f).
Proof.
  intros Hm Hf s. unfold bind.
  destruct (Hm s) as (evs & Ht & Hevs).
  destruct (m s) as [s' [a| | |]]; simpl in Ht; try by exists evs.
  destruct (Hf a s') as (evs' & Ht' & Hevs').
  exists (evs ++ evs'). rewrite Ht', Ht, app_assoc. split; [done|].
  by apply Forall_app.
Qed.

Lemma emitsOnly_wrap (format : string) (m : M unit) :
  emitsOnly P m -> emitsOnly P (wrap format m).
Proof.
  intros Hm s. unfold wrap. destruct (Hm s) as (evs & Ht & Hevs).
  exists evs. by destruct (m s) as [s' [a| | |]].
Qed.

End Events.

Ltac emits :=
  repeat first
    [ apply emitsOnly_ret | apply emitsOnly_fail | apply emitsOnly_crash
    | apply emitsOnly_stuck | apply emitsOnly_setMem | apply emitsOnly_getMem
    | apply emitsOnly_setDisk | apply emitsOnly_wrap
    | apply emitsOnly_emit; done
    | apply emitsOnly_bind; [|intros ?] ].

Section Listers.

Lemma processIssues_notExpand (fuel : nat) (client : Z -> ghPage)
    (org repo : string) (page : Z) :
  emitsOnly notExpand (processIssues fuel client org repo page).
Proof.
  revert page. induction fuel as [|fuel IH]; intros page; cbn [processIssues]; [emits|].
  emits.
  destruct (gh_err (client page)), (gh_resp (client page)); emits.
  - destruct (_ =? _); emits.
  - destruct (_ =? _); [emits|apply IH].
Qed.

Lemma processTickets_notExpand (fuel : nat) (client : option (Z -> jiraPage))
    (key : string) (startAt : Z) :
  emitsOnly notExpand (processTickets fuel client key startAt).
Proof.
  revert startAt. induction fuel as [|fuel IH]; intros startAt;
    cbn [processTickets]; [emits|].
  destruct client as [search|]; emits.
  destruct (jira_err (search startAt)), (jira_resp (search startAt)); emits.
  destruct (_ <=? _); [emits|apply IH].
Qed.

(** The issue lister reports status 404 as "repository not found". *)
Lemma processIssues_not_found (fuel : nat) (issues : list ghIssue) (err : error)
    (next last : Z) (org repo : string) (page : Z) (s : machine) :
  snd (processIssues (S fuel)
         (fun _ => {| gh_issues := issues;
                      gh_resp := Some {| gh_StatusCode := 404;
                                         gh_NextPage := next; gh_LastPage := last |};
                      gh_err := Some err |})
         org repo page s)
  = Fail (Errorf "repository %s/%s not found" [inl org; inl repo]).
Proof. reflexivity. Qed.

(** A request that fails without a response makes the issue lister panic:
    it reads the status of a nil response. *)
Lemma processIssues_no_response (fuel : nat) (issues : list ghIssue) (err : error)
    (org repo : string) (page : Z) (s : machine) :
  snd (processIssues (S fuel)
         (fun _ => {| gh_issues := issues; gh_resp := None; gh_err := Some err |})
         org repo page s)
  = Panic NilPointerDereference.
Proof. reflexivity. Qed.

(** C9, where the code departs from it.  The ticket lister never looks at
    the status of a failed search: a page that fails with status 404 ends
    the listing with the same "failed searching for tickets" error as any
    other failure, not with a "not found" error of its own. *)
Theorem processTickets_not_found_not_distinguished (fuel : nat)
    (issues : list jiraIssue) (err : error) (status startAt maxResults total : Z)
    (key : string) (s : machine) :
  snd (processTickets (S fuel)
         (Some (fun _ => {| jira_issues := issues;
                            jira_resp := Some {| jira_StatusCode := 404;
                                                 jira_StartAt := startAt;
                                                 jira_MaxResults := maxResults;
                                                 jira_Total := total |};
                            jira_err := Some err |}))
         key startAt s)
  = Fail (Errorf "failed searching for tickets in %s: %s" [inl key; inr err])
  /\
  snd (processTickets (S fuel)
         (Some (fun _ => {| jira_issues := issues;
                            jira_resp := Some {| jira_StatusCode := status;
                                                 jira_StartAt := startAt;
                                                 jira_MaxResults := maxResults;
                                                 jira_Total := total |};
                            jira_err := Some err |}))
         key startAt s)
  = Fail (Errorf "failed searching for tickets in %s: %s" [inl key; inr err]).
Proof. split; reflexivity. Qed.

End Listers.

Section Collect.

(** The last write of [collect] is not checked: with the same answers of the
    outside otherwise, [collect] returns the same whether the write of
    [database.json] failed or not. *)
Lemma collect_ignores_write_error (fuel : nat) (flags : collectFlags)
    (w : collectWorld) (failure : writeFailure) (s : machine) :
  snd (collect fuel flags (withWriteFileErr w (Some failure)) s)
  = snd (collect fuel flags (withWriteFileErr w None) s).
Proof.
  unfold collect, bind, wrap, IsEmpty. cbn [withWriteFileErr newJIRAClientErr
    stageNotExist mkdirAllErr openStageErr readdirnamesErr expandErr stageDir
    listByRepo search marshalErr writeFileErr].
  repeat match goal with
         | |- context [match ?x with _ => _ end] =>
             lazymatch x with
             | context [match _ with _ => _ end] => fail
             | _ => destruct x eqn:?; try reflexivity
             end
         | |- context [if ?x then _ else _] =>
             lazymatch x with
             | context [match _ with _ => _ end] => fail
             | _ => destruct x eqn:?; try reflexivity
             end
         end.
Qed.

(** The scenario of the specification: the index [collect] writes. *)
Example collect_scenario :
  disk (collect 1 (sampleFlags true) sampleWorld (boot Absent)).1 = Holds sampleIndex.
Proof. vm_compute. reflexivity. Qed.

(** C8, where the code departs from it.  Every call succeeds but the write
    of [database.json], which breaks off on a full disk: [collect] returns
    nil, and no index was written (the file was made, and holds none). *)
Theorem collect_write_failure_is_silent :
  collect 1 (sampleFlags true) (withWriteFileErr sampleWorld (Some diskFull)) (boot Absent)
  = ({| mem := sampleIndex; disk := Torn;
        trace := [ ListByRepo "o" "r" 1; Search "project=PROJ" 0;
                   WriteFile sampleIndex false ];
        clock := 0 |}, Ok tt).
Proof. vm_compute. reflexivity. Qed.

(** C10.  With [--skip-archive] and an empty staging directory (one that is
    there or could be made), [collect] fails with the error that says so,
    and nothing was done before: no event, so no call to a remote service.
    Without [--skip-archive] and with a staging directory that is not empty,
    the archive is not expanded, however the run ends. *)
Theorem collect_resume_policy (fuel : nat) (flags : collectFlags)
    (w : collectWorld) (s : machine) :
  (skipArchive flags = true ->
   stageNotExist w = false \/ mkdirAllErr w = None ->
   IsEmpty w = (true, None) ->
   collect fuel flags w s =
   (s, Fail (Errorf "staging directory is empty, but --skip-archive was specified" [])))
  /\
  (skipArchive flags = false ->
   IsEmpty w = (false, None) ->
   exists evs, trace (collect fuel flags w s).1 = trace s ++ evs /\
               Forall (fun ev => isExpand ev = false) evs).
Proof.
  split.
  - intros Hskip Hstage Hempty. unfold collect, bind. rewrite Hempty, Hskip.
    destruct Hstage as [-> | ->]; [reflexivity|].
    by destruct (stageNotExist w).
  - intros Hskip Hempty. revert s.
    change (emitsOnly notExpand (collect fuel flags w)).
    unfold collect. rewrite Hempty, Hskip. cbn [negb].
    emits.
    + destruct (stageNotExist w); [destruct (mkdirAllErr w)|]; emits.
    + intros s0. exists []. rewrite app_nil_r.
      by destruct (processAttachments _ _).
    + apply processIssues_notExpand.
    + apply processTickets_notExpand.
    + destruct (marshalErr w); emits.
Qed.

Lemma collect_resume_policy_witness :
  collect 1 (sampleFlags true) (withEmptyStage sampleWorld) (boot Absent) =
  (boot Absent,
   Fail (Errorf "staging directory is empty, but --skip-archive was specified" []))
  /\
  exists evs,
    trace (collect 1 (sampleFlags false) sampleWorld (boot Absent)).1 = [] ++ evs /\
    Forall (fun ev => isExpand ev = false) evs.
Proof.
  split.
  - apply (proj1 (collect_resume_policy 1 (sampleFlags true)
                    (withEmptyStage sampleWorld) (boot Absent))).
    + reflexivity.
    + left. reflexivity.
    + reflexivity.
  - apply (proj2 (collect_resume_policy 1 (sampleFlags false) sampleWorld (boot Absent))).
    + reflexivity.
    + reflexivity.
Defined.

End Collect.

(* ===================================================================== *)
(** * Part 12: [upload]                                                   *)
(* ===================================================================== *)

Section UploadInvariant.

Variable file : database.

Lemma marksMore_refl (db : database) : marksMore db db.
Proof.
  split; [done|split; [done|]]. intros title. by destruct (Tickets db !! title).
Qed.

Lemma marksMore_lookup (db : database) (title : string) (t : ticket) :
  marksMore file db -> Tickets file !! title = Some t ->
  exists t', Tickets db !! title = Some t' /\ ticket_Key t' = ticket_Key t /\
             (ticket_Uploaded t = true -> ticket_Uploaded t' = true).
Proof.
  intros (_ & _ & H) Ht. specialize (H title). rewrite Ht in H.
  destruct (Tickets db !! title) as [t'|]; [|done]. by exists t'.
Qed.

Lemma marksMore_lookup_inv (db : database) (title : string) (t' : ticket) :
  marksMore file db -> Tickets db !! title = Some t' ->
  exists t, Tickets file !! title = Some t /\ ticket_Key t' = ticket_Key t /\
            (ticket_Uploaded t = true -> ticket_Uploaded t' = true).
Proof.
  intros (_ & _ & H) Ht. specialize (H title). rewrite Ht in H.
  destruct (Tickets file !! title) as [t|]; [|done]. by exists t.
Qed.

(** A ticket pending after more marks was pending before. *)
Lemma pending_marksMore (db : database) (title : string) :
  marksMore file db -> pending db title -> pending file title.
Proof.
  intros Hmore (t' & Ht' & Hflag).
  destruct (marksMore_lookup_inv _ _ _ Hmore Ht') as (t & Ht & _ & Himp).
  exists t. split; [done|]. destruct (ticket_Uploaded t); [|done].
  rewrite Himp in Hflag; done.
Qed.

Lemma transferred_app (title : string) (tr evs : list event) :
  transferred title tr -> transferred title (tr ++ evs).
Proof. intros (key & name & H). exists key, name. apply elem_of_app. by left. Qed.


Lemma recorded_transferred (title : string) (tr : list event) :
  recorded title tr -> transferred title tr.
Proof.
  intros (key & name & db & before & after & ->). exists key, name.
  apply elem_of_app. right. apply list_elem_of_here.
Qed.

(** An event that is no successful write records nothing. *)
Lemma recorded_snoc (title : string) (tr : list event) (ev : event) :
  (forall db, ev <> WriteFile db true) ->
  recorded title (tr ++ [ev]) -> recorded title tr.
Proof.
  intros Hev (key & name & db & before & after & H).
  destruct after as [|x after _] using rev_ind.
  - change (before ++ [PostAttachment title key name true; WriteFile db true])
      with (before ++ [PostAttachment title key name true] ++ [WriteFile db true]) in H.
    rewrite app_assoc in H. apply app_inj_tail in H as [_ ->]. by destruct (Hev db).
  - change (before ++ PostAttachment title key name true :: WriteFile db true :: after ++ [x])
      with (before ++ (PostAttachment title key name true :: WriteFile db true :: after) ++ [x])
      in H.
    rewrite app_assoc in H. apply app_inj_tail in H as [-> _].
    by exists key, name, db, before, after.
Qed.

Lemma runInv_init : runInv file file (Holds file) [].
Proof.
  split; [apply marksMore_refl|]. split; [|split].
  - split; [apply marksMore_refl|]. split.
    + intros title t Ht Hflag. left. by exists t.
    + intros title (key & name & db & before & after & H). by destruct before.
  - intros title key name ok H. by apply elem_of_nil in H.
  - intros title t Ht. split.
    + intros Hflag. left. by exists t.
    + intros [(t' & Ht' & Hflag)|(key & name & H)]; [congruence|].
      by apply elem_of_nil in H.
Qed.

(** The file keeps what holds of it when an event that is no successful
    write follows. *)
Lemma diskInv_event (d : contents) (tr : list event) (ev : event) :
  (forall db, ev <> WriteFile db true) ->
  diskInv file d tr -> diskInv file d (tr ++ [ev]).
Proof.
  intros Hev. destruct d as [|d'|]; cbn [diskInv]; [done| |].
  - intros (Hd & Hdflags & Hrec). split; [done|]. split.
    + intros title t Ht Hflag.
      destruct (Hdflags title t Ht Hflag) as [?|?]; [by left|right].
      by apply transferred_app.
    + intros title H. apply Hrec. by eapply recorded_snoc.
  - intros (db & H). exists db. apply elem_of_app. by left.
Qed.

(** What holds of the index in memory is what must hold of a file with that
    index. *)
Lemma diskInv_mem (m : database) (tr : list event) :
  marksMore file m ->
  (forall title key name ok,
     PostAttachment title key name ok ∈ tr -> pending file title /\ matched file title) ->
  (forall title t, Tickets m !! title = Some t ->
     (ticket_Uploaded t = true <-> uploaded file title \/ transferred title tr)) ->
  diskInv file (Holds m) tr.
Proof.
  intros Hmem Hevents Hflags. split; [done|]. split.
  - intros title t Ht Hflag. by apply (Hflags title t Ht).
  - intros title Hrec. apply recorded_transferred in Hrec as (key & name & Hin).
    destruct (Hevents _ _ _ _ Hin) as ((t0 & Ht0 & _) & _).
    destruct (marksMore_lookup _ _ _ Hmem Ht0) as (t' & Ht' & _).
    exists t'. split; [done|]. apply (Hflags title t' Ht'). right. by exists key, name.
Qed.

(** An event that is no successful transfer changes nothing of what holds
    of the events and of the index in memory. *)
Lemma runInv_mem_event (m : database) (d : contents) (tr : list event) (ev : event) :
  runInv file m d tr ->
  (forall title key name ok, ev = PostAttachment title key name ok ->
     ok = false /\ pending file title /\ matched file title) ->
  (forall title key name ok,
     PostAttachment title key name ok ∈ tr ++ [ev] ->
     pending file title /\ matched file title) /\
  (forall title t, Tickets m !! title = Some t ->
     (ticket_Uploaded t = true <-> uploaded file title \/ transferred title (tr ++ [ev]))).
Proof.
  intros (Hmem & _ & Hevents & Hflags) Hev. split.
  - intros title key name ok [H|H%list_elem_of_singleton]%elem_of_app.
    + by eapply Hevents.
    + symmetry in H. by destruct (Hev _ _ _ _ H) as (_ & ? & ?).
  - intros title t Ht. rewrite (Hflags title t Ht). split.
    + intros [?|?]; [by left|right]. by apply transferred_app.
    + intros [?|(key & name & [H|H%list_elem_of_singleton]%elem_of_app)];
        [by left|right; by exists key, name|].
      symmetry in H. by destruct (Hev _ _ _ _ H) as (? & _).
Qed.

(** An event that is neither a successful transfer nor a successful write
    changes nothing. *)
Lemma runInv_event (m : database) (d : contents) (tr : list event)
    (ev : event) :
  runInv file m d tr ->
  (forall title key name ok, ev = PostAttachment title key name ok ->
     ok = false /\ pending file title /\ matched file title) ->
  (forall db, ev <> WriteFile db true) ->
  runInv file m d (tr ++ [ev]).
Proof.
  intros Hinv Hev Hwrite.
  destruct (runInv_mem_event m d tr ev Hinv Hev) as (Hevents & Hflags).
  split; [apply Hinv|]. split; [|done].
  apply diskInv_event; [done|]. apply Hinv.
Qed.

(** A successful transfer followed by the mark. *)
Lemma runInv_mark (m : database) (d : contents) (tr : list event)
    (title key name : string) (t : ticket) :
  runInv file m d tr ->
  pending file title -> matched file title ->
  Tickets m !! title = Some t ->
  runInv file (mark title t m) d (tr ++ [PostAttachment title key name true]).
Proof.
  intros (Hmem & Hdisk & Hevents & Hflags) Hpending Hmatched Ht.
  assert (Hnew : transferred title (tr ++ [PostAttachment title key name true])).
  { exists key, name. apply elem_of_app. right. by apply list_elem_of_singleton. }
  split; [|split; [|split]].
  - destruct Hmem as (Hatt & Hiss & Htickets).
    split; [done|]. split; [done|]. intros title'. cbn [mark Tickets].
    destruct (decide (title = title')) as [<-|Hne].
    + rewrite lookup_insert_eq. specialize (Htickets title). rewrite Ht in Htickets.
      destruct (Tickets file !! title) as [t0|]; [|done]. cbn. by destruct Htickets.
    + rewrite lookup_insert_ne by done. apply Htickets.
  - by apply diskInv_event.
  - intros title' key' name' ok [H|H%list_elem_of_singleton]%elem_of_app.
    + by eapply Hevents.
    + by simplify_eq.
  - intros title' t'. cbn [mark Tickets].
    destruct (decide (title = title')) as [<-|Hne].
    + rewrite lookup_insert_eq. intros [= <-]. cbn. split; [by right|done].
    + rewrite lookup_insert_ne by done. intros Ht'. rewrite (Hflags title' t' Ht').
      split.
      * intros [?|?]; [by left|right]. by apply transferred_app.
      * intros [?|(key' & name' & [H|H%list_elem_of_singleton]%elem_of_app)];
          [by left|right; by exists key', name'|].
        by simplify_eq.
Qed.

(** The write of the index in memory, however it ends. *)
Lemma runInv_write (m : database) (d : contents) (tr : list event)
    (failure : option writeFailure) :
  runInv file m d tr ->
  runInv file m (afterWrite m failure d) (tr ++ [WriteFile m (succeeded failure)]).
Proof.
  intros Hinv.
  destruct (runInv_mem_event m d tr (WriteFile m (succeeded failure)) Hinv)
    as (Hevents & Hflags); [done|].
  pose proof (diskInv_mem m _ (proj1 Hinv) Hevents Hflags) as Hholds.
  split; [apply Hinv|]. split; [|done].
  unfold afterWrite. destruct failure as [f|]; [|exact Hholds].
  destruct (write_leaves f).
  - apply diskInv_event; [done|]. apply Hinv.
  - exists m. apply elem_of_app. right. apply list_elem_of_here.
  - exact Hholds.
Qed.

Variable w : uploadWorld.

(** One transfer of [main.go] keeps the invariant, however it ends. *)
Lemma transfer_inv (title : string) (t : ticket) (a : attachment) (s : machine) :
  stateInv file s -> pending file title -> matched file title ->
  stateInv file (transfer byTitle w title t a s).1.
Proof.
  intros Hinv Hpending Hmatched. unfold stateInv in *.
  destruct Hpending as (t0 & Ht0 & Hflag0).
  destruct (marksMore_lookup _ _ _ (proj1 Hinv) Ht0) as (t' & Ht' & _).
  assert (Hp : pending file title) by by exists t0.
  unfold transfer, bind, tick, fail, emit, markUploaded, setMem, getMem,
    writeDatabase, setDisk, byTitle.
  destruct (indexLast (Split (attachment_Path a) "/")) as [name| | |]; cbn; try done.
  destruct (openErr _); cbn; [done|].
  destruct (postErr _); cbn.
  { apply runInv_event; [done| |done]. intros ???? [= <- <- <- <-]. done. }
  destruct (postStatusCode _ =? 200); cbn.
  2:{ apply runInv_event; [done| |done]. intros ???? [= <- <- <- <-]. done. }
  rewrite Ht'. cbn.
  pose proof (runInv_mark _ _ _ title (ticket_Key t) name t' Hinv Hp Hmatched Ht') as Hmarked.
  unfold mark in Hmarked.
  destruct (uploadMarshalErr _); cbn; [done|].
  apply (runInv_write _ _ _ (uploadWriteErr (attempts w (clock s)))) in Hmarked.
  by destruct (uploadWriteErr _).
Qed.

Lemma uploadAttachments_inv (title : string) (t : ticket) (i : issue)
    (attachments : list attachment) (s : machine) :
  stateInv file s -> pending file title ->
  Issues file !! title = Some i ->
  (forall a, a ∈ attachments -> a ∈ Attachments file) ->
  stateInv file (uploadAttachments byTitle w title t i attachments s).1.
Proof.
  intros Hinv Hpending Hissue. revert s Hinv.
  induction attachments as [|a rest IH]; intros s Hinv Hsub; [done|].
  cbn [uploadAttachments]. unfold bind.
  assert (Hrest : forall b, b ∈ rest -> b ∈ Attachments file).
  { intros b Hb. apply Hsub. by apply elem_of_cons; right. }
  destruct (attachment_IssueNumber a =? issue_Number i) eqn:Hnum.
  - assert (Hmatched : matched file title).
    { exists i, a. split; [done|]. split; [|by apply Z.eqb_eq].
      apply Hsub. by apply elem_of_cons; left. }
    pose proof (transfer_inv title t a s Hinv Hpending Hmatched) as Hstep.
    destruct (transfer byTitle w title t a s) as [s1 [[]| | |]]; cbn in *; try done.
    by apply IH.
  - unfold ret. by apply IH.
Qed.

Lemma uploadTicket_inv (title : string) (s : machine) :
  stateInv file s -> stateInv file (uploadTicket byTitle w title s).1.
Proof.
  intros Hinv. unfold uploadTicket.
  destruct (Tickets (mem s) !! title) as [t|] eqn:Ht; [|done].
  destruct (ticket_Uploaded t) eqn:Hflag; [done|].
  destruct (Issues (mem s) !! title) as [i|] eqn:Hi; [|done].
  pose proof (proj1 Hinv) as Hmem.
  destruct Hmem as (Hatt & Hiss & _).
  apply uploadAttachments_inv; [done| | |].
  - apply (pending_marksMore (mem s)); [apply Hinv|]. by exists t.
  - by rewrite <- Hiss.
  - intros a. by rewrite Hatt.
Qed.

Lemma uploadTickets_inv (order : list string) (s : machine) :
  stateInv file s -> stateInv file (uploadTickets byTitle w order s).1.
Proof.
  revert s. induction order as [|title rest IH]; intros s Hinv; [done|].
  cbn [uploadTickets]. unfold bind.
  pose proof (uploadTicket_inv title s Hinv) as Hstep.
  destruct (uploadTicket byTitle w title s) as [s1 [[]| | |]]; cbn in *; try done.
  by apply IH.
Qed.

(** A run of [upload] stops before the loop, with nothing done, or keeps the
    invariant to its end. *)
Lemma upload_inv (order : list string) :
  (upload w order (boot (Holds file))).1 = boot (Holds file) \/
  stateInv file (upload w order (boot (Holds file))).1.
Proof.
  unfold upload, uploadWith. cbn [boot disk].
  destruct (uploadClientErr w); [by left|].
  destruct (readFileErr w); [by left|].
  destruct (unmarshalErr w); [by left|].
  right. unfold bind, setMem. cbn.
  apply uploadTickets_inv. apply runInv_init.
Qed.

(** A ticket that is marked uploaded is skipped. *)
Lemma uploadTicket_skips (markKey : string -> ticket -> string) (title : string)
    (t : ticket) (s : machine) :
  Tickets (mem s) !! title = Some t -> ticket_Uploaded t = true ->
  uploadTicket markKey w title s = (s, Ok tt).
Proof. intros Ht Hflag. unfold uploadTicket. by rewrite Ht, Hflag. Qed.



Lemma unmatched_not_matched (title : string) :
  unmatched file title -> ~ matched file title.
Proof.
  unfold unmatched. intros Hun (i & a & Hi & Ha & Hnum). rewrite Hi in Hun.
  rewrite Forall_forall in Hun. by apply (Hun a).
Qed.

End UploadInvariant.

Section UploadNames.

Lemma indexLast_Split (s sep : string) :
  exists name, indexLast (Split s sep) = Ok name.
Proof.
  pose proof (genSplit_nonempty sep 0 EmptyString s) as Hne. fold (Split s sep) in Hne.
  destruct (last (Split s sep)) as [x|] eqn:Hlast.
  - exists x. by apply indexLast_last.
  - by apply last_None in Hlast.
Qed.

Lemma nameOf_last (a : attachment) :
  indexLast (Split (attachment_Path a) "/") = Ok (nameOf a).
Proof.
  unfold nameOf. by destruct (indexLast_Split (attachment_Path a) "/") as [name ->].
Qed.

End UploadNames.

Section UploadWrites.

Variable w : uploadWorld.

Lemma paired_app (l1 l2 : list event) : paired l1 -> paired l2 -> paired (l1 ++ l2).
Proof. induction 1; [done|]. intros H2. cbn. constructor; [done|by apply IHpaired]. Qed.

Lemma paired_no_failed_write (l : list event) (db : database) :
  paired l -> WriteFile db false ∉ l.
Proof.
  induction 1 as [|title key name db' rest Hdb Hrest IH]; [apply not_elem_of_nil|].
  intros [H|[H|H]%elem_of_cons]%elem_of_cons; [done|done|by apply IH].
Qed.

Lemma writesEach_ret : writesEach (ret tt).
Proof.
  intros s. exists [], []. cbn. rewrite app_nil_r.
  split; [done|]. split; [constructor|]. split; [by left|done].
Qed.

Lemma writesEach_skip (s : machine) :
  exists done rest : list event,
    trace s = trace s ++ done ++ rest /\
    paired done /\ brokenOff rest /\ (Ok tt = Ok tt -> rest = []).
Proof.
  exists [], []. cbn. rewrite app_nil_r.
  split; [done|]. split; [constructor|]. split; [by left|done].
Qed.

Lemma writesEach_bind (m k : M unit) :
  writesEach m -> writesEach k -> writesEach (bind m (fun _ => k)).
Proof.
  intros Hm Hk s. unfold bind. destruct (Hm s) as (done1 & rest1 & Ht1 & Hp1 & Hb1 & Hok1).
  destruct (m s) as [s1 [[]| | |]]; cbn in Ht1, Hok1;
    try (exists done1, rest1; by repeat split).
  rewrite (Hok1 eq_refl), app_nil_r in Ht1.
  destruct (Hk s1) as (done2 & rest2 & Ht2 & Hp2 & Hb2 & Hok2).
  exists (done1 ++ done2), rest2. rewrite Ht2, Ht1, <- !app_assoc.
  split; [done|]. split; [by apply paired_app|]. by split.
Qed.

(** One transfer of [main.go]: a successful transfer and the successful
    write of the index with the mark, or the events the run breaks off
    with. *)
Lemma transfer_writesEach (title : string) (t : ticket) (a : attachment) :
  writesEach (transfer byTitle w title t a).
Proof.
  intros s.
  unfold transfer, bind, tick, fail, emit, markUploaded, setMem, getMem,
    writeDatabase, setDisk, byTitle.
  rewrite nameOf_last. cbn.
  destruct (openErr _); cbn.
  { exists [], []. cbn. rewrite app_nil_r.
    split; [done|]. split; [constructor|]. split; [by left|done]. }
  destruct (postErr _); cbn.
  { exists [], [PostAttachment title (ticket_Key t) (nameOf a) false].
    split; [done|]. split; [constructor|]. split; [|done].
    right; left. by eexists _, _, _. }
  destruct (postStatusCode _ =? 200); cbn.
  2:{ exists [], [PostAttachment title (ticket_Key t) (nameOf a) false].
      split; [done|]. split; [constructor|]. split; [|done].
      right; left. by eexists _, _, _. }
  destruct (Tickets (mem s) !! title) as [t'|]; cbn.
  2:{ exists [], [PostAttachment title (ticket_Key t) (nameOf a) true].
      split; [done|]. split; [constructor|]. split; [|done].
      right; right; left. by eexists _, _, _. }
  destruct (uploadMarshalErr _); cbn.
  { exists [], [PostAttachment title (ticket_Key t) (nameOf a) true].
    split; [done|]. split; [constructor|]. split; [|done].
    right; right; left. by eexists _, _, _. }
  assert (Hmarked : uploaded (mark title t' (mem s)) title).
  { eexists. split; [apply lookup_insert_eq|done]. }
  unfold mark in Hmarked.
  destruct (uploadWriteErr _); cbn; rewrite <- app_assoc.
  - eexists [], [_; _]. split; [reflexivity|]. split; [constructor|]. split; [|done].
    right; right; right. by eexists _, _, _, _.
  - eexists [_; _], []. split; [reflexivity|].
    split; [by repeat constructor|]. split; [by left|done].
Qed.

Lemma uploadAttachments_writesEach (title : string) (t : ticket) (i : issue)
    (attachments : list attachment) :
  writesEach (uploadAttachments byTitle w title t i attachments).
Proof.
  induction attachments as [|a rest IH]; [apply writesEach_ret|].
  cbn [uploadAttachments]. apply writesEach_bind; [|done].
  destruct (_ =? _); [apply transfer_writesEach|apply writesEach_ret].
Qed.

Lemma uploadTicket_writesEach (title : string) :
  writesEach (uploadTicket byTitle w title).
Proof.
  intros s. unfold uploadTicket.
  destruct (Tickets (mem s) !! title) as [t|]; [|apply writesEach_skip].
  destruct (ticket_Uploaded t); [apply writesEach_skip|].
  destruct (Issues (mem s) !! title) as [i|]; [|apply writesEach_skip].
  apply uploadAttachments_writesEach.
Qed.

Lemma uploadTickets_writesEach (order : list string) :
  writesEach (uploadTickets byTitle w order).
Proof.
  induction order as [|title rest IH]; [apply writesEach_ret|].
  cbn [uploadTickets]. apply writesEach_bind; [apply uploadTicket_writesEach|done].
Qed.

(** The events of a run of [upload]. *)
Lemma upload_writesEach (order : list string) (file : database) :
  exists done rest,
    trace (upload w order (boot (Holds file))).1 = done ++ rest /\
    paired done /\ brokenOff rest /\
    ((upload w order (boot (Holds file))).2 = Ok tt -> rest = []).
Proof.
  assert (Hnone : exists done rest : list event,
            [] = done ++ rest /\ paired done /\ brokenOff rest).
  { exists [], []. split; [done|]. split; [constructor|by left]. }
  unfold upload, uploadWith. cbn [boot disk].
  destruct (uploadClientErr w).
  { destruct Hnone as (done & rest & ? & ? & ?). by exists done, rest. }
  destruct (readFileErr w).
  { destruct Hnone as (done & rest & ? & ? & ?). by exists done, rest. }
  destruct (unmarshalErr w).
  { destruct Hnone as (done & rest & ? & ? & ?). by exists done, rest. }
  unfold bind, setMem. cbn.
  destruct (uploadTickets_writesEach order
              {| mem := file; disk := Holds file; trace := []; clock := 0 |})
    as (done & rest & Ht & Hp & Hb & Hok).
  cbn in Ht. by exists done, rest.
Qed.

End UploadWrites.

Section UploadUnwritten.



End UploadUnwritten.

Section UploadClaims.




(** What a run of [upload] leaves in [database.json] is what the invariant
    says of the file, and its transfers go to tickets pending at its start. *)
Lemma upload_run (w : uploadWorld) (order : list string) (file : database) :
  diskInv file (disk (upload w order (boot (Holds file))).1)
               (trace (upload w order (boot (Holds file))).1) /\
  (forall title key name ok,
     PostAttachment title key name ok ∈ trace (upload w order (boot (Holds file))).1 ->
     pending file title).
Proof.
  destruct (upload_inv file w order) as [-> | Hinv].
  - split; [apply (runInv_init file)|].
    intros title key name ok H. by apply elem_of_nil in H.
  - destruct Hinv as (_ & Hdisk & Hevents & _). split; [done|].
    intros title key name ok H. by destruct (Hevents _ _ _ _ H).
Qed.

(** On a file that holds no index, a run of [upload] does nothing. *)
Lemma upload_no_index (w : uploadWorld) (order : list string) (file : contents) :
  file = Absent \/ file = Torn ->
  (upload w order (boot file)).1 = boot file.
Proof.
  intros [-> | ->]; unfold upload, uploadWith; cbn [boot disk];
    destruct (uploadClientErr w); try done; by destruct (readFileErr w).
Qed.

Lemma reruns_torn (runs : list (uploadWorld * list string)) :
  (reruns runs Torn).2 = [].
Proof.
  induction runs as [|[w order] rest IH]; [done|].
  cbn [reruns]. rewrite (upload_no_index w order Torn) by by right.
  cbn [boot disk trace]. by destruct (reruns rest Torn).
Qed.

(** C6.  Whatever the number of runs of [upload] on the same
    [database.json], whatever the outside answers and in whatever order the
    tickets are visited: every call to [PostAttachment] is made for a ticket
    that was pending in the index the first run started on.  A ticket that
    index has as uploaded gets no transfer in any of the runs. *)
Theorem reruns_transfer_pending_only (runs : list (uploadWorld * list string))
    (file : database) (title key name : string) (ok : bool) :
  PostAttachment title key name ok ∈ (reruns runs (Holds file)).2 ->
  pending file title.
Proof.
  revert file. induction runs as [|[w order] rest IH]; intros file H.
  - by apply elem_of_nil in H.
  - cbn [reruns] in H.
    destruct (upload_run w order file) as (Hdisk & Hevents).
    destruct (disk (upload w order (boot (Holds file))).1) as [|d|] eqn:Hd; [done| |].
    + destruct Hdisk as (Hmore & _).
      destruct (reruns rest (Holds d)) as [file' events] eqn:Hrest.
      cbn in H. apply elem_of_app in H as [H|H].
      * by eapply Hevents.
      * apply (pending_marksMore file d); [done|].
        apply IH. by rewrite Hrest.
    + pose proof (reruns_torn rest) as Hnone.
      destruct (reruns rest Torn) as [file' events]. cbn in H, Hnone. subst events.
      rewrite app_nil_r in H. by eapply Hevents.
Qed.

Lemma reruns_transfer_pending_only_witness : pending twoTickets "Bug X".
Proof.
  apply (reruns_transfer_pending_only
           [(calmWorld, ["Bug X"; "Bug Y"]); (calmWorld, ["Bug Y"; "Bug X"])]
           twoTickets "Bug X" "PROJ-7" "file.png" true).
  vm_compute. apply list_elem_of_here.
Defined.

(** The tickets not yet uploaded are the [N - K] of the specification. *)
Lemma pending_count (file : database) :
  size (filter (fun kt => ticket_Uploaded kt.2 = false) (Tickets file))
  = (size (Tickets file) - size (filter (fun kt => ticket_Uploaded kt.2 = true) (Tickets file)))%nat.
Proof.
  pose proof (map_filter_union_complement
                (fun kt : string * ticket => ticket_Uploaded kt.2 = true) (Tickets file)) as Hunion.
  pose proof (map_disjoint_filter_complement
                (fun kt : string * ticket => ticket_Uploaded kt.2 = true)
                (Tickets file)) as Hdisj.
  apply map_size_disj_union in Hdisj. rewrite Hunion in Hdisj.
  assert (Heq : filter (fun kt : string * ticket => ¬ ticket_Uploaded kt.2 = true) (Tickets file)
                = filter (fun kt : string * ticket => ticket_Uploaded kt.2 = false) (Tickets file)).
  { apply map_filter_ext. intros k t _. cbn. by destruct (ticket_Uploaded t). }
  rewrite Heq in Hdisj. lia.
Qed.

(** In the second copy of [upload], the mark panics whenever the key of the
    ticket is no title of the index. *)
Lemma markUploaded_byKey_panics (title : string) (t : ticket) (s : machine) :
  Tickets (mem s) !! ticket_Key t = None ->
  markUploaded (byKey title t) s = (s, Panic NilPointerDereference).
Proof. intros H. unfold markUploaded, byKey. by rewrite H. Qed.

(** C7, where the code departs from it.  On the index of the scenario, with
    every transfer succeeding, [upload] of [main.go] marks the ticket "Bug X",
    writes the index and returns nil; [upload] of the second copy looks the
    ticket up under its key "PROJ-7", finds nothing under that title and
    panics after the transfer, the ticket still pending in the file. *)
Theorem upload_copies_differ :
  upload calmWorld ["Bug X"] (boot (Holds sampleIndex))
  = ({| mem := sampleUploaded; disk := Holds sampleUploaded;
        trace := [ PostAttachment "Bug X" "PROJ-7" "file.png" true;
                   WriteFile sampleUploaded true ];
        clock := 1 |}, Ok tt)
  /\
  upload_part_001 calmWorld ["Bug X"] (boot (Holds sampleIndex))
  = ({| mem := sampleIndex; disk := Holds sampleIndex;
        trace := [ PostAttachment "Bug X" "PROJ-7" "file.png" true ];
        clock := 1 |}, Panic NilPointerDereference).
Proof. vm_compute. split; reflexivity. Qed.

End UploadClaims.

(* ===================================================================== *)
(** * Part 13: more on the export parser                                  *)
(* ===================================================================== *)

Section ParserMore.

(** The loop over the records of a file, taken in two parts. *)
Lemma processRecords_app (l1 l2 : list rawAttachment) (db : database) :
  processRecords (l1 ++ l2) db =
  match processRecords l1 db with
  | (db1, Ok _) => processRecords l2 db1
  | failed => failed
  end.
Proof.
  revert db. induction l1 as [|a l1 IH]; intros db; [done|].
  cbn [app processRecords].
  destruct (processRecord a) as [[entry|]| | |]; try done; apply IH.
Qed.

Lemma appendAttachment_app (db : database) (new : list attachment) (entry : attachment) :
  appendAttachment {| Attachments := Attachments db ++ new;
                      Issues := Issues db; Tickets := Tickets db |} entry
  = {| Attachments := Attachments db ++ new ++ [entry];
       Issues := Issues db; Tickets := Tickets db |}.
Proof. unfold appendAttachment. cbn. by rewrite app_assoc. Qed.

Lemma database_eta (db : database) :
  db = {| Attachments := Attachments db ++ []; Issues := Issues db; Tickets := Tickets db |}.
Proof. destruct db. cbn. by rewrite app_nil_r. Qed.

Lemma omap_parsed_cons (r : rawAttachment) (records : list rawAttachment)
    (x : option attachment) :
  processRecord r = Ok x ->
  omap parsed (r :: records) = option_list x ++ omap parsed records.
Proof. intros H. simpl. unfold parsed at 1. rewrite H. by destruct x. Qed.

(** What the loop over records has appended when it ends: the attachments
    of the records [seen] it got through, all of them when it ends well. *)
Lemma processRecords_from (records : list rawAttachment) (db : database)
    (sofar : list attachment) :
  exists seen,
    (processRecords records
       {| Attachments := Attachments db ++ sofar;
          Issues := Issues db; Tickets := Tickets db |}).1
    = {| Attachments := Attachments db ++ sofar ++ omap parsed seen;
         Issues := Issues db; Tickets := Tickets db |} /\
    ((processRecords records
        {| Attachments := Attachments db ++ sofar;
           Issues := Issues db; Tickets := Tickets db |}).2 = Ok tt ->
     seen = records).
Proof.
  revert sofar. induction records as [|r records IH]; intros sofar.
  - exists []. cbn. by rewrite app_nil_r.
  - cbn [processRecords].
    destruct (processRecord r) as [[entry|]| | |] eqn:Hr.
    + rewrite appendAttachment_app.
      destruct (IH (sofar ++ [entry])) as (seen & Hdb & Hseen).
      exists (r :: seen). rewrite Hdb. split.
      * rewrite (omap_parsed_cons _ _ _ Hr). cbn. by rewrite <- app_assoc.
      * intros H. by rewrite (Hseen H).
    + destruct (IH sofar) as (seen & Hdb & Hseen).
      exists (r :: seen). rewrite Hdb. split.
      * by rewrite (omap_parsed_cons _ _ _ Hr).
      * intros H. by rewrite (Hseen H).
    + exists []. cbn. by rewrite app_nil_r.
    + exists []. cbn. by rewrite app_nil_r.
    + exists []. cbn. by rewrite app_nil_r.
Qed.

(** X1: the files the parser does not consider play no part in its result. *)
Theorem processEntries_ignores_others (entries : list dirEntry) (db : database) :
  processEntries entries db = processEntries (List.filter considered entries) db.
Proof.
  revert db. induction entries as [|entry rest IH]; intros db; [done|].
  cbn [processEntries List.filter].
  destruct (considered entry) eqn:Hc; [|apply IH].
  cbn [processEntries]. rewrite Hc.
  destruct (entry_read entry); try done.
  destruct (processRecords records db) as [db' [[]| | |]]; by try apply IH.
Qed.

Lemma processEntries_from (entries : list dirEntry) (db : database)
    (sofar : list attachment) :
  exists seen,
    (processEntries entries
       {| Attachments := Attachments db ++ sofar;
          Issues := Issues db; Tickets := Tickets db |}).1
    = {| Attachments := Attachments db ++ sofar ++ omap parsed seen;
         Issues := Issues db; Tickets := Tickets db |} /\
    ((processEntries entries
        {| Attachments := Attachments db ++ sofar;
           Issues := Issues db; Tickets := Tickets db |}).2 = Ok tt ->
     seen = recordsOf entries).
Proof.
  revert sofar. induction entries as [|entry rest IH]; intros sofar.
  - exists []. cbn. by rewrite app_nil_r.
  - cbn [processEntries recordsOf flat_map].
    destruct (considered entry); [|apply IH].
    destruct (entry_read entry) as [e|e|records].
    + exists []. cbn. by rewrite app_nil_r.
    + exists []. cbn. by rewrite app_nil_r.
    + destruct (processRecords_from records db sofar) as (seen1 & Hdb1 & Hseen1).
      destruct (processRecords records _) as [db1 r1]. cbn in Hdb1, Hseen1.
      subst db1. destruct r1 as [[]| | |].
      * destruct (IH (sofar ++ omap parsed seen1)) as (seen2 & Hdb2 & Hseen2).
        exists (seen1 ++ seen2). rewrite Hdb2. split.
        -- by rewrite omap_app, <- !app_assoc.
        -- intros H. by rewrite (Hseen1 eq_refl), (Hseen2 H).
      * by exists seen1.
      * by exists seen1.
      * by exists seen1.
Qed.

Lemma processRecords_seen (records : list rawAttachment) (db : database) :
  exists seen,
    (processRecords records db).1
    = {| Attachments := Attachments db ++ omap parsed seen;
         Issues := Issues db; Tickets := Tickets db |} /\
    ((processRecords records db).2 = Ok tt -> seen = records).
Proof.
  destruct (processRecords_from records db []) as (seen & Hdb & Hseen).
  rewrite <- (database_eta db) in Hdb, Hseen. by exists seen.
Qed.

Lemma processEntries_seen (entries : list dirEntry) (db : database) :
  exists seen,
    (processEntries entries db).1
    = {| Attachments := Attachments db ++ omap parsed seen;
         Issues := Issues db; Tickets := Tickets db |} /\
    ((processEntries entries db).2 = Ok tt -> seen = recordsOf entries).
Proof.
  destruct (processEntries_from entries db []) as (seen & Hdb & Hseen).
  rewrite <- (database_eta db) in Hdb, Hseen. by exists seen.
Qed.

(** What a parse that succeeds leaves in each field of the database. *)
Lemma processAttachments_Ok (entries : list dirEntry) (db db' : database) :
  processAttachments (inr entries) db = (db', Ok tt) ->
  Attachments db' = Attachments db ++ omap parsed (recordsOf entries) /\
  Issues db' = Issues db /\ Tickets db' = Tickets db.
Proof.
  intros H. cbn [processAttachments] in H.
  destruct (processEntries_seen entries db) as (seen & Hdb & Hseen).
  rewrite H in Hdb, Hseen. cbn in Hdb, Hseen. by rewrite Hdb, (Hseen eq_refl).
Qed.

(** X2: a parse that succeeds appends, to the attachments the database had,
    the attachments of the records of the considered files, in the order of
    the directory and of the files, and nothing else; records without
    [issue] and [issue_comment] add nothing.  The issues and the tickets of
    the database stay as they were. *)
Theorem processAttachments_result (entries : list dirEntry) (db db' : database) :
  processAttachments (inr entries) db = (db', Ok tt) ->
  db' = {| Attachments := Attachments db ++ omap parsed (recordsOf entries);
           Issues := Issues db; Tickets := Tickets db |}.
Proof.
  intros H. destruct (processAttachments_Ok entries db db' H) as (Ha & Hi & Ht).
  destruct db'. cbn in Ha, Hi, Ht. by rewrite Ha, Hi, Ht.
Qed.

Lemma processAttachments_result_witness :
  sampleIndexAttachmentsOnly
  = {| Attachments := Attachments emptyDatabase ++
                      omap parsed (recordsOf [ {| entry_Name := "attachments_000001.json";
                                                   entry_read := Decoded [sampleRecord] |} ]);
       Issues := Issues emptyDatabase; Tickets := Tickets emptyDatabase |}.
Proof.
  apply (processAttachments_result
           [ {| entry_Name := "attachments_000001.json";
                entry_read := Decoded [sampleRecord] |} ]
           emptyDatabase sampleIndexAttachmentsOnly).
  vm_compute. reflexivity.
Defined.

Lemma int_of_int64_range (n : Z) : isInt64 (int_of_int64 n).
Proof.
  unfold isInt64, int_of_int64.
  pose proof (Z.mod_pos_bound (n + 2 ^ 63) (2 ^ 64) ltac:(lia)). lia.
Qed.

Lemma run_bind_Ok {A B : Type} (m : run A) (f : A -> run B) (b : B) :
  run_bind m f = Ok b -> exists a, m = Ok a /\ f a = Ok b.
Proof. destruct m as [a| | |]; try done. intros H. by exists a. Qed.

Lemma parseIssueNumber_Ok (value token : string) (n : Z) :
  parseIssueNumber value token = Ok n -> ParseInt token = inl n.
Proof. unfold parseIssueNumber. by destruct (ParseInt token); intros [= ->]. Qed.

Lemma parseCommentNumber_Ok (value token : string) (n : Z) :
  parseCommentNumber value token = Ok n -> ParseInt token = inl n.
Proof. unfold parseCommentNumber. by destruct (ParseInt token); intros [= ->]. Qed.

Lemma processRecord_wellFormed (r : rawAttachment) (a : attachment) :
  processRecord r = Ok (Some a) -> wellFormed a.
Proof.
  unfold processRecord.
  destruct (Issue r =? EmptyString)%string eqn:Hissue; cbn [negb].
  - destruct (IssueComment r =? EmptyString)%string eqn:Hcomment; cbn [negb]; [done|].
    intros H.
    apply run_bind_Ok in H as (lastToken & _ & H).
    apply run_bind_Ok in H as (token & _ & H).
    apply run_bind_Ok in H as (issueNumber & _ & H).
    apply run_bind_Ok in H as (fragment & _ & H).
    apply run_bind_Ok in H as (ctoken & _ & H).
    apply run_bind_Ok in H as (commentNumber & Hc%parseCommentNumber_Ok & H).
    apply run_bind_Ok in H as (path & _ & H).
    injection H as <-. unfold wellFormed. cbn.
    split; [by apply String.eqb_neq|].
    split; [apply int_of_int64_range|].
    split; [by apply ParseInt_int64 in Hc|by right].
  - intros H.
    apply run_bind_Ok in H as (token & _ & H).
    apply run_bind_Ok in H as (issueNumber & _ & H).
    apply run_bind_Ok in H as (path & _ & H).
    injection H as <-. unfold wellFormed. cbn.
    split; [by apply String.eqb_neq|].
    split; [apply int_of_int64_range|].
    split; [unfold isInt64; lia|by left].
Qed.

Lemma omap_parsed_wellFormed (records : list rawAttachment) :
  Forall wellFormed (omap parsed records).
Proof.
  induction records as [|r records IH]; [constructor|].
  simpl. unfold parsed at 1.
  destruct (processRecord r) as [[a|]| | |] eqn:Hr; try done.
  constructor; [by eapply processRecord_wellFormed|done].
Qed.

(** X3: however the parse ends, it has only appended to the attachments of
    the database, every attachment it appended is of one of the two kinds,
    carries the URL of the field it was read from and numbers that fit
    their Go types, and the issues and the tickets are untouched. *)
Theorem processAttachments_appends (stage : error + list dirEntry) (db : database) :
  exists new,
    Attachments (processAttachments stage db).1 = Attachments db ++ new /\
    Forall wellFormed new /\
    Issues (processAttachments stage db).1 = Issues db /\
    Tickets (processAttachments stage db).1 = Tickets db.
Proof.
  destruct stage as [e|entries]; cbn [processAttachments].
  - exists []. cbn. by rewrite app_nil_r.
  - destruct (processEntries_seen entries db) as (seen & Hdb & _).
    exists (omap parsed seen). rewrite Hdb. cbn.
    split; [done|]. split; [apply omap_parsed_wellFormed|done].
Qed.

(** X4: the parse stops at the first record it cannot read, with the error
    of that record; the attachments of the records before it are appended,
    the records after it are not looked at. *)
Theorem processRecords_first_failure (before after : list rawAttachment)
    (a : rawAttachment) (e : error) (db : database) :
  Forall (fun r => exists x, processRecord r = Ok x) before ->
  processRecord a = Fail e ->
  processRecords (before ++ a :: after) db
  = ({| Attachments := Attachments db ++ omap parsed before;
        Issues := Issues db; Tickets := Tickets db |}, Fail e).
Proof.
  intros Hbefore Ha. rewrite processRecords_app.
  assert (Hok : (processRecords before db).2 = Ok tt).
  { clear -Hbefore. revert db. induction Hbefore as [|r before [x Hr] _ IH]; intros db; [done|].
    cbn [processRecords]. rewrite Hr. destruct x; apply IH. }
  destruct (processRecords_seen before db) as (seen & Hdb & Hseen).
  destruct (processRecords before db) as [db1 r1]. cbn in Hok, Hdb, Hseen. subst.
  cbn [processRecords]. rewrite Ha. by rewrite (Hseen eq_refl).
Qed.

Lemma processRecords_first_failure_witness :
  processRecords
    ([sampleRecord] ++
     {| Issue := "https://github.com/o/r/issues/x1";
        IssueComment := EmptyString;
        AssetURL := "https://host/a/b/file.png" |} :: [sampleRecord])
    emptyDatabase
  = ({| Attachments := Attachments emptyDatabase ++ omap parsed [sampleRecord];
        Issues := Issues emptyDatabase; Tickets := Tickets emptyDatabase |},
     Fail (Errorf "error parsing issue number from %s: %s"
             [inl "https://github.com/o/r/issues/x1";
              inr (NumError "ParseInt" "x1" ErrSyntax)])).
Proof.
  apply (processRecords_first_failure [sampleRecord] [sampleRecord]).
  - constructor; [|constructor]. eexists. reflexivity.
  - reflexivity.
Defined.

End ParserMore.

Section ParserClaims.

(** The loop over the files, taken in two parts. *)
Lemma processEntries_app (l1 l2 : list dirEntry) (db : database) :
  processEntries (l1 ++ l2) db =
  match processEntries l1 db with
  | (db1, Ok _) => processEntries l2 db1
  | failed => failed
  end.
Proof.
  revert db. induction l1 as [|entry l1 IH]; intros db; [done|].
  cbn [app processEntries].
  destruct (considered entry); [|apply IH].
  destruct (entry_read entry) as [e|e|records]; try done.
  destruct (processRecords records db) as [db1 [[]| | |]]; by try apply IH.
Qed.

(** The parser at a record it reaches: the files before the file of the
    record and the records before it in its file were read without an
    error.  The attachment of the record is appended to the attachments of
    the database, right after those of the records before it, and stays
    there whatever the records and the files after it do. *)
Lemma parser_reaches (pre post : list dirEntry) (e : dirEntry)
    (before after : list rawAttachment) (r : rawAttachment) (a : attachment)
    (db : database) :
  considered e = true ->
  entry_read e = Decoded (before ++ r :: after) ->
  (processEntries pre db).2 = Ok tt ->
  (processRecords before (processEntries pre db).1).2 = Ok tt ->
  processRecord r = Ok (Some a) ->
  exists later,
    Attachments (processAttachments (inr (pre ++ e :: post)) db).1
    = Attachments db ++ omap parsed (recordsOf pre ++ before) ++ a :: later.
Proof.
  intros Hconsidered Hread Hpre Hbefore Hr.
  cbn [processAttachments]. rewrite processEntries_app.
  destruct (processEntries_seen pre db) as (seen1 & Hdb1 & Hseen1).
  destruct (processEntries pre db) as [db1 r1]. cbn in Hpre, Hbefore, Hdb1, Hseen1.
  subst r1. specialize (Hseen1 eq_refl). subst seen1.
  cbn [processEntries]. rewrite Hconsidered, Hread, processRecords_app.
  destruct (processRecords_seen before db1) as (seen2 & Hdb2 & Hseen2).
  destruct (processRecords before db1) as [db2 r2]. cbn in Hbefore, Hdb2, Hseen2.
  subst r2. specialize (Hseen2 eq_refl). subst seen2.
  cbn [processRecords]. rewrite Hr.
  assert (Hhere : Attachments (appendAttachment db2 a)
                  = Attachments db ++ omap parsed (recordsOf pre ++ before) ++ [a]).
  { rewrite Hdb2, Hdb1. cbn. by rewrite omap_app, <- !app_assoc. }
  destruct (processRecords_seen after (appendAttachment db2 a)) as (seen3 & Hdb3 & _).
  destruct (processRecords after (appendAttachment db2 a)) as [db3 r3]. cbn [fst] in Hdb3.
  assert (Hthere : Attachments db3
                   = Attachments db ++ omap parsed (recordsOf pre ++ before) ++
                     a :: omap parsed seen3).
  { rewrite Hdb3. cbn [Attachments]. rewrite Hhere. by rewrite <- !app_assoc. }
  destruct r3 as [[]| | |]; try by exists (omap parsed seen3).
  destruct (processEntries_seen post db3) as (seen4 & Hdb4 & _).
  exists (omap parsed seen3 ++ omap parsed seen4).
  rewrite Hdb4. cbn [Attachments]. rewrite Hthere. by rewrite <- !app_assoc.
Qed.

(** C1.  An export record whose [issue] is not empty, whose last
    "/"-separated segment of [issue] is a decimal integer [n] and whose
    [asset_url] is made of at least three segments: when the parser reaches
    it in a file it considers, it appends to [db.Attachments], right after
    the attachments of the records before, an attachment of kind "issue"
    with issue number [n] and with the segments of [asset_url] from the
    fourth on, joined with "/", as its path; the attachment stays there
    however the rest of the parse goes. *)
Theorem issue_record_parsed (pre post : list dirEntry) (e : dirEntry)
    (before after : list rawAttachment) (r : rawAttachment)
    (segs toks : list string) (seg : string) (n : Z) (db : database) :
  Issue r <> EmptyString ->
  Issue r = Join (segs ++ [seg]) "/" ->
  ParseInt seg = inl n ->
  AssetURL r = Join toks "/" ->
  Forall segment toks ->
  (3 <= length toks)%nat ->
  considered e = true ->
  entry_read e = Decoded (before ++ r :: after) ->
  (processEntries pre db).2 = Ok tt ->
  (processRecords before (processEntries pre db).1).2 = Ok tt ->
  exists later,
    Attachments (processAttachments (inr (pre ++ e :: post)) db).1
    = Attachments db ++ omap parsed (recordsOf pre ++ before) ++
      {| attachment_Type := "issue";
         attachment_URL := Issue r;
         attachment_IssueNumber := n;
         attachment_CommentNumber := 0;
         attachment_Path := Join (drop 3 toks) "/" |} :: later.
Proof.
  intros Hne Hissue Hint Hasset Hsegs Hlen Hconsidered Hread Hpre Hbefore.
  apply (parser_reaches pre post e before after r); try done.
  by apply (processRecord_issue_record r segs toks seg n).
Qed.

Lemma issue_record_parsed_witness :
  exists later,
    Attachments (processAttachments
                   (inr ([schemaFile] ++ fileOf ([sampleRecord] ++ otherRecord :: [badRecord])
                           :: [fileOf [sampleRecord]]))
                   emptyDatabase).1
    = Attachments emptyDatabase ++ omap parsed (recordsOf [schemaFile] ++ [sampleRecord]) ++
      {| attachment_Type := "issue";
         attachment_URL := Issue otherRecord;
         attachment_IssueNumber := 43;
         attachment_CommentNumber := 0;
         attachment_Path := Join (drop 3 ["https:"; EmptyString; "host"; "a"; "c"; "other.png"])
                                 "/" |} :: later.
Proof.
  apply (issue_record_parsed [schemaFile] [fileOf [sampleRecord]]
           (fileOf ([sampleRecord] ++ otherRecord :: [badRecord]))
           [sampleRecord] [badRecord] otherRecord
           ["https:"; EmptyString; "github.com"; "o"; "r"; "issues"]
           ["https:"; EmptyString; "host"; "a"; "c"; "other.png"]
           "43" 43 emptyDatabase).
  - discriminate.
  - reflexivity.
  - reflexivity.
  - reflexivity.
  - repeat constructor.
  - simpl. lia.
  - reflexivity.
  - reflexivity.
  - reflexivity.
  - reflexivity.
Defined.




End ParserClaims.

(* ===================================================================== *)
(** * Part 14: more on the listers and on [collect]                       *)
(* ===================================================================== *)

Section MemFacts.

Context {P : database -> Prop}.

Lemma keepsMem_ret {A : Type} (a : A) : keepsMem P (ret a).
Proof. by intros s. Qed.

Lemma keepsMem_fail {A : Type} (e : error) : keepsMem P (@fail A e).
Proof. by intros s. Qed.

Lemma keepsMem_crash {A : Type} (p : panic) : keepsMem P (@crash A p).
Proof. by intros s. Qed.

Lemma keepsMem_stuck {A : Type} : keepsMem P (fun s => (s, @OutOfFuel A)).
Proof. by intros s. Qed.

Lemma keepsMem_emit (ev : event) : keepsMem P (emit ev).
Proof. by intros s. Qed.

Lemma keepsMem_setDisk (file : contents) : keepsMem P (setDisk file).
Proof. by intros s. Qed.

Lemma keepsMem_writeDatabase (db : database) (failure : option writeFailure) :
  keepsMem P (writeDatabase db failure).
Proof. by intros s. Qed.

Lemma keepsMem_bind {A B : Type} (m : M A) (f : A -> M B) :
  keepsMem P m -> (forall a, keepsMem P (f a)) -> keepsMem P (bind m f).
Proof.
  intros Hm Hf s HP. unfold bind. specialize (Hm s HP).
  destruct (m s) as [s' [a| | |]]; try done. by apply Hf.
Qed.

Lemma keepsMem_wrap (format : string) (m : M unit) :
  keepsMem P m -> keepsMem P (wrap format m).
Proof.
  intros Hm s HP. unfold wrap. specialize (Hm s HP).
  by destruct (m s) as [s' [a| | |]].
Qed.

(** Reading the database, storing a changed one, and going on. *)
Lemma keepsMem_update {B : Type} (f : database -> database) (k : M B) :
  (forall db, P db -> P (f db)) -> keepsMem P k ->
  keepsMem P (bind getMem (fun db => bind (setMem (f db)) (fun _ => k))).
Proof. intros Hf Hk s HP. unfold bind, getMem, setMem. cbn. apply Hk. cbn. by apply Hf. Qed.

End MemFacts.

Section DiskFacts.

Lemma keepsDisk_ret {A : Type} (a : A) : keepsDisk (ret a).
Proof. by intros s. Qed.

Lemma keepsDisk_fail {A : Type} (e : error) : keepsDisk (@fail A e).
Proof. by intros s. Qed.

Lemma keepsDisk_crash {A : Type} (p : panic) : keepsDisk (@crash A p).
Proof. by intros s. Qed.

Lemma keepsDisk_stuck {A : Type} : keepsDisk (fun s => (s, @OutOfFuel A)).
Proof. by intros s. Qed.

Lemma keepsDisk_emit (ev : event) : keepsDisk (emit ev).
Proof. by intros s. Qed.

Lemma keepsDisk_setMem (db : database) : keepsDisk (setMem db).
Proof. by intros s. Qed.

Lemma keepsDisk_getMem : keepsDisk getMem.
Proof. by intros s. Qed.

Lemma keepsDisk_bind {A B : Type} (m : M A) (f : A -> M B) :
  keepsDisk m -> (forall a, keepsDisk (f a)) -> keepsDisk (bind m f).
Proof.
  intros Hm Hf s. unfold bind. specialize (Hm s).
  destruct (m s) as [s' [a| | |]]; try done. cbn in Hm. rewrite <- Hm. apply Hf.
Qed.

Lemma keepsDisk_wrap (format : string) (m : M unit) :
  keepsDisk m -> keepsDisk (wrap format m).
Proof.
  intros Hm s. unfold wrap. specialize (Hm s).
  by destruct (m s) as [s' [a| | |]].
Qed.

End DiskFacts.

Ltac keeps :=
  repeat first
    [ apply keepsDisk_ret | apply keepsDisk_fail | apply keepsDisk_crash
    | apply keepsDisk_stuck | apply keepsDisk_setMem | apply keepsDisk_getMem
    | apply keepsDisk_emit | apply keepsDisk_wrap
    | apply keepsDisk_bind; [|intros ?]
    | apply keepsMem_ret | apply keepsMem_fail | apply keepsMem_crash
    | apply keepsMem_stuck | apply keepsMem_emit | apply keepsMem_setDisk
    | apply keepsMem_wrap
    | apply keepsMem_update; [done|]
    | apply keepsMem_bind; [|intros ?] ].

Section BindFacts.

(** A sequence that ends well: so did its first part. *)
Lemma bind_Ok {A B : Type} (m : M A) (f : A -> M B) (s s' : machine) (b : B) :
  bind m f s = (s', Ok b) ->
  exists s1 a, m s = (s1, Ok a) /\ f a s1 = (s', Ok b).
Proof.
  unfold bind. destruct (m s) as [s1 [a| | |]]; try done. intros H. by exists s1, a.
Qed.

Lemma wrap_Ok (format : string) (m : M unit) (s s' : machine) :
  wrap format m s = (s', Ok tt) -> m s = (s', Ok tt).
Proof. unfold wrap. by destruct (m s) as [s1 [[]| | |]]. Qed.

End BindFacts.

Section StoreFacts.

Lemma storeIssues_snoc (issues : list ghIssue) (i : ghIssue) (db : database) :
  Issues (storeIssues (issues ++ [i]) db)
  = <[gh_Title i := issueEntry i]> (Issues (storeIssues issues db)).
Proof. unfold storeIssues. cbn. by rewrite foldl_app. Qed.

Lemma storeIssues_app (l1 l2 : list ghIssue) (db : database) :
  storeIssues (l1 ++ l2) db = storeIssues l2 (storeIssues l1 db).
Proof. unfold storeIssues. cbn. by rewrite foldl_app. Qed.

Lemma storeTickets_snoc (issues : list jiraIssue) (i : jiraIssue) (db : database) :
  Tickets (storeTickets (issues ++ [i]) db)
  = <[jira_Summary i := ticketEntry i]> (Tickets (storeTickets issues db)).
Proof. unfold storeTickets. cbn. by rewrite foldl_app. Qed.

Lemma storeTickets_app (l1 l2 : list jiraIssue) (db : database) :
  storeTickets (l1 ++ l2) db = storeTickets l2 (storeTickets l1 db).
Proof. unfold storeTickets. cbn. by rewrite foldl_app. Qed.

Lemma filter_snoc {A : Type} (f : A -> bool) (l : list A) (x : A) :
  List.filter f (l ++ [x]) = List.filter f l ++ (if f x then [x] else []).
Proof. by rewrite List.filter_app. Qed.

(** X5: issues with the same title overwrite one another, and the last one
    of the page stays; a title no issue of the page has keeps the entry it
    had. *)
Theorem storeIssues_last_wins (issues : list ghIssue) (db : database) (title : string) :
  Issues (storeIssues issues db) !! title =
  match last (List.filter (fun i => String.eqb (gh_Title i) title) issues) with
  | Some i => Some (issueEntry i)
  | None => Issues db !! title
  end.
Proof.
  induction issues as [|i issues IH] using rev_ind; [done|].
  rewrite storeIssues_snoc, filter_snoc.
  destruct (String.eqb_spec (gh_Title i) title) as [<-|Hne].
  - by rewrite last_snoc, lookup_insert_eq.
  - by rewrite app_nil_r, lookup_insert_ne.
Qed.

(** X6: tickets with the same summary overwrite one another, the last one
    of the page stays, and it is pending whatever the entry before was; a
    summary no ticket of the page has keeps the entry it had. *)
Theorem storeTickets_last_wins (issues : list jiraIssue) (db : database) (title : string) :
  Tickets (storeTickets issues db) !! title =
  match last (List.filter (fun i => String.eqb (jira_Summary i) title) issues) with
  | Some i => Some {| ticket_Key := jira_Key i; ticket_Uploaded := false |}
  | None => Tickets db !! title
  end.
Proof.
  induction issues as [|i issues IH] using rev_ind; [done|].
  rewrite storeTickets_snoc, filter_snoc.
  destruct (String.eqb_spec (jira_Summary i) title) as [<-|Hne].
  - by rewrite last_snoc, lookup_insert_eq.
  - by rewrite app_nil_r, lookup_insert_ne.
Qed.

(** A ticket that is marked after a page was stored is an entry the
    database had. *)
Lemma storeTickets_marked_old (issues : list jiraIssue) (db : database)
    (title : string) (t : ticket) :
  Tickets (storeTickets issues db) !! title = Some t ->
  ticket_Uploaded t = true ->
  Tickets db !! title = Some t.
Proof.
  induction issues as [|i issues IH] using rev_ind; [done|].
  rewrite storeTickets_snoc.
  destruct (decide (jira_Summary i = title)) as [<-|Hne].
  - rewrite lookup_insert_eq. by intros [= <-].
  - by rewrite lookup_insert_ne.
Qed.

Lemma storeTickets_allPending (issues : list jiraIssue) (db : database) :
  allPending db -> allPending (storeTickets issues db).
Proof.
  intros Hdb title t Ht. destruct (ticket_Uploaded t) eqn:Hflag; [|done].
  rewrite <- Hflag. apply (Hdb title). by apply (storeTickets_marked_old issues).
Qed.

End StoreFacts.

Section Pagination.

Lemma pageNumbers_S (first : Z) (n : nat) :
  pageNumbers first (S n) = first :: pageNumbers (first + 1) n.
Proof.
  unfold pageNumbers. cbn [seq fmap list_fmap]. rewrite Z.add_0_r. f_equal.
  rewrite <- seq_shift, <- list_fmap_compose.
  apply list_fmap_ext. intros _ k _. cbn. lia.
Qed.

Lemma pageOffsets_S (first size : Z) (n : nat) :
  pageOffsets first size (S n) = first :: pageOffsets (first + size) size n.
Proof.
  unfold pageOffsets. cbn [seq fmap list_fmap]. rewrite Z.add_0_r. f_equal.
  rewrite <- seq_shift, <- list_fmap_compose.
  apply list_fmap_ext. intros _ k _. cbn. lia.
Qed.

Lemma servesPages_tail (client : Z -> ghPage) (first : Z) (p : list ghIssue)
    (rest : list (list ghIssue)) :
  servesPages client first (p :: rest) -> servesPages client (first + 1) rest.
Proof.
  intros H k issues Hk. specialize (H (S k) issues Hk).
  replace (first + 1 + Z.of_nat k) with (first + Z.of_nat (S k)) by lia.
  destruct H as (H1 & H2 & resp & H3 & H4). split; [done|]. split; [done|].
  exists resp. split; [done|]. rewrite H4. cbn [length].
  destruct (decide (S (S k) = S (length rest))), (decide (S k = length rest)); lia.
Qed.

(** X7: when GitHub serves [n] pages without an error, numbered from
    [first] on, each naming the next and the last one naming none, the
    lister asks for these [n] pages in order, once each, returns nil, and
    has stored the issues of all pages in the order they came (so that of
    two issues with one title the later one stays). *)
Theorem processIssues_pages (client : Z -> ghPage) (org repo : string) (first : Z)
    (pages : list (list ghIssue)) (fuel : nat) (s : machine) :
  pages <> [] ->
  servesPages client first pages ->
  0 < first ->
  (length pages <= fuel)%nat ->
  processIssues fuel client org repo first s
  = ({| mem := storeIssues (concat pages) (mem s);
        disk := disk s;
        trace := trace s ++ (ListByRepo org repo <$> pageNumbers first (length pages));
        clock := clock s |}, Ok tt).
Proof.
  revert first fuel s. induction pages as [|p rest IH]; intros first fuel s Hne Hserve Hfirst Hfuel;
    [done|].
  destruct fuel as [|fuel]; [cbn in Hfuel; lia|].
  destruct (Hserve 0%nat p eq_refl) as (Hissues & Herr & resp & Hresp & Hnext).
  cbn [Z.of_nat] in Hissues, Herr, Hresp, Hnext. rewrite Z.add_0_r in Hissues, Herr, Hresp, Hnext.
  change (length (p :: rest)) with (S (length rest)). rewrite pageNumbers_S.
  cbn [concat]. rewrite storeIssues_app.
  remember (pageNumbers (first + 1) (length rest)) as numbers eqn:Hnumbers.
  remember (storeIssues (concat rest) (storeIssues p (mem s))) as stored eqn:Hstored.
  cbn [processIssues]. unfold bind at 1. unfold emit at 1. cbn.
  rewrite Herr, Hresp. unfold bind, getMem, setMem. cbn. rewrite Hissues, Hnext.
  destruct (decide (1%nat = length (p :: rest))) as [Hlen|Hlen].
  - assert (rest = []) as -> by (apply nil_length_inv; cbn in Hlen; lia).
    subst. cbn. unfold ret. try rewrite app_nil_r. reflexivity.
  - assert (Hrest : rest <> []) by (intros ->; by cbn in Hlen).
    assert (Hnz : (first + 1 =? 0) = false) by (apply Z.eqb_neq; lia).
    rewrite Hnz.
    rewrite (IH (first + 1) fuel); [| done | by eapply servesPages_tail | lia | cbn in *; lia].
    subst. cbn [mem disk trace clock]. by rewrite <- app_assoc.
Qed.

Lemma processIssues_pages_witness :
  processIssues 1 sampleGitHub "o" "r" 1 (boot Absent)
  = ({| mem := storeIssues (concat [gh_issues (sampleGitHub 1)]) (mem (boot Absent));
        disk := disk (boot Absent);
        trace := trace (boot Absent) ++ (ListByRepo "o" "r" <$> pageNumbers 1 1);
        clock := clock (boot Absent) |}, Ok tt).
Proof.
  apply (processIssues_pages sampleGitHub "o" "r" 1 [gh_issues (sampleGitHub 1)] 1 (boot Absent)).
  - discriminate.
  - intros [|k] issues Hk; [|done]. injection Hk as <-.
    split; [reflexivity|]. split; [reflexivity|].
    eexists. split; reflexivity.
  - lia.
  - simpl. lia.
Defined.

Lemma servesTickets_tail (search : Z -> jiraPage) (first size total : Z)
    (p : list jiraIssue) (rest : list (list jiraIssue)) :
  servesTickets search first size total (p :: rest) ->
  servesTickets search (first + size) size total rest.
Proof.
  intros H k issues Hk. specialize (H (S k) issues Hk).
  replace (first + size + Z.of_nat k * size) with (first + Z.of_nat (S k) * size) by lia.
  done.
Qed.

(** X8: when JIRA serves [n] pages of [size] tickets without an error, from
    the offset [first] on, out of [total] tickets of which the last page
    holds the last, the lister asks for the offsets [first], [first + size],
    ... in order, once each, returns nil, and has stored the tickets of all
    pages in the order they came. *)
Theorem processTickets_pages (search : Z -> jiraPage) (key : string)
    (first size total : Z) (pages : list (list jiraIssue)) (fuel : nat) (s : machine) :
  pages <> [] ->
  servesTickets search first size total pages ->
  0 < size ->
  - 2 ^ 63 <= first ->
  first + Z.of_nat (length pages) * size < 2 ^ 63 ->
  first + (Z.of_nat (length pages) - 1) * size < total <= first + Z.of_nat (length pages) * size ->
  (length pages <= fuel)%nat ->
  processTickets fuel (Some search) key first s
  = ({| mem := storeTickets (concat pages) (mem s);
        disk := disk s;
        trace := trace s ++ (Search ("project=" +:+ key) <$>
                             pageOffsets first size (length pages));
        clock := clock s |}, Ok tt).
Proof.
  revert first fuel s.
  induction pages as [|p rest IH];
    intros first fuel s Hne Hserve Hsize Hlow Hhigh Htotal Hfuel; [done|].
  destruct fuel as [|fuel]; [cbn in Hfuel; lia|].
  destruct (Hserve 0%nat p eq_refl) as (Hissues & Herr & resp & Hresp & Hstart & Hmax & Htot).
  cbn [Z.of_nat] in Hissues, Herr, Hresp, Hstart.
  rewrite Z.mul_0_l, Z.add_0_r in Hissues, Herr, Hresp, Hstart.
  cbn [length] in Hhigh, Htotal, Hfuel.
  change (length (p :: rest)) with (S (length rest)). rewrite pageOffsets_S.
  cbn [concat]. rewrite storeTickets_app.
  remember (pageOffsets (first + size) size (length rest)) as offsets eqn:Hoffsets.
  remember (storeTickets (concat rest) (storeTickets p (mem s))) as stored eqn:Hstored.
  cbn [processTickets]. unfold bind at 1. unfold emit at 1. cbn.
  rewrite Herr, Hresp. unfold bind, getMem, setMem. cbn.
  rewrite Hissues, Hstart, Hmax, Htot.
  assert (Hadd : int_add first size = first + size).
  { apply int_of_int64_id. nia. }
  rewrite Hadd.
  destruct rest as [|p' rest'].
  - cbn [length] in Htotal.
    assert (Hlast : (total <=? first + size) = true) by (apply Z.leb_le; lia).
    rewrite Hlast. subst. cbn. unfold ret. try rewrite app_nil_r. reflexivity.
  - assert (Hmore : (total <=? first + size) = false).
    { apply Z.leb_gt. cbn [length] in Htotal. nia. }
    rewrite Hmore.
    rewrite (IH (first + size) fuel);
      [| done | by eapply servesTickets_tail | done | lia
       | cbn [length] in *; lia | cbn [length] in *; lia | cbn in *; lia].
    subst. cbn [mem disk trace clock]. by rewrite <- app_assoc.
Qed.

Lemma processTickets_pages_witness :
  processTickets 1 (Some sampleJIRA) "PROJ" 0 (boot Absent)
  = ({| mem := storeTickets (concat [jira_issues (sampleJIRA 0)]) (mem (boot Absent));
        disk := disk (boot Absent);
        trace := trace (boot Absent) ++ (Search ("project=" +:+ "PROJ") <$>
                                       pageOffsets 0 1000 1);
        clock := clock (boot Absent) |}, Ok tt).
Proof.
  apply (processTickets_pages sampleJIRA "PROJ" 0 1000 1 [jira_issues (sampleJIRA 0)] 1
           (boot Absent)).
  - discriminate.
  - intros [|k] issues Hk; [|done]. injection Hk as <-.
    split; [reflexivity|]. split; [reflexivity|].
    eexists. repeat split; reflexivity.
  - lia.
  - lia.
  - simpl. lia.
  - simpl. lia.
  - simpl. lia.
Defined.

(** X9: a page that reports no tickets per page ([MaxResults = 0]) while
    more are left makes the ticket lister ask for the same offset again:
    the loop does not end, whatever the number of rounds it is given. *)
Theorem processTickets_zero_page_size (issues : list jiraIssue)
    (status first total : Z) (key : string) (fuel : nat) (s : machine) :
  - 2 ^ 63 <= first < total ->
  first < 2 ^ 63 ->
  (processTickets fuel
     (Some (fun _ => {| jira_issues := issues;
                        jira_resp := Some {| jira_StatusCode := status;
                                             jira_StartAt := first;
                                             jira_MaxResults := 0;
                                             jira_Total := total |};
                        jira_err := None |}))
     key first s).2 = OutOfFuel /\
  trace (processTickets fuel
           (Some (fun _ => {| jira_issues := issues;
                              jira_resp := Some {| jira_StatusCode := status;
                                                   jira_StartAt := first;
                                                   jira_MaxResults := 0;
                                                   jira_Total := total |};
                              jira_err := None |}))
           key first s).1
  = trace s ++ replicate fuel (Search ("project=" +:+ key) first).
Proof.
  intros Hfirst Hhigh. revert s. induction fuel as [|fuel IH]; intros s.
  - cbn. by rewrite app_nil_r.
  - cbn [processTickets]. unfold bind, emit, getMem, setMem. cbn.
    assert (Hadd : int_add first 0 = first).
    { unfold int_add. rewrite Z.add_0_r. apply int_of_int64_id. lia. }
    rewrite Hadd.
    assert (Hmore : (total <=? first) = false) by (apply Z.leb_gt; lia).
    rewrite Hmore.
    destruct (IH {| mem := storeTickets issues (mem s); disk := disk s;
                    trace := trace s ++ [Search ("project=" +:+ key) first];
                    clock := clock s |}) as (Hr & Ht).
    split; [done|]. rewrite Ht. cbn. by rewrite <- app_assoc.
Qed.

Lemma processTickets_zero_page_size_witness :
  (processTickets 3
     (Some (fun _ => {| jira_issues := [];
                        jira_resp := Some {| jira_StatusCode := 200;
                                             jira_StartAt := 0;
                                             jira_MaxResults := 0;
                                             jira_Total := 5 |};
                        jira_err := None |}))
     "PROJ" 0 (boot Absent)).2 = OutOfFuel.
Proof.
  apply (proj1 (processTickets_zero_page_size [] 200 0 5 "PROJ" 3 (boot Absent)
                  ltac:(lia) ltac:(lia))).
Defined.

End Pagination.

Section ListerFacts.

Lemma emitsOnly_weaken {A : Type} (P Q : event -> Prop) (m : M A) :
  (forall ev, P ev -> Q ev) -> emitsOnly P m -> emitsOnly Q m.
Proof.
  intros HPQ Hm s. destruct (Hm s) as (evs & Ht & Hevs). exists evs.
  split; [done|]. by eapply Forall_impl.
Qed.

Lemma emitsOnly_bind_stops {A B : Type} (P : event -> Prop) (m : M A) (f : A -> M B) :
  emitsOnly P m -> (forall s a, (m s).2 <> Ok a) -> emitsOnly P (bind m f).
Proof.
  intros Hm Hstop s. unfold bind. specialize (Hm s). specialize (Hstop s).
  destruct (m s) as [s' [a| | |]]; try done. by destruct (Hstop a).
Qed.

Lemma processIssues_events (fuel : nat) (client : Z -> ghPage) (org repo : string)
    (page : Z) :
  emitsOnly (fun ev => exists p, ev = ListByRepo org repo p)
            (processIssues fuel client org repo page).
Proof.
  revert page. induction fuel as [|fuel IH]; intros page; cbn [processIssues]; [emits|].
  apply emitsOnly_bind; [apply emitsOnly_emit; by eexists|intros _].
  destruct (gh_err (client page)), (gh_resp (client page)); emits.
  - destruct (_ =? _); emits.
  - destruct (_ =? _); [emits|apply IH].
Qed.

Lemma processTickets_events (fuel : nat) (client : option (Z -> jiraPage))
    (key : string) (startAt : Z) :
  emitsOnly (fun ev => exists a, ev = Search ("project=" +:+ key) a)
            (processTickets fuel client key startAt).
Proof.
  revert startAt. induction fuel as [|fuel IH]; intros startAt;
    cbn [processTickets]; [emits|].
  destruct client as [search|]; [|emits].
  apply emitsOnly_bind; [apply emitsOnly_emit; by eexists|intros _].
  destruct (jira_err (search startAt)), (jira_resp (search startAt)); emits.
  destruct (_ <=? _); [emits|apply IH].
Qed.

Lemma processIssues_keepsDisk (fuel : nat) (client : Z -> ghPage) (org repo : string)
    (page : Z) :
  keepsDisk (processIssues fuel client org repo page).
Proof.
  revert page. induction fuel as [|fuel IH]; intros page; cbn [processIssues]; [keeps|].
  keeps.
  destruct (gh_err (client page)), (gh_resp (client page)); keeps.
  - destruct (_ =? _); keeps.
  - destruct (_ =? _); [keeps|apply IH].
Qed.

Lemma processTickets_keepsDisk (fuel : nat) (client : option (Z -> jiraPage))
    (key : string) (startAt : Z) :
  keepsDisk (processTickets fuel client key startAt).
Proof.
  revert startAt. induction fuel as [|fuel IH]; intros startAt;
    cbn [processTickets]; [keeps|].
  destruct client as [search|]; keeps.
  destruct (jira_err (search startAt)), (jira_resp (search startAt)); keeps.
  destruct (_ <=? _); [keeps|apply IH].
Qed.

Lemma processIssues_keepsMem (P : database -> Prop) (fuel : nat) (client : Z -> ghPage)
    (org repo : string) (page : Z) :
  (forall issues db, P db -> P (storeIssues issues db)) ->
  keepsMem P (processIssues fuel client org repo page).
Proof.
  intros HP. revert page. induction fuel as [|fuel IH]; intros page;
    cbn [processIssues]; [by intros s|].
  apply keepsMem_bind; [by intros s|intros _].
  destruct (gh_err (client page)), (gh_resp (client page)); try by intros s.
  - destruct (_ =? _); by intros s.
  - apply keepsMem_update; [apply HP|].
    destruct (_ =? _); [by intros s|apply IH].
Qed.

Lemma processTickets_keepsMem (P : database -> Prop) (fuel : nat)
    (client : option (Z -> jiraPage)) (key : string) (startAt : Z) :
  (forall issues db, P db -> P (storeTickets issues db)) ->
  keepsMem P (processTickets fuel client key startAt).
Proof.
  intros HP. revert startAt. induction fuel as [|fuel IH]; intros startAt;
    cbn [processTickets]; [by intros s|].
  destruct client as [search|]; [|by intros s].
  apply keepsMem_bind; [by intros s|intros _].
  destruct (jira_err (search startAt)), (jira_resp (search startAt)); try by intros s.
  apply keepsMem_update; [apply HP|].
  destruct (_ <=? _); [by intros s|apply IH].
Qed.

(** X10: the issue lister changes nothing but the issues of the index: the
    attachments and the tickets in memory, and [database.json], are after
    it what they were before, however it ends; and all it does to the
    outside is to list issues of the repository it was given. *)
Theorem processIssues_touches_issues_only (fuel : nat) (client : Z -> ghPage)
    (org repo : string) (page : Z) (s : machine) :
  Attachments (mem (processIssues fuel client org repo page s).1) = Attachments (mem s) /\
  Tickets (mem (processIssues fuel client org repo page s).1) = Tickets (mem s) /\
  disk (processIssues fuel client org repo page s).1 = disk s /\
  exists evs,
    trace (processIssues fuel client org repo page s).1 = trace s ++ evs /\
    Forall (fun ev => exists p, ev = ListByRepo org repo p) evs.
Proof.
  split; [|split; [|split]].
  - by apply (processIssues_keepsMem (fun db => Attachments db = Attachments (mem s))).
  - by apply (processIssues_keepsMem (fun db => Tickets db = Tickets (mem s))).
  - apply processIssues_keepsDisk.
  - apply processIssues_events.
Qed.

(** X11: the ticket lister changes nothing but the tickets of the index, and
    every ticket it stores is pending: a ticket that is marked uploaded
    after it was so before and was not listed. *)
Theorem processTickets_touches_tickets_only (fuel : nat)
    (client : option (Z -> jiraPage)) (key : string) (startAt : Z) (s : machine) :
  Attachments (mem (processTickets fuel client key startAt s).1) = Attachments (mem s) /\
  Issues (mem (processTickets fuel client key startAt s).1) = Issues (mem s) /\
  (forall title t,
     Tickets (mem (processTickets fuel client key startAt s).1) !! title = Some t ->
     ticket_Uploaded t = true -> Tickets (mem s) !! title = Some t) /\
  disk (processTickets fuel client key startAt s).1 = disk s.
Proof.
  split; [|split; [|split]].
  - by apply (processTickets_keepsMem (fun db => Attachments db = Attachments (mem s))).
  - by apply (processTickets_keepsMem (fun db => Issues db = Issues (mem s))).
  - apply (processTickets_keepsMem
             (fun db => forall title t, Tickets db !! title = Some t ->
                        ticket_Uploaded t = true -> Tickets (mem s) !! title = Some t));
      [|done].
    intros issues db Hdb title t Ht Hflag.
    apply Hdb; [|done]. by apply (storeTickets_marked_old issues).
  - apply processTickets_keepsDisk.
Qed.

End ListerFacts.

Section CollectMore.

Lemma writesAtEnd_fail (failure : option writeFailure) (e : error) :
  writesAtEnd failure (fail e).
Proof. intros s. exists []. split; [constructor|]. left. cbn. by rewrite app_nil_r. Qed.

Lemma writesAtEnd_bind {A : Type} (failure : option writeFailure) (m : M A)
    (f : A -> M unit) :
  keepsDisk m -> emitsOnly notWrite m ->
  (forall a, writesAtEnd failure (f a)) -> writesAtEnd failure (bind m f).
Proof.
  intros Hdisk Hemit Hf s. unfold bind.
  specialize (Hdisk s). destruct (Hemit s) as (evs1 & Ht1 & Hevs1).
  destruct (m s) as [s1 [a| | |]]; cbn in Hdisk, Ht1.
  - destruct (Hf a s1) as (evs2 & Hevs2 & H).
    exists (evs1 ++ evs2). split; [by apply Forall_app|].
    destruct H as [(Hr & Ht & Hd)|(Hr & Ht & Hd)]; [left|right].
    + split; [done|]. rewrite Ht, Ht1, Hd, Hdisk. by rewrite <- ?app_assoc.
    + split; [done|]. rewrite Ht, Ht1, Hd, Hdisk. by rewrite <- ?app_assoc.
  - exists evs1. split; [done|]. by left.
  - exists evs1. split; [done|]. by left.
  - exists evs1. split; [done|]. by left.
Qed.

(** The end of [collect]: the database is encoded and written. *)
Lemma writesAtEnd_write (marshal : option error) (failure : option writeFailure) :
  writesAtEnd failure
    (bind getMem (fun db =>
       match marshal with
       | Some err => fail (Errorf "failed marshalling database: %s" [inr err])
       | None => bind (writeDatabase db failure) (fun _ => ret tt)
       end)).
Proof.
  intros s. exists []. split; [constructor|].
  unfold bind, getMem, writeDatabase, emit, setDisk, fail, ret. cbn.
  destruct marshal; cbn; [left; by rewrite app_nil_r|].
  by right.
Qed.

Lemma parse_keepsDisk (stage : error + list dirEntry) :
  keepsDisk (fun s => let '(db', r) := processAttachments stage (mem s) in
                      ({| mem := db'; disk := disk s; trace := trace s; clock := clock s |}, r)).
Proof. intros s. by destruct (processAttachments _ _). Qed.

Lemma parse_emitsOnly (P : event -> Prop) (stage : error + list dirEntry) :
  emitsOnly P (fun s => let '(db', r) := processAttachments stage (mem s) in
                        ({| mem := db'; disk := disk s; trace := trace s; clock := clock s |}, r)).
Proof. intros s. exists []. rewrite app_nil_r. by destruct (processAttachments _ _). Qed.

(** [collect] writes at its end only. *)
Lemma collect_writesAtEnd (fuel : nat) (flags : collectFlags) (w : collectWorld) :
  writesAtEnd (writeFileErr w) (collect fuel flags w).
Proof.
  unfold collect.
  apply writesAtEnd_bind.
  { destruct (stageNotExist w); [destruct (mkdirAllErr w)|]; keeps. }
  { destruct (stageNotExist w); [destruct (mkdirAllErr w)|]; emits. }
  intros _. destruct (IsEmpty w) as [empty [err|]]; [apply writesAtEnd_fail|].
  apply writesAtEnd_bind.
  { destruct (negb _), empty; keeps. destruct (expandErr w); keeps. }
  { destruct (negb _), empty; emits. destruct (expandErr w); emits. }
  intros _. apply writesAtEnd_bind; [keeps|emits|intros _].
  apply writesAtEnd_bind;
    [apply keepsDisk_wrap, parse_keepsDisk|apply emitsOnly_wrap, parse_emitsOnly|intros _].
  apply writesAtEnd_bind; [apply keepsDisk_wrap, processIssues_keepsDisk| |intros _].
  { apply emitsOnly_wrap. eapply emitsOnly_weaken; [|apply processIssues_events].
    by intros ev [p ->]. }
  apply writesAtEnd_bind; [apply keepsDisk_wrap, processTickets_keepsDisk| |intros _].
  { apply emitsOnly_wrap. eapply emitsOnly_weaken; [|apply processTickets_events].
    by intros ev [a ->]. }
  apply writesAtEnd_write.
Qed.

(** X12: [collect] writes [database.json] at most once, as the last thing it
    does, and exactly when it returns nil.  A run that ends with an error or
    a panic has left the file as it was and has not tried to write it.  A
    run that returns nil has called [os.WriteFile] with the index it has in
    memory: the file holds that index when the call succeeded (or failed
    at the close only); it is as it was when the call failed at the open;
    and it is torn, whatever it held before, when the write broke off. *)
Theorem collect_writes_at_end (fuel : nat) (flags : collectFlags) (w : collectWorld)
    (s : machine) :
  exists evs,
    Forall (fun ev => isWrite ev = false) evs /\
    (((collect fuel flags w s).2 <> Ok tt /\
      trace (collect fuel flags w s).1 = trace s ++ evs /\
      disk (collect fuel flags w s).1 = disk s) \/
     ((collect fuel flags w s).2 = Ok tt /\
      trace (collect fuel flags w s).1
      = trace s ++ evs ++ [WriteFile (mem (collect fuel flags w s).1)
                                     (succeeded (writeFileErr w))] /\
      disk (collect fuel flags w s).1
      = match writeFileErr w with
        | None => Holds (mem (collect fuel flags w s).1)
        | Some failure =>
            match write_leaves failure with
            | Untouched => disk s
            | Partial => Torn
            | Complete => Holds (mem (collect fuel flags w s).1)
            end
        end)).
Proof. apply collect_writesAtEnd. Qed.

Lemma fromMem_bind {A B : Type} (P R Q : database -> Prop) (m : M A) (f : A -> M B) :
  fromMem P R m -> (forall a, fromMem R Q (f a)) -> fromMem P Q (bind m f).
Proof.
  intros Hm Hf s s' b HP H. apply bind_Ok in H as (s1 & a & H1 & H2).
  eapply Hf; [|done]. by eapply Hm.
Qed.

Lemma fromMem_keeps {A : Type} (P : database -> Prop) (m : M A) :
  keepsMem P m -> fromMem P P m.
Proof. intros Hm s s' a HP H. specialize (Hm s HP). by rewrite H in Hm. Qed.

Lemma fromMem_wrap (P Q : database -> Prop) (format : string) (m : M unit) :
  fromMem P Q m -> fromMem P Q (wrap format m).
Proof. intros Hm s s' [] HP H. apply wrap_Ok in H. by eapply Hm. Qed.

(** X13: the index [collect] has in memory, and writes, when it returns nil:
    its attachments are those of the records of the staging directory, in
    order, and every ticket in it is pending, whatever [database.json] held
    before (marks of an earlier upload are not carried over). *)
Theorem collect_index (fuel : nat) (flags : collectFlags) (w : collectWorld)
    (s s' : machine) :
  collect fuel flags w s = (s', Ok tt) ->
  exists entries,
    stageDir w = inr entries /\
    Attachments (mem s') = omap parsed (recordsOf entries) /\
    allPending (mem s').
Proof.
  set (Q := fun db => exists entries,
              stageDir w = inr entries /\
              Attachments db = omap parsed (recordsOf entries) /\
              allPending db).
  assert (H : fromMem (fun _ => True) Q (collect fuel flags w)); [|by apply H].
  unfold collect.
  apply (fromMem_bind _ (fun _ => True)); [by intros ?????|intros _].
  destruct (IsEmpty w) as [empty [err|]]; [by intros ?????|].
  apply (fromMem_bind _ (fun _ => True)); [by intros ?????|intros _].
  apply (fromMem_bind _ (fun db => db = emptyDatabase)).
  { intros s0 s1 [] _ H. unfold setMem in H. by simplify_eq. }
  intros _. apply (fromMem_bind _ Q).
  { apply fromMem_wrap. intros s0 s1 [] Hmem H. rewrite Hmem in H.
    destruct (processAttachments (stageDir w) emptyDatabase) as [db' r] eqn:Hparse.
    simplify_eq. cbn.
    destruct (stageDir w) as [e|entries]; [done|].
    apply processAttachments_Ok in Hparse as (Ha & Hi & Ht).
    exists entries. split; [done|]. split; [exact Ha|].
    intros title t. rewrite Ht. cbn. by rewrite lookup_empty. }
  assert (Hissues : forall issues db, Q db -> Q (storeIssues issues db)).
  { intros issues db (entries & ? & ? & ?). by exists entries. }
  assert (Htickets : forall issues db, Q db -> Q (storeTickets issues db)).
  { intros issues db (entries & ? & ? & ?). exists entries.
    split; [done|]. split; [done|]. by apply storeTickets_allPending. }
  intros _. apply (fromMem_bind _ Q).
  { apply fromMem_wrap, fromMem_keeps. by apply processIssues_keepsMem. }
  intros _. apply (fromMem_bind _ Q).
  { apply fromMem_wrap, fromMem_keeps. by apply processTickets_keepsMem. }
  intros _. apply fromMem_keeps.
  apply keepsMem_bind; [by intros ?|intros db].
  destruct (marshalErr w); [by intros ?|].
  apply keepsMem_writeDatabase.
Qed.

Lemma collect_index_witness :
  exists entries,
    stageDir sampleWorld = inr entries /\
    Attachments sampleIndex = omap parsed (recordsOf entries) /\
    allPending sampleIndex.
Proof.
  apply (collect_index 1 (sampleFlags true) sampleWorld (boot Absent)
           {| mem := sampleIndex; disk := Holds sampleIndex;
              trace := [ ListByRepo "o" "r" 1; Search "project=PROJ" 0;
                         WriteFile sampleIndex true ];
              clock := 0 |}).
  vm_compute. reflexivity.
Defined.

Lemma processRecords_outcome (records : list rawAttachment) (db db' : database) :
  (processRecords records db).2 = (processRecords records db').2.
Proof.
  revert db db'. induction records as [|r records IH]; intros db db'; [done|].
  cbn [processRecords]. destruct (processRecord r) as [[entry|]| | |]; try done; apply IH.
Qed.

(** Whether the parse ends well does not depend on the database it adds to. *)
Lemma processAttachments_outcome (stage : error + list dirEntry) (db db' : database) :
  (processAttachments stage db).2 = (processAttachments stage db').2.
Proof.
  destruct stage as [e|entries]; [done|]. cbn [processAttachments].
  revert db db'. induction entries as [|entry rest IH]; intros db db'; [done|].
  cbn [processEntries]. destruct (considered entry); [|apply IH].
  destruct (entry_read entry) as [e|e|records]; [done..|].
  pose proof (processRecords_outcome records db db') as Hr.
  destruct (processRecords records db) as [db1 r1],
           (processRecords records db') as [db1' r1']. cbn in Hr. subst r1'.
  destruct r1 as [[]| | |]; [apply IH|done..].
Qed.

(** X14: when the export records cannot be parsed, [collect] has made no
    call to GitHub or to JIRA: the parse comes first, and its failure ends
    the run. *)
Theorem collect_parse_failure_no_remote_call (fuel : nat) (flags : collectFlags)
    (w : collectWorld) (s : machine) :
  (processAttachments (stageDir w) emptyDatabase).2 <> Ok tt ->
  (collect fuel flags w s).2 <> Ok tt /\
  exists evs,
    trace (collect fuel flags w s).1 = trace s ++ evs /\
    Forall (fun ev => isRemote ev = false) evs.
Proof.
  intros Hparse. split.
  - destruct (collect fuel flags w s) as [s' r] eqn:Hrun. cbn. intros ->.
    unfold collect in Hrun.
    apply bind_Ok in Hrun as (s1 & [] & _ & Hrun).
    destruct (IsEmpty w) as [empty [err|]]; [done|].
    apply bind_Ok in Hrun as (s2 & [] & _ & Hrun).
    apply bind_Ok in Hrun as (s3 & [] & _ & Hrun).
    apply bind_Ok in Hrun as (s4 & [] & Hp%wrap_Ok & _).
    apply Hparse. rewrite (processAttachments_outcome _ _ (mem s3)).
    by destruct (processAttachments (stageDir w) (mem s3)) as [db' r']; simplify_eq.
  - revert s. change (emitsOnly notRemote (collect fuel flags w)). unfold collect.
    apply emitsOnly_bind.
    { destruct (stageNotExist w); [destruct (mkdirAllErr w)|]; emits. }
    intros _. destruct (IsEmpty w) as [empty [err|]]; [emits|].
    apply emitsOnly_bind.
    { destruct (negb _), empty; emits. destruct (expandErr w); emits. }
    intros _. apply emitsOnly_bind; [emits|intros _].
    apply emitsOnly_bind_stops; [apply emitsOnly_wrap, parse_emitsOnly|].
    intros s0 [] H. apply Hparse.
    rewrite (processAttachments_outcome _ _ (mem s0)).
    unfold wrap in H.
    by destruct (processAttachments (stageDir w) (mem s0)) as [db' [[]| | |]].
Qed.

Lemma collect_parse_failure_no_remote_call_witness :
  (collect 1 (sampleFlags true)
     (withStageDir sampleWorld
        (inr [ {| entry_Name := "attachments_000001.json";
                  entry_read := UnmarshalFails (External "unexpected end of JSON input") |} ]))
     (boot Absent)).2 <> Ok tt /\
  exists evs,
    trace (collect 1 (sampleFlags true)
             (withStageDir sampleWorld
                (inr [ {| entry_Name := "attachments_000001.json";
                          entry_read := UnmarshalFails (External "unexpected end of JSON input") |} ]))
             (boot Absent)).1 = trace (boot Absent) ++ evs /\
    Forall (fun ev => isRemote ev = false) evs.
Proof.
  apply (collect_parse_failure_no_remote_call 1 (sampleFlags true)
           (withStageDir sampleWorld
              (inr [ {| entry_Name := "attachments_000001.json";
                        entry_read := UnmarshalFails (External "unexpected end of JSON input") |} ]))
           (boot Absent)).
  vm_compute. discriminate.
Defined.

(** X15: when the JIRA client cannot be made, [collect] only prints the
    error and goes on with a nil client: it never returns nil then (it
    fails earlier, or panics at the ticket listing, after the GitHub
    listing was done), and [database.json] is not written. *)
Theorem collect_without_client (fuel : nat) (flags : collectFlags) (w : collectWorld)
    (err : error) (s : machine) :
  newJIRAClientErr w = Some err ->
  (collect fuel flags w s).2 <> Ok tt /\
  disk (collect fuel flags w s).1 = disk s.
Proof.
  intros Hclient.
  assert (Hnot : (collect fuel flags w s).2 <> Ok tt).
  { destruct (collect fuel flags w s) as [s' r] eqn:Hrun. cbn. intros ->.
    unfold collect in Hrun. rewrite Hclient in Hrun.
    apply bind_Ok in Hrun as (s1 & [] & _ & Hrun).
    destruct (IsEmpty w) as [empty [e|]]; [done|].
    apply bind_Ok in Hrun as (s2 & [] & _ & Hrun).
    apply bind_Ok in Hrun as (s3 & [] & _ & Hrun).
    apply bind_Ok in Hrun as (s4 & [] & _ & Hrun).
    apply bind_Ok in Hrun as (s5 & [] & _ & Hrun).
    apply bind_Ok in Hrun as (s6 & [] & Ht%wrap_Ok & _).
    by destruct fuel. }
  split; [done|].
  destruct (collect_writesAtEnd fuel flags w s) as (evs & _ & [(_ & _ & Hdisk)|(Hok & _)]);
    done.
Qed.

Lemma collect_without_client_witness :
  (collect 1 (sampleFlags true)
     (withoutJIRAClient sampleWorld (External "parse : missing protocol scheme"))
     (boot Absent)).2 <> Ok tt /\
  disk (collect 1 (sampleFlags true)
          (withoutJIRAClient sampleWorld (External "parse : missing protocol scheme"))
          (boot Absent)).1 = disk (boot Absent).
Proof.
  apply (collect_without_client 1 (sampleFlags true)
           (withoutJIRAClient sampleWorld (External "parse : missing protocol scheme"))
           (External "parse : missing protocol scheme") (boot Absent)).
  reflexivity.
Defined.

End CollectMore.

(* ===================================================================== *)
(** * Part 15: more on [upload]                                           *)
(* ===================================================================== *)

Section UploadEvents.

Ltac events :=
  cbn; rewrite <- ?app_assoc;
  first [ by (exists []; rewrite app_nil_r)
        | eexists; split; [reflexivity|]; by repeat constructor ].

(** The events of one transfer, whatever the key of the mark. *)
Lemma transfer_events (markKey : string -> ticket -> string) (w : uploadWorld)
    (title : string) (t : ticket) (a : attachment) :
  emitsOnly (transferEvent title t a) (transfer markKey w title t a).
Proof.
  intros s.
  unfold transfer, bind, tick, fail, emit, markUploaded, setMem, getMem,
    writeDatabase, setDisk.
  rewrite nameOf_last. cbn.
  destruct (openErr _); [events|].
  destruct (postErr _); [events|].
  destruct (postStatusCode _ =? 200); [|events]. cbn.
  destruct (Tickets (mem s) !! markKey title t); [|events]. cbn.
  destruct (uploadMarshalErr _); [events|].
  destruct (uploadWriteErr _); events.
Qed.

Lemma uploadAttachments_events (markKey : string -> ticket -> string) (w : uploadWorld)
    (title : string) (t : ticket) (i : issue) (attachments : list attachment) :
  emitsOnly
    (fun ev => exists a, a ∈ attachments /\
                         attachment_IssueNumber a = issue_Number i /\
                         transferEvent title t a ev)
    (uploadAttachments markKey w title t i attachments).
Proof.
  induction attachments as [|a rest IH]; cbn [uploadAttachments]; [emits|].
  apply emitsOnly_bind.
  - destruct (attachment_IssueNumber a =? issue_Number i) eqn:Hnum; [|emits].
    apply Z.eqb_eq in Hnum.
    eapply emitsOnly_weaken; [|apply transfer_events].
    intros ev Hev. exists a. split; [apply list_elem_of_here|done].
  - intros _. eapply emitsOnly_weaken; [|apply IH].
    intros ev (b & Hb & Hnum & Hev). exists b.
    split; [by apply elem_of_cons; right|done].
Qed.

Lemma soundEvent_of_transfer (file : database) (title : string) (t0 t : ticket)
    (i : issue) (a : attachment) (ev : event) :
  Tickets file !! title = Some t0 -> ticket_Key t = ticket_Key t0 ->
  Issues file !! title = Some i -> a ∈ Attachments file ->
  attachment_IssueNumber a = issue_Number i ->
  transferEvent title t a ev -> soundEvent file ev.
Proof.
  intros Ht Hkey Hi Ha Hnum. destruct ev; try done. cbn.
  intros (-> & -> & ->). exists t0, i, a. by rewrite Hkey.
Qed.

Lemma uploadTicket_sound (file : database) (w : uploadWorld) (title : string)
    (s : machine) :
  stateInv file s ->
  exists evs, trace (uploadTicket byTitle w title s).1 = trace s ++ evs /\
              Forall (soundEvent file) evs.
Proof.
  intros Hinv. pose proof (proj1 Hinv) as Hmem.
  unfold uploadTicket.
  destruct (Tickets (mem s) !! title) as [t|] eqn:Ht;
    [|exists []; by rewrite app_nil_r].
  destruct (ticket_Uploaded t); [exists []; by rewrite app_nil_r|].
  destruct (Issues (mem s) !! title) as [i|] eqn:Hi;
    [|exists []; by rewrite app_nil_r].
  destruct (marksMore_lookup_inv file _ _ _ Hmem Ht) as (t0 & Ht0 & Hkey & _).
  destruct Hmem as (Hatt & Hiss & _). rewrite Hiss in Hi. rewrite Hatt.
  destruct (uploadAttachments_events byTitle w title t i (Attachments file) s)
    as (evs & Htrace & Hevs).
  exists evs. split; [done|].
  eapply Forall_impl; [exact Hevs|].
  intros ev (a & Ha & Hnum & Hev). by eapply soundEvent_of_transfer.
Qed.

Lemma uploadTickets_sound (file : database) (w : uploadWorld) (order : list string)
    (s : machine) :
  stateInv file s ->
  exists evs, trace (uploadTickets byTitle w order s).1 = trace s ++ evs /\
              Forall (soundEvent file) evs.
Proof.
  revert s. induction order as [|title rest IH]; intros s Hinv.
  - exists []. by rewrite app_nil_r.
  - cbn [uploadTickets]. unfold bind.
    destruct (uploadTicket_sound file w title s Hinv) as (evs1 & Ht1 & Hevs1).
    pose proof (uploadTicket_inv file w title s Hinv) as Hinv1.
    destruct (uploadTicket byTitle w title s) as [s1 [[]| | |]]; cbn in Ht1, Hinv1;
      try by exists evs1.
    destruct (IH s1 Hinv1) as (evs2 & Ht2 & Hevs2).
    exists (evs1 ++ evs2). rewrite Ht2, Ht1, app_assoc. split; [done|].
    by apply Forall_app.
Qed.

(** X16: the calls [upload] makes, however the run goes: every event of a
    run is a write of [database.json] or a transfer, and every transfer is
    made for a ticket of the index, to the key of that ticket, of an
    attachment whose issue number is that of the issue with the ticket's
    title, under the last "/"-separated segment of the attachment's path. *)
Theorem upload_events_sound (w : uploadWorld) (order : list string) (file : database) :
  Forall (soundEvent file) (trace (upload w order (boot (Holds file))).1).
Proof.
  unfold upload, uploadWith. cbn [boot disk].
  destruct (uploadClientErr w); [constructor|].
  destruct (readFileErr w); [constructor|].
  destruct (unmarshalErr w); [constructor|].
  unfold bind, setMem. cbn.
  destruct (uploadTickets_sound file w order
              {| mem := file; disk := Holds file; trace := []; clock := 0 |})
    as (evs & Ht & Hevs); [apply runInv_init|].
  by rewrite Ht.
Qed.

End UploadEvents.

Section UploadCalm.

Variable w : uploadWorld.
Hypothesis Hcalm : calm w.

Lemma transfers_app (l1 l2 : list event) :
  transfers (l1 ++ l2) = transfers l1 ++ transfers l2.
Proof. apply omap_app. Qed.

(** A transfer in a calm outside. *)
Lemma transfer_calm (title : string) (t t' : ticket) (a : attachment) (s : machine) :
  Tickets (mem s) !! title = Some t' ->
  transfer byTitle w title t a s
  = ({| mem := mark title t' (mem s);
        disk := Holds (mark title t' (mem s));
        trace := trace s ++ [ PostAttachment title (ticket_Key t) (nameOf a) true;
                              WriteFile (mark title t' (mem s)) true ];
        clock := S (clock s) |}, Ok tt).
Proof.
  intros Ht. destruct Hcalm as (_ & _ & _ & Hattempts).
  destruct (Hattempts (clock s)) as (Hopen & Hpost & Hstatus & Hmarshal & Hwrite).
  unfold transfer, bind, tick, fail, emit, markUploaded, setMem, getMem,
    writeDatabase, setDisk, byTitle.
  rewrite nameOf_last. cbn.
  rewrite Hopen, Hpost, Hstatus. cbn. rewrite Ht. cbn.
  rewrite Hmarshal, Hwrite. cbn. unfold mark. by rewrite <- app_assoc.
Qed.

Lemma mark_mark (title : string) (t' : ticket) (db : database) :
  mark title {| ticket_Key := ticket_Key t'; ticket_Uploaded := true |} (mark title t' db)
  = mark title t' db.
Proof. unfold mark. cbn. by rewrite insert_insert_eq. Qed.

Lemma mark_lookup (title : string) (t' : ticket) (db : database) :
  Tickets (mark title t' db) !! title
  = Some {| ticket_Key := ticket_Key t'; ticket_Uploaded := true |}.
Proof. unfold mark. cbn. by rewrite lookup_insert_eq. Qed.

Lemma mark_lookup_ne (title other : string) (t' : ticket) (db : database) :
  title <> other -> Tickets (mark title t' db) !! other = Tickets db !! other.
Proof. intros Hne. unfold mark. cbn. by rewrite lookup_insert_ne. Qed.

(** The loop over the attachments in a calm outside: every attachment of
    the issue is transferred, in order; the ticket is marked and the index
    written once one was. *)
Lemma uploadAttachments_calm (title : string) (t : ticket) (i : issue)
    (attachments : list attachment) (t' : ticket) (s : machine) :
  Tickets (mem s) !! title = Some t' ->
  exists s',
    uploadAttachments byTitle w title t i attachments s = (s', Ok tt) /\
    transfers (trace s')
    = transfers (trace s) ++
      ((fun a => (title, ticket_Key t, nameOf a)) <$> attachmentsOf i attachments) /\
    mem s' = match attachmentsOf i attachments with
             | [] => mem s
             | _ => mark title t' (mem s)
             end /\
    disk s' = match attachmentsOf i attachments with
              | [] => disk s
              | _ => Holds (mark title t' (mem s))
              end.
Proof.
  revert t' s. induction attachments as [|a rest IH]; intros t' s Ht.
  - exists s. cbn. by rewrite app_nil_r.
  - cbn [uploadAttachments attachmentsOf List.filter]. unfold bind.
    destruct (attachment_IssueNumber a =? issue_Number i).
    + rewrite (transfer_calm title t t' a s Ht).
      set (s1 := {| mem := mark title t' (mem s); disk := _; trace := _; clock := _ |}).
      destruct (IH {| ticket_Key := ticket_Key t'; ticket_Uploaded := true |} s1)
        as (s' & Hrun & Htr & Hmem & Hdisk); [apply mark_lookup|].
      exists s'. split; [done|]. fold (attachmentsOf i rest) in *.
      split; [|split].
      * rewrite Htr. unfold s1. cbn [trace]. rewrite transfers_app. cbn.
        by rewrite <- app_assoc.
      * rewrite Hmem. unfold s1. cbn [mem]. rewrite mark_mark.
        by destruct (attachmentsOf i rest).
      * rewrite Hdisk. unfold s1. cbn [mem disk]. rewrite mark_mark.
        by destruct (attachmentsOf i rest).
    + unfold ret. apply IH. done.
Qed.

Lemma uploadTicket_calm (file : database) (title : string) (s : machine) :
  fresh file title s ->
  exists s',
    uploadTicket byTitle w title s = (s', Ok tt) /\
    transfers (trace s') = transfers (trace s) ++ expectedTransfers file title /\
    Attachments (mem s') = Attachments file /\
    Issues (mem s') = Issues file /\
    (forall other, title <> other -> Tickets (mem s') !! other = Tickets (mem s) !! other) /\
    (disk s = Holds (mem s) -> disk s' = Holds (mem s')).
Proof.
  intros (Ht & Hatt & Hiss). unfold uploadTicket, expectedTransfers.
  rewrite Ht, Hiss, Hatt.
  destruct (Tickets file !! title) as [t|] eqn:Hfile;
    [|exists s; cbn; by rewrite app_nil_r].
  destruct (Issues file !! title) as [i|];
    [|destruct (ticket_Uploaded t); exists s; cbn; by rewrite app_nil_r].
  destruct (ticket_Uploaded t); [exists s; cbn; by rewrite app_nil_r|].
  destruct (uploadAttachments_calm title t i (Attachments file) t s Ht)
    as (s' & Hrun & Htr & Hmem & Hdisk).
  exists s'. split; [done|]. split; [done|].
  rewrite Hmem, Hdisk.
  destruct (attachmentsOf i (Attachments file)); [done|].
  split; [done|]. split; [done|]. split; [|done].
  intros other Hne. by apply mark_lookup_ne.
Qed.

Lemma uploadTickets_calm (file : database) (order : list string) (s : machine) :
  NoDup order ->
  (forall title, title ∈ order -> Tickets (mem s) !! title = Tickets file !! title) ->
  Attachments (mem s) = Attachments file ->
  Issues (mem s) = Issues file ->
  disk s = Holds (mem s) ->
  exists s',
    uploadTickets byTitle w order s = (s', Ok tt) /\
    transfers (trace s') = transfers (trace s) ++ flat_map (expectedTransfers file) order /\
    disk s' = Holds (mem s').
Proof.
  intros Hnodup. revert s. induction Hnodup as [|title rest Hnotin Hnodup IH];
    intros s Htickets Hatt Hiss Hdisk.
  - exists s. cbn. by rewrite app_nil_r.
  - cbn [uploadTickets flat_map]. unfold bind.
    destruct (uploadTicket_calm file title s) as (s1 & Hrun & Htr & Hatt1 & Hiss1 & Hother & Hd1).
    { split; [|done]. apply Htickets, list_elem_of_here. }
    rewrite Hrun.
    destruct (IH s1) as (s' & Hrun' & Htr' & Hd'); [|done|done|by apply Hd1|].
    { intros other Hin. rewrite Hother; [|by intros ->].
      apply Htickets. by apply elem_of_cons; right. }
    exists s'. split; [done|]. split; [|done].
    by rewrite Htr', Htr, <- app_assoc.
Qed.

End UploadCalm.

Section UploadCalmClaims.

(** The state a run of [upload] in which nothing fails ends in. *)
Lemma upload_calm (w : uploadWorld) (order : list string) (file : database) :
  calm w ->
  NoDup order ->
  exists s',
    upload w order (boot (Holds file)) = (s', Ok tt) /\
    transfers (trace s') = flat_map (expectedTransfers file) order /\
    disk s' = Holds (mem s').
Proof.
  intros Hcalm Hnodup. pose proof Hcalm as (Hclient & Hread & Hdecode & _).
  unfold upload, uploadWith. cbn [boot disk]. rewrite Hclient, Hread, Hdecode.
  unfold bind, setMem. cbn.
  destruct (uploadTickets_calm w Hcalm file order
              {| mem := file; disk := Holds file; trace := []; clock := 0 |})
    as (s' & Hrun & Htr & Hdisk); try done.
  exists s'. by rewrite Hrun.
Qed.

(** X18: a run of [upload] in which nothing fails, the tickets visited once
    each in the order [order]: the run returns nil; its successful
    transfers are, ticket after ticket in that order, the attachments of
    the issue with the ticket's title for every pending ticket, each once,
    in the order of the index, to the ticket's key and under the last
    segment of the path; and [database.json] holds the index in memory. *)
Theorem upload_calm_run (w : uploadWorld) (order : list string) (file : database) :
  calm w ->
  NoDup order ->
  (upload w order (boot (Holds file))).2 = Ok tt /\
  transfers (trace (upload w order (boot (Holds file))).1)
  = flat_map (expectedTransfers file) order /\
  disk (upload w order (boot (Holds file))).1
  = Holds (mem (upload w order (boot (Holds file))).1).
Proof.
  intros Hcalm Hnodup.
  destruct (upload_calm w order file Hcalm Hnodup) as (s' & -> & Htr & Hdisk). done.
Qed.

Lemma calmWorld_calm : calm calmWorld.
Proof. repeat split. Qed.

Lemma upload_calm_run_witness :
  (upload calmWorld ["Bug X"; "Bug Y"] (boot (Holds twoTickets))).2 = Ok tt /\
  transfers (trace (upload calmWorld ["Bug X"; "Bug Y"] (boot (Holds twoTickets))).1)
  = flat_map (expectedTransfers twoTickets) ["Bug X"; "Bug Y"] /\
  disk (upload calmWorld ["Bug X"; "Bug Y"] (boot (Holds twoTickets))).1
  = Holds (mem (upload calmWorld ["Bug X"; "Bug Y"] (boot (Holds twoTickets))).1).
Proof.
  apply (upload_calm_run calmWorld ["Bug X"; "Bug Y"] twoTickets calmWorld_calm).
  apply NoDup_cons. split; [|apply NoDup_singleton].
  intros H%list_elem_of_singleton. discriminate.
Defined.

Lemma transfers_elem (events : list event) (title key name : string) :
  (title, key, name) ∈ transfers events ->
  PostAttachment title key name true ∈ events.
Proof.
  unfold transfers. rewrite list_elem_of_omap. intros (ev & Hev & H).
  destruct ev as [| | |title' key' name' [|]|]; simplify_eq. done.
Qed.

(** X19: after a run of [upload] in which nothing fails, every ticket that
    was visited, was pending and whose title has an issue with at least one
    attachment is marked uploaded in [database.json]. *)
Theorem upload_calm_marks (w : uploadWorld) (order : list string) (file : database)
    (title : string) :
  calm w ->
  NoDup order ->
  title ∈ order ->
  pending file title ->
  matched file title ->
  exists d, disk (upload w order (boot (Holds file))).1 = Holds d /\ uploaded d title.
Proof.
  intros Hcalm Hnodup Hin (t & Ht & Hflag) (i & a & Hi & Ha & Hnum).
  destruct (upload_calm w order file Hcalm Hnodup) as (s' & Hrun & Htr & Hdisk).
  pose proof (upload_inv file w order) as Hresult.
  rewrite Hrun in Hresult |- *. cbn [fst] in Hresult |- *.
  exists (mem s'). split; [done|].
  assert (Hexp : (title, ticket_Key t, nameOf a) ∈ flat_map (expectedTransfers file) order).
  { apply list_elem_of_In, in_flat_map. exists title. split; [by apply list_elem_of_In|].
    apply list_elem_of_In. unfold expectedTransfers. rewrite Ht, Hi, Hflag.
    apply (list_elem_of_fmap_2 (fun a => (title, ticket_Key t, nameOf a))).
    apply list_elem_of_In, filter_In. split; [by apply list_elem_of_In|by apply Z.eqb_eq]. }
  rewrite <- Htr in Hexp. apply transfers_elem in Hexp.
  destruct Hresult as [Hboot | Hinv].
  - rewrite Hboot in Hexp. by apply elem_of_nil in Hexp.
  - destruct Hinv as (Hmem & _ & _ & Hflags).
    destruct (marksMore_lookup file _ _ _ Hmem Ht) as (t' & Ht' & _).
    exists t'. split; [done|]. apply (Hflags title t' Ht'). right.
    by exists (ticket_Key t), (nameOf a).
Qed.

Lemma upload_calm_marks_witness :
  exists d, disk (upload calmWorld ["Bug X"] (boot (Holds sampleIndex))).1 = Holds d /\
            uploaded d "Bug X".
Proof.
  apply (upload_calm_marks calmWorld ["Bug X"] sampleIndex "Bug X" calmWorld_calm).
  - apply NoDup_singleton.
  - apply list_elem_of_here.
  - eexists. split; [vm_compute; reflexivity|reflexivity].
  - eexists _, _. split; [vm_compute; reflexivity|].
    split; [apply list_elem_of_here|reflexivity].
Defined.

End UploadCalmClaims.

Section UploadDone.

Variable file : database.
Variable w : uploadWorld.

Lemma transfer_Ok (title : string) (t : ticket) (a : attachment) (s s' : machine) :
  transfer byTitle w title t a s = (s', Ok tt) ->
  disk s' = Holds (mem s') /\ uploaded (mem s') title.
Proof.
  unfold transfer, bind, tick, fail, emit, markUploaded, setMem, getMem,
    writeDatabase, setDisk, byTitle.
  rewrite nameOf_last. cbn.
  destruct (openErr _); [done|].
  destruct (postErr _); [done|].
  destruct (postStatusCode _ =? 200); [|done]. cbn.
  destruct (Tickets (mem s) !! title) as [t'|]; [|done]. cbn.
  destruct (uploadMarshalErr _); [done|].
  destruct (uploadWriteErr _); [done|]. cbn.
  intros [= <-]. cbn. split; [done|].
  eexists. split; [apply lookup_insert_eq|done].
Qed.

Lemma uploadAttachments_Ok (title : string) (t : ticket) (i : issue)
    (attachments : list attachment) (s s' : machine) :
  uploadAttachments byTitle w title t i attachments s = (s', Ok tt) ->
  (attachmentsOf i attachments = [] /\ s' = s) \/
  (disk s' = Holds (mem s') /\ uploaded (mem s') title).
Proof.
  revert s. induction attachments as [|a rest IH]; intros s H.
  - left. cbn [uploadAttachments] in H. unfold ret in H. by simplify_eq.
  - cbn [uploadAttachments] in H. apply bind_Ok in H as (s1 & [] & H1 & H2).
    cbn [attachmentsOf List.filter].
    destruct (attachment_IssueNumber a =? issue_Number i).
    + right. apply transfer_Ok in H1.
      destruct (IH s1 H2) as [(_ & ->)|?]; done.
    + unfold ret in H1. simplify_eq. by apply IH.
Qed.

Lemma attachmentsOf_nil (i : issue) (attachments : list attachment) :
  attachmentsOf i attachments = [] ->
  Forall (fun a => attachment_IssueNumber a <> issue_Number i) attachments.
Proof.
  induction attachments as [|a rest IH]; [constructor|].
  cbn [attachmentsOf List.filter].
  destruct (attachment_IssueNumber a =? issue_Number i) eqn:Hnum; [done|].
  intros H. constructor; [by apply Z.eqb_neq|by apply IH].
Qed.

Lemma uploadTicket_Ok (title : string) (s s' : machine) :
  stateInv file s -> disk s = Holds (mem s) ->
  uploadTicket byTitle w title s = (s', Ok tt) ->
  disk s' = Holds (mem s') /\ settled file (mem s') title.
Proof.
  intros Hinv Hdisk. pose proof (proj1 Hinv) as Hmem. unfold uploadTicket, settled.
  destruct (Tickets (mem s) !! title) as [t|] eqn:Ht.
  - destruct (ticket_Uploaded t) eqn:Hflag.
    { intros [= <-]. split; [done|]. right; left. by exists t. }
    destruct Hmem as (Hatt & Hiss & _). rewrite Hiss, Hatt.
    destruct (Issues file !! title) as [i|] eqn:Hi.
    + intros H. apply uploadAttachments_Ok in H as [(Hnone & ->)|?].
      * split; [done|]. right; right. unfold unmatched. rewrite Hi.
        by apply attachmentsOf_nil.
      * split; [tauto|]. right; left. tauto.
    + intros [= <-]. split; [done|]. right; right. unfold unmatched. by rewrite Hi.
  - intros [= <-]. split; [done|]. left.
    destruct Hmem as (_ & _ & Htickets). specialize (Htickets title).
    rewrite Ht in Htickets. by destruct (Tickets file !! title).
Qed.

(** A mark stays while the run goes on. *)
Lemma uploaded_stays (title : string) (s1 s2 : machine) (evs : list event) :
  stateInv file s1 -> stateInv file s2 -> trace s2 = trace s1 ++ evs ->
  uploaded (mem s1) title -> uploaded (mem s2) title.
Proof.
  intros Hinv1 Hinv2 Htrace (t1 & Ht1 & Hflag1).
  destruct Hinv1 as (Hmem1 & _ & _ & Hflags1).
  destruct Hinv2 as (Hmem2 & _ & _ & Hflags2).
  destruct (marksMore_lookup_inv file _ _ _ Hmem1 Ht1) as (t0 & Ht0 & _).
  destruct (marksMore_lookup file _ _ _ Hmem2 Ht0) as (t2 & Ht2 & _).
  exists t2. split; [done|]. apply (Hflags2 title t2 Ht2).
  apply (Hflags1 title t1 Ht1) in Hflag1 as [?|?]; [by left|right].
  rewrite Htrace. by apply transferred_app.
Qed.

Lemma uploadTickets_Ok (order : list string) (s s' : machine) :
  stateInv file s -> disk s = Holds (mem s) ->
  uploadTickets byTitle w order s = (s', Ok tt) ->
  disk s' = Holds (mem s') /\ stateInv file s' /\
  forall title, title ∈ order -> settled file (mem s') title.
Proof.
  revert s. induction order as [|title rest IH]; intros s Hinv Hdisk H.
  - cbn [uploadTickets] in H. unfold ret in H. simplify_eq.
    split; [done|]. split; [done|].
    intros title Hin. by apply elem_of_nil in Hin.
  - cbn [uploadTickets] in H. apply bind_Ok in H as (s1 & [] & H1 & H2).
    pose proof (uploadTicket_inv file w title s Hinv) as Hinv1. rewrite H1 in Hinv1.
    destruct (uploadTicket_Ok title s s1 Hinv Hdisk H1) as (Hdisk1 & Hsettled).
    destruct (IH s1 Hinv1 Hdisk1 H2) as (Hdisk' & Hinv' & Hrest).
    split; [done|]. split; [done|].
    intros title' [->|Hin]%elem_of_cons; [|by apply Hrest].
    destruct Hsettled as [?|[Hup|?]]; [by left| |by right; right].
    right; left.
    destruct (uploadTickets_sound file w rest s1 Hinv1) as (evs & Htrace & _).
    rewrite H2 in Htrace. by eapply (uploaded_stays _ s1 s').
Qed.

End UploadDone.

Section UploadDoneClaims.

(** X20: a run of [upload] that visits every ticket of the index and returns
    nil leaves nothing to do: whatever the outside answers afterwards and
    in whatever order the tickets are visited, a later run on the file it
    left makes no transfer. *)
Theorem upload_done_stays_done (w w' : uploadWorld) (order order' : list string)
    (file : database) (s1 : machine) :
  Forall (fun title => title ∈ order) (map_to_list (Tickets file)).*1 ->
  upload w order (boot (Holds file)) = (s1, Ok tt) ->
  Forall (fun ev => isTransfer ev = false) (trace (upload w' order' (boot (disk s1))).1).
Proof.
  intros Hall Hrun.
  assert (Hloop : exists s0, stateInv file s0 /\ disk s0 = Holds (mem s0) /\
                             uploadTickets byTitle w order s0 = (s1, Ok tt)).
  { unfold upload, uploadWith in Hrun. cbn [boot disk] in Hrun.
    destruct (uploadClientErr w); [done|].
    destruct (readFileErr w); [done|].
    destruct (unmarshalErr w); [done|].
    apply bind_Ok in Hrun as (s0 & [] & Hset & Hrun).
    unfold setMem in Hset. cbn in Hset. simplify_eq.
    eexists. split; [|split; [|exact Hrun]]; [apply runInv_init|done]. }
  destruct Hloop as (s0 & Hinv0 & Hdisk0 & Hloop).
  destruct (uploadTickets_Ok file w order s0 s1 Hinv0 Hdisk0 Hloop)
    as (Hdisk1 & Hinv1 & Hsettled).
  rewrite Hdisk1. set (d := mem s1) in *.
  destruct (upload_inv d w' order') as [-> | Hinv2]; [constructor|].
  apply Forall_forall. intros ev Hev.
  destruct ev as [| | |title key name ok|]; try done. exfalso.
  destruct Hinv2 as (_ & _ & Hevents & _).
  destruct (Hevents _ _ _ _ Hev) as ((t & Ht & Hflag) & (i & a & Hi & Ha & Hnum)).
  pose proof (proj1 Hinv1) as (Hatt & Hiss & Htickets). fold d in Hatt, Hiss, Htickets.
  assert (Hfile : is_Some (Tickets file !! title)).
  { specialize (Htickets title). rewrite Ht in Htickets.
    by destruct (Tickets file !! title). }
  destruct Hfile as (t0 & Ht0).
  assert (Hin : title ∈ order).
  { rewrite Forall_forall in Hall. apply Hall.
    apply (list_elem_of_fmap_2 fst _ (title, t0)). by apply elem_of_map_to_list. }
  destruct (Hsettled title Hin) as [Hnone|[(t' & Ht' & Hflag')|Hun]].
  - congruence.
  - congruence.
  - apply (unmatched_not_matched file title Hun).
    exists i, a. by rewrite <- Hiss, <- Hatt.
Qed.

Lemma upload_done_stays_done_witness :
  Forall (fun ev => isTransfer ev = false)
         (trace (upload secondOpenFails ["Bug X"]
                   (boot (disk {| mem := sampleUploaded; disk := Holds sampleUploaded;
                                  trace := [ PostAttachment "Bug X" "PROJ-7" "file.png" true;
                                             WriteFile sampleUploaded true ];
                                  clock := 1 |}))).1).
Proof.
  apply (upload_done_stays_done calmWorld secondOpenFails ["Bug X"] ["Bug X"] sampleIndex).
  - vm_compute. constructor; [apply list_elem_of_here|constructor].
  - vm_compute. reflexivity.
Defined.

End UploadDoneClaims.

Section UploadVariant.

Variable w : uploadWorld.

Lemma variantStep_refl (s : machine) : variantStep s s (Ok tt).
Proof. split; [done|]. split; [done|]. by left. Qed.

(** After a step that did nothing, what the next step does. *)
Lemma variantStep_then (s s1 s' : machine) (r : run unit) :
  variantStep s s1 (Ok tt) -> variantStep s1 s' r -> variantStep s s' r.
Proof.
  intros (Hm1 & Hd1 & H1) (Hm2 & Hd2 & H2).
  destruct H1 as [(_ & Ht1)|[(e & evs & ? & _)|(? & _)]]; [|done..].
  split; [congruence|]. split; [congruence|]. by rewrite <- Ht1.
Qed.

Lemma transfer_byKey (title : string) (t : ticket) (a : attachment) (s : machine) :
  Tickets (mem s) !! ticket_Key t = None ->
  variantStep s (transfer byKey w title t a s).1 (transfer byKey w title t a s).2 /\
  (transfer byKey w title t a s).2 <> Ok tt.
Proof.
  intros Hkey.
  unfold transfer, bind, tick, fail, emit, markUploaded, setMem, getMem,
    writeDatabase, setDisk, byKey, variantStep.
  rewrite nameOf_last. cbn.
  destruct (openErr _).
  { cbn. repeat split; try done. right; left. eexists _, []. by rewrite app_nil_r. }
  destruct (postErr _).
  { cbn. repeat split; try done. right; left. by eexists _, [_]. }
  destruct (postStatusCode _ =? 200); cbn.
  2:{ repeat split; try done. right; left. by eexists _, [_]. }
  rewrite Hkey. cbn. repeat split; try done. right; right. split; [done|]. by eexists [_].
Qed.

Lemma uploadAttachments_byKey (title : string) (t : ticket) (i : issue)
    (attachments : list attachment) (s : machine) :
  Tickets (mem s) !! ticket_Key t = None ->
  variantStep s (uploadAttachments byKey w title t i attachments s).1
                (uploadAttachments byKey w title t i attachments s).2.
Proof.
  intros Hkey. induction attachments as [|a rest IH]; [apply variantStep_refl|].
  cbn [uploadAttachments]. unfold bind.
  destruct (attachment_IssueNumber a =? issue_Number i).
  - destruct (transfer_byKey title t a s Hkey) as (Hstep & Hnot).
    by destruct (transfer byKey w title t a s) as [s1 [[]| | |]].
  - unfold ret. exact IH.
Qed.

Lemma uploadTicket_byKey (file : database) (title : string) (s : machine) :
  keysAreNoTitles file -> mem s = file ->
  variantStep s (uploadTicket byKey w title s).1 (uploadTicket byKey w title s).2.
Proof.
  intros Hkeys Hmem. unfold uploadTicket.
  destruct (Tickets (mem s) !! title) as [t|] eqn:Ht; [|apply variantStep_refl].
  destruct (ticket_Uploaded t); [apply variantStep_refl|].
  destruct (Issues (mem s) !! title) as [i|]; [|apply variantStep_refl].
  apply uploadAttachments_byKey. rewrite Hmem in *. by eapply Hkeys.
Qed.

Lemma uploadTickets_byKey (file : database) (order : list string) (s : machine) :
  keysAreNoTitles file -> mem s = file ->
  variantStep s (uploadTickets byKey w order s).1 (uploadTickets byKey w order s).2.
Proof.
  intros Hkeys. revert s. induction order as [|title rest IH]; intros s Hmem;
    [apply variantStep_refl|].
  cbn [uploadTickets]. unfold bind.
  pose proof (uploadTicket_byKey file title s Hkeys Hmem) as Hstep.
  destruct (uploadTicket byKey w title s) as [s1 [[]| | |]]; cbn in Hstep; try done.
  eapply variantStep_then; [exact Hstep|]. apply IH.
  destruct Hstep as (Hm & _). by rewrite Hm.
Qed.

End UploadVariant.

Section UploadVariantClaims.

(** X21: the second copy of [upload], on an index none of whose ticket keys
    is also a title: it never changes [database.json], so that every
    ticket stays there as it was; it returns nil only when it made no call
    at all; and a run with a successful transfer ends in the panic of the
    mark. *)
Theorem upload_part_001_never_marks (w : uploadWorld) (order : list string)
    (file : database) :
  keysAreNoTitles file ->
  disk (upload_part_001 w order (boot (Holds file))).1 = Holds file /\
  ((upload_part_001 w order (boot (Holds file))).2 = Ok tt ->
   trace (upload_part_001 w order (boot (Holds file))).1 = []) /\
  (transfers (trace (upload_part_001 w order (boot (Holds file))).1) <> [] ->
   (upload_part_001 w order (boot (Holds file))).2 = Panic NilPointerDereference).
Proof.
  intros Hkeys. unfold upload_part_001, uploadWith. cbn [boot disk].
  destruct (uploadClientErr w); [done|].
  destruct (readFileErr w); [done|].
  destruct (unmarshalErr w); [done|].
  unfold bind, setMem. cbn.
  pose proof (uploadTickets_byKey w file order
                {| mem := file; disk := Holds file; trace := []; clock := 0 |} Hkeys eq_refl)
    as (Hmem & Hdisk & Hstep).
  cbn in Hmem, Hdisk, Hstep. split; [done|].
  destruct Hstep as [(Hr & Ht)|[(e & evs & Hr & Ht & Hevs)|(Hr & evs & Ht)]];
    rewrite Hr, Ht; done.
Qed.

Lemma sampleIndex_keys : keysAreNoTitles sampleIndex.
Proof.
  intros title t H. unfold sampleIndex in H. cbn [Tickets] in H.
  apply lookup_singleton_Some in H as [<- <-]. reflexivity.
Qed.

Lemma upload_part_001_never_marks_witness :
  disk (upload_part_001 calmWorld ["Bug X"] (boot (Holds sampleIndex))).1 = Holds sampleIndex /\
  ((upload_part_001 calmWorld ["Bug X"] (boot (Holds sampleIndex))).2 = Ok tt ->
   trace (upload_part_001 calmWorld ["Bug X"] (boot (Holds sampleIndex))).1 = []) /\
  (transfers (trace (upload_part_001 calmWorld ["Bug X"] (boot (Holds sampleIndex))).1) <> [] ->
   (upload_part_001 calmWorld ["Bug X"] (boot (Holds sampleIndex))).2
   = Panic NilPointerDereference).
Proof.
  apply (upload_part_001_never_marks calmWorld ["Bug X"] sampleIndex sampleIndex_keys).
Defined.

End UploadVariantClaims.

Section UploadWritesClaims.

(** X17: what a run of [upload] can do to [database.json].  Either the
    file still holds an index, with the attachments and the issues it had,
    the tickets it had under the same titles and with the same keys, and
    every ticket that was marked uploaded still marked: the run can only
    have marked tickets.  Or a write of the file broke off and the file is
    torn: then the run did not return nil, and that failed write is the
    last thing it did. *)
Theorem upload_only_marks (w : uploadWorld) (order : list string) (file : database) :
  match disk (upload w order (boot (Holds file))).1 with
  | Holds d =>
      Attachments d = Attachments file /\
      Issues d = Issues file /\
      (forall title,
         ticket_Key <$> Tickets d !! title = ticket_Key <$> Tickets file !! title) /\
      (forall title, uploaded file title -> uploaded d title)
  | Torn =>
      (upload w order (boot (Holds file))).2 <> Ok tt /\
      exists db, last (trace (upload w order (boot (Holds file))).1)
                 = Some (WriteFile db false)
  | Absent => False
  end.
Proof.
  destruct (upload_run w order file) as (Hdisk & _).
  destruct (upload_writesEach w order file) as (done & rest & Ht & Hp & Hb & Hok).
  destruct (disk (upload w order (boot (Holds file))).1) as [|d|]; [done| |].
  - destruct Hdisk as ((Hatt & Hiss & Htickets) & _).
    split; [done|]. split; [done|]. split.
    + intros title. specialize (Htickets title).
      destruct (Tickets file !! title), (Tickets d !! title); try done.
      cbn. f_equal. by destruct Htickets.
    + intros title (t & Ht0 & Hflag). specialize (Htickets title). rewrite Ht0 in Htickets.
      destruct (Tickets d !! title) as [t'|] eqn:Hd; [|done].
      exists t'. split; [done|]. by apply Htickets.
  - destruct Hdisk as (db & Hin). rewrite Ht in Hin |- *.
    apply elem_of_app in Hin as [Hin|Hin]; [by apply paired_no_failed_write in Hin|].
    destruct Hb as [->|[(title & key & name & ->)|[(title & key & name & ->)|
                    (title & key & name & db' & -> & _)]]].
    + by apply elem_of_nil in Hin.
    + apply list_elem_of_singleton in Hin. done.
    + apply list_elem_of_singleton in Hin. done.
    + split; [intros H; by specialize (Hok H)|].
      exists db'. by rewrite last_app.
Qed.

(** X22: [upload] writes [database.json] right after every successful
    transfer.  The events of a run are pairs of a successful transfer and
    the successful write of an index that marks the ticket of the transfer;
    a run that does not return nil may end, after such pairs, with a failed
    transfer, with a successful transfer that no write follows, or with a
    successful transfer and the failed write: the one successful transfer
    that was not written, if there is one, is the last. *)
Theorem upload_writes_after_each_transfer (w : uploadWorld) (order : list string)
    (file : database) :
  exists done rest,
    trace (upload w order (boot (Holds file))).1 = done ++ rest /\
    paired done /\ brokenOff rest /\
    ((upload w order (boot (Holds file))).2 = Ok tt -> rest = []).
Proof. apply upload_writesEach. Qed.

End UploadWritesClaims.

(** * Part 16: [archive] and [compress] *)

Section FormatFacts.

Lemma digitChar_digit (d : Z) :
  0 <= d <= 9 ->
  isDigit (digitChar d) = true /\ digitVal (digitChar d) = d /\
  Ascii.eqb (digitChar d) "+" = false /\ Ascii.eqb (digitChar d) "-" = false.
Proof.
  intros H.
  assert (d = 0 \/ d = 1 \/ d = 2 \/ d = 3 \/ d = 4 \/ d = 5 \/ d = 6 \/ d = 7 \/
          d = 8 \/ d = 9) as Hd by lia.
  repeat (destruct Hd as [-> | Hd]; [by vm_compute|]). subst d. by vm_compute.
Qed.

Lemma digitChar_differs (d : Z) (c : ascii) :
  0 <= d <= 9 -> isDigit c = false -> Ascii.eqb (digitChar d) c = false.
Proof.
  intros Hd Hc. destruct (Ascii.eqb (digitChar d) c) eqn:E; [|done].
  apply Ascii.eqb_eq in E. subst c.
  destruct (digitChar_digit d Hd) as [Hdigit _]. congruence.
Qed.

Lemma fmtDigits_app (fuel : nat) (u : Z) (acc : string) :
  fmtDigits fuel u acc = fmtDigits fuel u EmptyString +:+ acc.
Proof.
  revert u acc. induction fuel as [|fuel IH]; intros u acc; [reflexivity|].
  cbn [fmtDigits]. destruct (u <? 10); [reflexivity|].
  rewrite (IH (u / 10) (String _ acc)), (IH (u / 10) (String _ EmptyString)).
  by rewrite app_assoc_s.
Qed.

Lemma fmtDigits_head (fuel : nat) (u : Z) (acc : string) :
  0 <= u ->
  exists d rest, 0 <= d <= 9 /\ fmtDigits (S fuel) u acc = String (digitChar d) rest.
Proof.
  revert u acc. induction fuel as [|fuel IH]; intros u acc Hu.
  - cbn [fmtDigits]. destruct (u <? 10) eqn:E.
    + apply Z.ltb_lt in E. exists u, acc. split; [lia|done].
    + exists (u mod 10), acc. split; [|done].
      pose proof (Z.mod_pos_bound u 10). lia.
  - change (fmtDigits (S (S fuel)) u acc)
      with (if u <? 10 then String (digitChar u) acc
            else fmtDigits (S fuel) (u / 10) (String (digitChar (u mod 10)) acc)).
    destruct (u <? 10) eqn:E.
    + apply Z.ltb_lt in E. exists u, acc. split; [lia|done].
    + apply IH. apply Z.div_pos; lia.
Qed.

Lemma fmtDigits_chars (c : ascii) (fuel : nat) (u : Z) (acc : string) :
  isDigit c = false -> 0 <= u -> contains c acc = false ->
  contains c (fmtDigits fuel u acc) = false.
Proof.
  intros Hc. revert u acc. induction fuel as [|fuel IH]; intros u acc Hu Hacc; [done|].
  cbn [fmtDigits]. destruct (u <? 10) eqn:E.
  - apply Z.ltb_lt in E. cbn [contains]. rewrite digitChar_differs by (done || lia). done.
  - apply IH; [apply Z.div_pos; lia|].
    cbn [contains]. rewrite digitChar_differs; [done| |done].
    pose proof (Z.mod_pos_bound u 10). lia.
Qed.

Lemma parseUintLoop_app (s t : string) (n : Z) :
  parseUintLoop (s +:+ t) n
  = match parseUintLoop s n with
    | inl m => parseUintLoop t m
    | inr e => inr e
    end.
Proof.
  revert n. induction s as [|c s IH]; intros n; [reflexivity|].
  rewrite app_String. cbn [parseUintLoop].
  destruct (isDigit c); [|reflexivity].
  destruct (cutoff10 <=? n); [reflexivity|].
  destruct (maxUint64 <? n * 10 + digitVal c); [reflexivity|]. apply IH.
Qed.

Lemma parseUintLoop_digit (d n : Z) :
  0 <= d <= 9 -> 0 <= n -> n * 10 + d <= maxUint64 ->
  parseUintLoop (String (digitChar d) EmptyString) n = inl (n * 10 + d).
Proof.
  intros Hd Hn Hmax. destruct (digitChar_digit d Hd) as (Hdigit & Hval & _).
  cbn [parseUintLoop]. rewrite Hdigit, Hval.
  assert ((cutoff10 <=? n) = false) as ->.
  { apply Z.leb_gt. unfold cutoff10, maxUint64 in *.
    change (2 ^ 64 - 1) with 18446744073709551615 in *.
    change (18446744073709551615 / 10 + 1) with 1844674407370955162. lia. }
  assert ((maxUint64 <? n * 10 + d) = false) as -> by (apply Z.ltb_ge; lia).
  reflexivity.
Qed.

(** The digits [%d] writes are read back by the digit loop of [ParseUint]. *)
Lemma parseUintLoop_fmtDigits (fuel : nat) (u : Z) :
  0 <= u < 10 ^ Z.of_nat fuel -> u <= maxUint64 ->
  parseUintLoop (fmtDigits fuel u EmptyString) 0 = inl u.
Proof.
  revert u. induction fuel as [|fuel IH]; intros u Hu Hmax.
  - change (10 ^ Z.of_nat 0) with 1 in Hu. assert (u = 0) as -> by lia. reflexivity.
  - cbn [fmtDigits]. destruct (u <? 10) eqn:E.
    + apply Z.ltb_lt in E. rewrite parseUintLoop_digit by lia. f_equal; lia.
    + apply Z.ltb_ge in E. rewrite fmtDigits_app, parseUintLoop_app.
      pose proof (Z.mod_pos_bound u 10) as Hmod.
      pose proof (Z.div_mod u 10) as Hdiv.
      assert (0 <= u / 10) by (apply Z.div_pos; lia).
      rewrite IH.
      * rewrite parseUintLoop_digit by lia. f_equal; lia.
      * split; [done|]. rewrite Nat2Z.inj_succ, Z.pow_succ_r in Hu by lia.
        apply Z.div_lt_upper_bound; lia.
      * lia.
Qed.

(** [%d] and [ParseInt] are inverse on the 64-bit integers. *)
Lemma ParseInt_formatInt (n : Z) :
  isInt64 n -> ParseInt (formatInt n) = inl n.
Proof.
  intros Hn. unfold isInt64 in Hn. unfold formatInt.
  assert (2 ^ 63 = 9223372036854775808) as E63 by reflexivity.
  assert (maxUint64 = 18446744073709551615) as Emax by reflexivity.
  assert (10 ^ Z.of_nat 20 = 100000000000000000000) as E20 by reflexivity.
  destruct (n <? 0) eqn:E.
  - apply Z.ltb_lt in E.
    destruct (fmtDigits_head 19 (- n) EmptyString) as (d & rest & Hd & Hs); [lia|].
    unfold ParseInt. cbv zeta.
    assert (Ascii.eqb "-" "+" = false) as -> by reflexivity.
    rewrite Ascii.eqb_refl. cbn [orb negb andb]. unfold ParseUint.
    rewrite Hs, <- Hs, parseUintLoop_fmtDigits by lia.
    assert ((2 ^ 63 <? - n) = false) as -> by (apply Z.ltb_ge; lia).
    f_equal. lia.
  - apply Z.ltb_ge in E.
    destruct (fmtDigits_head 19 n EmptyString) as (d & rest & Hd & Hs); [lia|].
    destruct (digitChar_digit d Hd) as (_ & _ & Hplus & Hminus).
    unfold ParseInt. rewrite Hs. cbv zeta. rewrite Hplus, Hminus. cbn [orb negb andb].
    unfold ParseUint. rewrite <- Hs, parseUintLoop_fmtDigits by lia.
    assert ((2 ^ 63 <=? n) = false) as -> by (apply Z.leb_gt; lia).
    reflexivity.
Qed.

Lemma formatInt_inj (n m : Z) :
  isInt64 n -> isInt64 m -> formatInt n = formatInt m -> n = m.
Proof.
  intros Hn Hm H. apply ParseInt_formatInt in Hn, Hm. congruence.
Qed.

(** What [%d] writes holds a sign and digits only. *)
Lemma formatInt_chars (c : ascii) (n : Z) :
  isDigit c = false -> c <> "-"%char -> contains c (formatInt n) = false.
Proof.
  intros Hc Hminus. unfold formatInt. destruct (n <? 0) eqn:E.
  - apply Z.ltb_lt in E. cbn [contains].
    assert (Ascii.eqb "-" c = false) as ->.
    { destruct (Ascii.eqb "-" c) eqn:E'; [|done]. apply Ascii.eqb_eq in E'. congruence. }
    apply fmtDigits_chars; [done|lia|done].
  - apply Z.ltb_ge in E. by apply fmtDigits_chars.
Qed.

(** A text is cut in one way at the first occurrence of a byte. *)
Lemma cut_inj (c : ascii) (a1 a2 r1 r2 : string) :
  contains c a1 = false -> contains c a2 = false ->
  a1 +:+ String c r1 = a2 +:+ String c r2 -> a1 = a2 /\ r1 = r2.
Proof.
  revert a2. induction a1 as [|x a1 IH]; intros [|y a2] H1 H2 H.
  - rewrite !app_empty_l in H. by injection H as ->.
  - rewrite app_empty_l, app_String in H. injection H as -> _.
    cbn [contains] in H2. by rewrite Ascii.eqb_refl in H2.
  - rewrite app_empty_l, app_String in H. injection H as -> _.
    cbn [contains] in H1. by rewrite Ascii.eqb_refl in H1.
  - rewrite !app_String in H. injection H as -> H.
    cbn [contains] in H1, H2.
    apply orb_false_iff in H1 as [_ H1]. apply orb_false_iff in H2 as [_ H2].
    destruct (IH a2 H1 H2 H) as [-> ->]. done.
Qed.

End FormatFacts.

Section ArchiveNames.

Lemma archiveName_issue (a : attachment) :
  attachment_Type a = "issue" ->
  archiveName a = formatInt (attachment_IssueNumber a) +:+ String "_" (nameOf a).
Proof. intros H. unfold archiveName. by rewrite H. Qed.

Lemma archiveName_comment (a : attachment) :
  attachment_Type a = "issue_comment" ->
  archiveName a
  = formatInt (attachment_IssueNumber a) +:+
    String "_" (formatInt (attachment_CommentNumber a) +:+ String "_" (nameOf a)).
Proof. intros H. unfold archiveName. by rewrite H. Qed.

(** X23: two attachments of the same kind, as the parser makes them, get the
    same name in the directory [archive] only when they agree on the
    number of the issue, on the number of the comment and on the file
    name. *)
Theorem archiveName_same_kind (a b : attachment) :
  wellFormed a -> wellFormed b ->
  attachment_Type a = attachment_Type b ->
  archiveName a = archiveName b ->
  attachment_IssueNumber a = attachment_IssueNumber b /\
  attachment_CommentNumber a = attachment_CommentNumber b /\
  nameOf a = nameOf b.
Proof.
  intros (_ & Hia & Hca & Hka) (_ & Hib & Hcb & Hkb) Hkind H.
  assert (forall n, contains "_" (formatInt n) = false) as Hno
    by (intros n; by apply formatInt_chars).
  destruct Hka as [[Ha Hza] | Ha]; destruct Hkb as [[Hb Hzb] | Hb]; try congruence.
  - rewrite !archiveName_issue in H by done.
    apply cut_inj in H as [Hn Hname]; [|done..].
    apply formatInt_inj in Hn; [|done..]. split; [done|]. split; [congruence|done].
  - rewrite !archiveName_comment in H by done.
    apply cut_inj in H as [Hn H]; [|done..].
    apply cut_inj in H as [Hm Hname]; [|done..].
    apply formatInt_inj in Hn; [|done..]. apply formatInt_inj in Hm; [|done..]. done.
Qed.

Lemma wellFormed_issueShot : wellFormed issueShot.
Proof. split; [done|]. split; [by vm_compute|]. split; [by vm_compute|]. by left. Qed.

Lemma wellFormed_issueShotAgain : wellFormed issueShotAgain.
Proof. split; [done|]. split; [by vm_compute|]. split; [by vm_compute|]. by left. Qed.

Lemma wellFormed_issueSevenShot : wellFormed issueSevenShot.
Proof. split; [done|]. split; [by vm_compute|]. split; [by vm_compute|]. by left. Qed.

Lemma wellFormed_commentShot : wellFormed commentShot.
Proof. split; [done|]. split; [by vm_compute|]. split; [by vm_compute|]. by right. Qed.

Lemma archiveName_same_kind_witness :
  attachment_IssueNumber issueShot = attachment_IssueNumber issueShotAgain /\
  attachment_CommentNumber issueShot = attachment_CommentNumber issueShotAgain /\
  nameOf issueShot = nameOf issueShotAgain.
Proof.
  apply (archiveName_same_kind issueShot issueShotAgain).
  - exact wellFormed_issueShot.
  - exact wellFormed_issueShotAgain.
  - reflexivity.
  - vm_compute. reflexivity.
Defined.

(** X24: an attachment of an issue and an attachment of a comment get the
    same name in the directory [archive] exactly when they are of the same
    issue and the file name of the first is the number of the comment, an
    underscore and the file name of the second. *)
Theorem archiveName_across_kinds (a b : attachment) :
  wellFormed a -> wellFormed b ->
  attachment_Type a = "issue" -> attachment_Type b = "issue_comment" ->
  archiveName a = archiveName b <->
  attachment_IssueNumber a = attachment_IssueNumber b /\
  nameOf a = formatInt (attachment_CommentNumber b) +:+ String "_" (nameOf b).
Proof.
  intros (_ & Hia & _) (_ & Hib & _) Ha Hb.
  rewrite archiveName_issue, archiveName_comment by done. split.
  - intros H. apply cut_inj in H as [Hn Hname]; [|by apply formatInt_chars..].
    apply formatInt_inj in Hn; done.
  - intros [-> ->]. reflexivity.
Qed.

Lemma archiveName_across_kinds_witness :
  archiveName issueSevenShot = archiveName commentShot.
Proof.
  apply (archiveName_across_kinds issueSevenShot commentShot).
  - exact wellFormed_issueSevenShot.
  - exact wellFormed_commentShot.
  - reflexivity.
  - reflexivity.
  - split; vm_compute; reflexivity.
Defined.

End ArchiveNames.

Section ArchiveDirectory.

Variable Join : string -> string -> string.
Variable w : archiveWorld.

Lemma copy_Ok (answer : copyAnswer) (src from name : string)
    (dir dir' : gmap string archived) :
  copy answer src from name dir = (dir', Ok tt) ->
  dir' = <[name := {| archived_from := from; archived_whole := true |}]> dir.
Proof.
  unfold copy. intros H.
  destruct (copyStatErr answer); [done|]. destruct (copyRegular answer); [|done].
  destruct (copyOpenErr answer); [done|]. destruct (copyCreateErr answer); [done|].
  destruct (copyIOErr answer); [done|]. cbn in H. by injection H as <-.
Qed.

(** Whatever [copy] returns, the directory holds what it held, but for the
    file of the name given, which comes from the path given if it changed. *)
Lemma copy_entries (answer : copyAnswer) (src from name : string)
    (dir dir' : gmap string archived) (r : run unit) (name' : string) (x : archived) :
  copy answer src from name dir = (dir', r) ->
  dir' !! name' = Some x ->
  dir !! name' = Some x \/ name' = name /\ archived_from x = from.
Proof.
  unfold copy. intros H Hx.
  destruct (copyStatErr answer); [injection H as <- _; by left|].
  destruct (copyRegular answer); [|injection H as <- _; by left].
  destruct (copyOpenErr answer); [injection H as <- _; by left|].
  destruct (copyCreateErr answer); [injection H as <- _; by left|].
  destruct (decide (name' = name)) as [->|Hne].
  - right. split; [done|].
    destruct (copyIOErr answer); injection H as <- _;
      rewrite lookup_insert_eq in Hx; by injection Hx as <-.
  - left. destruct (copyIOErr answer); injection H as <- _;
      by rewrite lookup_insert_ne in Hx.
Qed.

Lemma copyAttachments_Ok (attachments : list attachment) (n : nat)
    (dir dir' : gmap string archived) (name : string) :
  Archiving.copyAttachments Join w attachments n dir = (dir', Ok tt) ->
  dir' !! name =
  match last (List.filter (fun a => String.eqb (archiveName a) name) attachments) with
  | Some a => Some (wholeCopy a)
  | None => dir !! name
  end.
Proof.
  revert n dir. induction attachments as [|a rest IH]; intros n dir H.
  - cbn in H. by injection H as <-.
  - cbn [Archiving.copyAttachments] in H.
    destruct (copy _ _ _ _ dir) as [dir1 [[]| | |]] eqn:Hcopy; try done.
    apply copy_Ok in Hcopy. apply IH in H. rewrite H. cbn [List.filter].
    destruct (String.eqb_spec (archiveName a) name) as [<-|Hne].
    + rewrite last_cons. destruct (last _); [done|].
      by rewrite Hcopy, lookup_insert_eq.
    + destruct (last _); [done|]. by rewrite Hcopy, lookup_insert_ne.
Qed.

Lemma copyAttachments_entries (attachments : list attachment) (n : nat)
    (dir dir' : gmap string archived) (r : run unit) (name : string) (x : archived) :
  Archiving.copyAttachments Join w attachments n dir = (dir', r) ->
  dir' !! name = Some x ->
  dir !! name = Some x \/
  exists a, a ∈ attachments /\ name = archiveName a /\ archived_from x = attachment_Path a.
Proof.
  revert n dir. induction attachments as [|a rest IH]; intros n dir H Hx.
  - cbn in H. injection H as <- _. by left.
  - cbn [Archiving.copyAttachments] in H.
    assert (forall dir1 r1,
              copy (copies w n) (Join "stage" (attachment_Path a)) (attachment_Path a)
                   (archiveName a) dir = (dir1, r1) ->
              dir1 !! name = Some x ->
              dir !! name = Some x \/
              exists a', a' ∈ a :: rest /\ name = archiveName a' /\
                         archived_from x = attachment_Path a') as Hone.
    { intros dir1 r1 Hcopy Hx1.
      destruct (copy_entries _ _ _ _ _ _ _ _ _ Hcopy Hx1) as [Hold | [-> Hfrom]];
        [by left|].
      right. exists a. split; [apply list_elem_of_here|done]. }
    destruct (copy _ _ _ _ dir) as [dir1 [[]| | |]] eqn:Hcopy.
    + destruct (IH _ _ H Hx) as [Hold | (a' & Hin & Hrest)].
      * by apply (Hone dir1 (Ok tt)).
      * right. exists a'. split; [by apply list_elem_of_further|done].
    + injection H as <- _. by apply (Hone dir1 (Fail e)).
    + injection H as <- _. by apply (Hone dir1 (Panic p)).
    + injection H as <- _. by apply (Hone dir1 OutOfFuel).
Qed.

(** X25: a run of [archive] that returns nil read an index, and has left in
    the directory [archive] one file for every name of an attachment of
    that index and no other file; of the attachments that get one name,
    the copy of the last one stays. *)
Theorem archive_result (dir dir' : option (gmap string archived)) (file : option database) :
  Archiving.archive Join w dir file = (dir', Ok tt) ->
  exists db d,
    file = Some db /\ dir' = Some d /\
    forall name,
      d !! name =
      wholeCopy <$>
        last (List.filter (fun a => String.eqb (archiveName a) name) (Attachments db)).
Proof.
  unfold Archiving.archive. intros H.
  assert (forall db d,
            Archiving.copyAttachments Join w (Attachments db) 0 ∅ = (d, Ok tt) ->
            forall name,
              d !! name =
              wholeCopy <$>
                last (List.filter (fun a => String.eqb (archiveName a) name)
                        (Attachments db))) as Hcopies.
  { intros db d Hd name. rewrite (copyAttachments_Ok _ _ _ _ name Hd).
    by destruct (last _). }
  destruct dir as [old|].
  - destruct (archiveRemoveAllErr w); [done|]. destruct (archiveMkdirErr w); [done|].
    destruct (archiveReadErr w); [done|]. destruct file as [db|]; [|done].
    destruct (archiveUnmarshalErr w); [done|].
    destruct (Archiving.copyAttachments _ _ _ _ _) as [d [[]| | |]] eqn:Hd; try done.
    destruct (archiveCreateErr w); [done|]. destruct (compressErr w); [done|].
    injection H as <-. exists db, d. by split_and!; [| |apply Hcopies].
  - destruct (archiveMkdirErr w); [done|].
    destruct (archiveReadErr w); [done|]. destruct file as [db|]; [|done].
    destruct (archiveUnmarshalErr w); [done|].
    destruct (Archiving.copyAttachments _ _ _ _ _) as [d [[]| | |]] eqn:Hd; try done.
    destruct (archiveCreateErr w); [done|]. destruct (compressErr w); [done|].
    injection H as <-. exists db, d. by split_and!; [| |apply Hcopies].
Qed.

(** X26: whatever [archive] returns, when [os.RemoveAll] did not fail, every
    file the directory [archive] holds afterwards is named after an
    attachment of the index and was copied from its path: nothing of an
    earlier run stays, also when the run fails on the way. *)
Theorem archive_keeps_nothing (dir : option (gmap string archived))
    (file : option database) (d : gmap string archived) (r : run unit)
    (name : string) (x : archived) :
  archiveRemoveAllErr w = None ->
  Archiving.archive Join w dir file = (Some d, r) ->
  d !! name = Some x ->
  exists db a,
    file = Some db /\ a ∈ Attachments db /\
    name = archiveName a /\ archived_from x = attachment_Path a.
Proof.
  intros Hremove H Hx. unfold Archiving.archive in H. rewrite Hremove in H.
  assert (match archiveReadErr w, file with
          | Some err, _ => (Some (∅ : gmap string archived),
                            Fail (Errorf "failed reading database: %s" [inr err]))
          | None, None =>
              (Some ∅,
               Fail (Errorf "failed reading database: %s"
                       [inr (External "open database.json: no such file or directory")]))
          | None, Some db =>
              match archiveUnmarshalErr w with
              | Some err =>
                  (Some ∅, Fail (Errorf "failed unmarshalling database: %s" [inr err]))
              | None =>
                  match Archiving.copyAttachments Join w (Attachments db) 0 ∅ with
                  | (dir', Ok _) =>
                      match archiveCreateErr w with
                      | Some err =>
                          (Some dir', Fail (Errorf "failed opening archive: %s" [inr err]))
                      | None =>
                          match compressErr w with
                          | Some err =>
                              (Some dir',
                               Fail (Errorf "failed compressing archive: %s" [inr err]))
                          | None => (Some dir', Ok tt)
                          end
                      end
                  | (dir', failed) => (Some dir', failed)
                  end
              end
          end = (Some d, r)) as Hrest.
  { destruct dir as [old|]; destruct (archiveMkdirErr w); done. }
  clear H.
  destruct (archiveReadErr w).
  { injection Hrest as <- _. by rewrite lookup_empty in Hx. }
  destruct file as [db|]; [|injection Hrest as <- _; by rewrite lookup_empty in Hx].
  destruct (archiveUnmarshalErr w).
  { injection Hrest as <- _. by rewrite lookup_empty in Hx. }
  destruct (Archiving.copyAttachments _ _ _ _ _) as [d1 r1] eqn:Hd.
  assert (d1 = d) as ->.
  { destruct r1 as [[]| | |]; [|by injection Hrest as <- _..].
    destruct (archiveCreateErr w); [by injection Hrest as <- _|].
    destruct (compressErr w); by injection Hrest as <- _. }
  destruct (copyAttachments_entries _ _ _ _ _ _ _ Hd Hx) as [Hold | (a & Hin & Hname & Hfrom)].
  - by rewrite lookup_empty in Hold.
  - by exists db, a.
Qed.

End ArchiveDirectory.

Lemma archive_result_witness :
  exists db d,
    Some sameNameIndex = Some db /\
    Some ({[ "42_shot.png" := wholeCopy issueShotAgain ]} : gmap string archived) = Some d /\
    forall name,
      d !! name =
      wholeCopy <$>
        last (List.filter (fun a => String.eqb (archiveName a) name) (Attachments db)).
Proof.
  apply (archive_result joinPlain stillWorld (Some oldArchive)).
  vm_compute. reflexivity.
Defined.

Lemma archive_keeps_nothing_witness :
  exists db a,
    Some sameNameIndex = Some db /\ a ∈ Attachments db /\
    "42_shot.png" = archiveName a /\
    archived_from (wholeCopy issueShotAgain) = attachment_Path a.
Proof.
  apply (archive_keeps_nothing joinPlain unwritableTarball (Some oldArchive)
           (Some sameNameIndex) {[ "42_shot.png" := wholeCopy issueShotAgain ]}
           (Fail (Errorf "failed opening archive: %s"
                    [inr (External "open processed_archive.tgz: permission denied")]))).
  - reflexivity.
  - vm_compute. reflexivity.
  - vm_compute. reflexivity.
Defined.

Section TarNames.

Lemma substring_all (s : string) : String.substring 0 (String.length s) s = s.
Proof. induction s as [|c s IH]; [reflexivity|]. cbn. by rewrite IH. Qed.

Lemma TrimPrefix_slash (s : string) : TrimPrefix (String "/" s) "/" = s.
Proof.
  unfold TrimPrefix. cbn [HasPrefix].
  assert (Ascii.eqb "/" "/" = true) as -> by reflexivity.
  cbn [String.length Nat.sub String.substring]. rewrite Nat.sub_0_r. apply substring_all.
Qed.

(** Below the directory [archive], [compress] names a file by what
    [strings.Replace] leaves of its name in the directory. *)
Lemma tarName_archive (name : string) :
  tarName "archive" (joinPlain "archive" name) = replaceAll "archive" EmptyString 0 name.
Proof.
  unfold tarName, Replace.
  assert (String.eqb "archive" EmptyString = false) as -> by reflexivity.
  assert (replaceAll "archive" EmptyString 0 (joinPlain "archive" name)
          = String "/" (replaceAll "archive" EmptyString 0 name)) as -> by reflexivity.
  apply TrimPrefix_slash.
Qed.

Lemma replaceAll_absent (old new s : string) :
  occurs old s = false -> replaceAll old new 0 s = s.
Proof.
  induction s as [|c s IH]; intros H; [reflexivity|].
  cbn [occurs] in H. apply orb_false_iff in H as [Hhere Hrest].
  cbn [replaceAll]. rewrite Hhere. by rewrite IH.
Qed.

Lemma replaceAll_before (c : ascii) (old new pre s : string) :
  contains c pre = false ->
  replaceAll (String c old) new 0 (pre +:+ s) = pre +:+ replaceAll (String c old) new 0 s.
Proof.
  induction pre as [|x pre IH]; intros H; [reflexivity|].
  cbn [contains] in H. apply orb_false_iff in H as [Hx Hpre].
  rewrite !app_String. cbn [replaceAll HasPrefix]. rewrite Hx. by rewrite IH.
Qed.

(** X27: a file of the directory [archive] whose name does not hold the
    text "archive" keeps its name in the tarball. *)
Theorem tarName_plain (name : string) :
  occurs "archive" name = false ->
  tarName "archive" (joinPlain "archive" name) = name.
Proof. intros H. rewrite tarName_archive. by apply replaceAll_absent. Qed.

Lemma tarName_plain_witness :
  tarName "archive" (joinPlain "archive" "42_shot.png") = "42_shot.png".
Proof. apply (tarName_plain "42_shot.png"). vm_compute. reflexivity. Defined.

(** X28: [compress] removes the name of the directory wherever it stands in
    the path of a file, not at its start only: a file whose name holds
    "archive" after a part without the letter a gets, in the tarball, the
    name of the file without that word. *)
Theorem tarName_drops_directory_name (pre rest : string) :
  contains "a" pre = false ->
  tarName "archive" (joinPlain "archive" (pre +:+ "archive" +:+ rest))
  = tarName "archive" (joinPlain "archive" (pre +:+ rest)).
Proof.
  intros H. rewrite !tarName_archive.
  rewrite (replaceAll_before _ _ _ pre ("archive" +:+ rest)) by done.
  rewrite (replaceAll_before _ _ _ pre rest) by done.
  reflexivity.
Qed.

Lemma tarName_drops_directory_name_witness :
  tarName "archive" (joinPlain "archive" ("42_" +:+ "archive" +:+ ".zip"))
  = tarName "archive" (joinPlain "archive" ("42_" +:+ ".zip")).
Proof. apply (tarName_drops_directory_name "42_" ".zip"). vm_compute. reflexivity. Defined.

End TarNames.
